(** * Exception-handling lowering: landing pads, scope stack, exception storage

    A shallow embedding of [ir/irlandingpad.cpp] and of the memory package
    [dmd/tk/mem.c].  The code generator is stateful: every operation threads the generator state ([gIR]) and may
    stop on a failed [assert] or on a container operation whose precondition
    does not hold.  Generated code is kept as a map from basic blocks to
    instruction lists, so that the dispatch built by [constructLandingPad]
    can be run.  The memory package works on its own variables and on the
    allocator of the C library. *)

From Stdlib Require Import ZArith Lia.
From stdpp Require Import base option list gmap strings.

(** ** Front-end objects *)

Inductive Statement : Type := Stmt (id : nat).

Inductive IrStruct : Type := mkIrStruct (classInfoName : nat).

Record ClassDeclaration : Type := mkClassDeclaration {
  ident : nat;
  irStruct : option IrStruct;      (* ir.irStruct, NULL until codegen *)
}.

Inductive Type_ : Type :=
| Tclass (cd : ClassDeclaration)
| Tint8
| Tbasic (n : nat)
| Ttypedef (base : Type_).

Fixpoint toBasetype (t : Type_) : Type_ :=
  match t with
  | Ttypedef b => toBasetype b
  | _ => t
  end.

Definition isClassHandle (t : Type_) : option ClassDeclaration :=
  match t with
  | Tclass cd => Some cd
  | _ => None
  end.

(** [ClassDeclaration::codegen] resolves the class: afterwards [ir.irStruct]
    is set.  A class that is resolved already is left as it is. *)
Definition codegen (cd : ClassDeclaration) : ClassDeclaration :=
  match irStruct cd with
  | Some _ => cd
  | None => mkClassDeclaration (ident cd) (Some (mkIrStruct (ident cd)))
  end.

Record VarDeclaration : Type := mkVarDeclaration {
  vd_ident : nat;
  vd_type : Type_;
  nestedrefs_dim : nat;            (* var->nestedrefs.dim *)
}.

Record Catch : Type := mkCatch {
  type : option Type_;
  var : option VarDeclaration;
  handler : option Statement;
}.

(** [ClassDeclaration::object] *)
Definition object : ClassDeclaration := mkClassDeclaration 0 (Some (mkIrStruct 0)).

(** ** Low-level objects *)

Definition BasicBlock : Type := nat.

Inductive LLType : Type :=
| LLVoid
| LLInt1
| LLInt8
| LLInt32
| LLClassInfo
| LLFunctionTy
| LLStruct (class_ident : nat)
| LLOpaque (n : nat)
| LLPtr (pointee : LLType).

Global Instance LLType_eq_dec : EqDecision LLType.
Proof. solve_decision. Defined.

Definition getPtrToType (t : LLType) : LLType := LLPtr t.

Fixpoint DtoType (t : Type_) : LLType :=
  match t with
  | Tclass cd => LLPtr (LLStruct (ident cd))
  | Tint8 => LLInt8
  | Tbasic n => LLOpaque n
  | Ttypedef b => DtoType b
  end.

Inductive LLFunction : Type :=
| eh_exception
| eh_selector
| eh_typeid_for
| RuntimeFunction (name : string).

Global Instance LLFunction_eq_dec : EqDecision LLFunction.
Proof. solve_decision. Defined.

Inductive LLValue : Type :=
| Inst (id : nat) (ty : LLType)            (* result of an instruction *)
| ClassInfoSymbol (name : nat)
| ConstUint (n : Z)
| FunctionRef (f : LLFunction)
| BitCast (v : LLValue) (ty : LLType).

Global Instance LLValue_eq_dec : EqDecision LLValue.
Proof. solve_decision. Defined.

Definition typeOf (v : LLValue) : LLType :=
  match v with
  | Inst _ ty => ty
  | ClassInfoSymbol _ => LLPtr LLClassInfo
  | ConstUint _ => LLInt32
  | FunctionRef _ => LLPtr LLFunctionTy
  | BitCast _ ty => ty
  end.

Definition pointeeType (t : LLType) : LLType :=
  match t with
  | LLPtr p => p
  | _ => LLVoid
  end.

Definition returnType (f : LLFunction) : LLType :=
  match f with
  | eh_exception => LLPtr LLInt8
  | eh_selector => LLInt32
  | eh_typeid_for => LLInt32
  | RuntimeFunction _ => LLVoid
  end.

Definition getClassInfoSymbol (s : IrStruct) : LLValue :=
  match s with mkIrStruct n => ClassInfoSymbol n end.

Definition DtoConstUint (n : Z) : LLValue := ConstUint n.

Inductive Instr : Type :=
| Call (res : nat) (fn : LLFunction) (args : list LLValue)
| Load (res : nat) (ptr : LLValue)
| Store (val ptr : LLValue)
| ICmpEQ (res : nat) (lhs rhs : LLValue)
| CondBr (cond : LLValue) (ifTrue ifFalse : BasicBlock)
| Br (dest : BasicBlock)
| Unreachable
| Lowered (s : Statement).                 (* the code of a lowered statement *)

Definition isTerminator (i : Instr) : bool :=
  match i with
  | CondBr _ _ _ | Br _ | Unreachable => true
  | _ => false
  end.

(** ** The landing-pad records *)

Record IRLandingPadInfo : Type := mkIRLandingPadInfo {
  target : option BasicBlock;
  finallyBody : option Statement;
  catchType : option ClassDeclaration;
}.

(** The value a container fills in when [resize] grows it. *)
Definition IRLandingPadInfo_default : IRLandingPadInfo :=
  mkIRLandingPadInfo None None None.

(** [IRLandingPadInfo::IRLandingPadInfo(Statement* finallystmt)] *)
Definition IRLandingPadInfo_finally (finallystmt : Statement) : IRLandingPadInfo :=
  mkIRLandingPadInfo None (Some finallystmt) None.

(** Stacks ([std::stack]) are lists whose head is the top. *)
Record IRLandingPad : Type := mkIRLandingPad {
  infos : list IRLandingPadInfo;
  unpushed_infos : list IRLandingPadInfo;
  nInfos : list nat;
  padBBs : list BasicBlock;
  catch_var : option LLValue;
}.

Definition IRLandingPad_init : IRLandingPad := mkIRLandingPad [] [] [] [] None.

Definition set_infos (v : list IRLandingPadInfo) (p : IRLandingPad) : IRLandingPad :=
  mkIRLandingPad v (unpushed_infos p) (nInfos p) (padBBs p) (catch_var p).
Definition set_unpushed_infos (v : list IRLandingPadInfo) (p : IRLandingPad) : IRLandingPad :=
  mkIRLandingPad (infos p) v (nInfos p) (padBBs p) (catch_var p).
Definition set_nInfos (v : list nat) (p : IRLandingPad) : IRLandingPad :=
  mkIRLandingPad (infos p) (unpushed_infos p) v (padBBs p) (catch_var p).
Definition set_padBBs (v : list BasicBlock) (p : IRLandingPad) : IRLandingPad :=
  mkIRLandingPad (infos p) (unpushed_infos p) (nInfos p) v (catch_var p).
Definition set_catch_var (v : option LLValue) (p : IRLandingPad) : IRLandingPad :=
  mkIRLandingPad (infos p) (unpushed_infos p) (nInfos p) (padBBs p) v.

(** [std::deque::resize]: truncates, or grows with default elements. *)
Definition resize {A : Type} (d : A) (n : nat) (l : list A) : list A :=
  take n l ++ replicate (n - length l) d.

(** ** The generator state [gIR] *)

Record IRScope : Type := mkIRScope {
  scope_begin : BasicBlock;
  scope_end : BasicBlock;
}.

Record IRState : Type := mkIRState {
  blocks : gmap nat (list Instr);          (* the function being generated *)
  allocas : list (nat * LLType * string);  (* the function's alloca point *)
  nextBB : nat;
  nextValue : nat;
  scope : IRScope;
  irLocal : gmap nat LLValue;              (* var->ir.irLocal->value, by variable *)
  landingPadInfo : IRLandingPad;           (* func()->gen->landingPadInfo *)
}.

Definition set_blocks (v : gmap nat (list Instr)) (st : IRState) : IRState :=
  mkIRState v (allocas st) (nextBB st) (nextValue st) (scope st) (irLocal st) (landingPadInfo st).
Definition set_allocas (v : list (nat * LLType * string)) (st : IRState) : IRState :=
  mkIRState (blocks st) v (nextBB st) (nextValue st) (scope st) (irLocal st) (landingPadInfo st).
Definition set_nextBB (v : nat) (st : IRState) : IRState :=
  mkIRState (blocks st) (allocas st) v (nextValue st) (scope st) (irLocal st) (landingPadInfo st).
Definition set_nextValue (v : nat) (st : IRState) : IRState :=
  mkIRState (blocks st) (allocas st) (nextBB st) v (scope st) (irLocal st) (landingPadInfo st).
Definition set_scope (v : IRScope) (st : IRState) : IRState :=
  mkIRState (blocks st) (allocas st) (nextBB st) (nextValue st) v (irLocal st) (landingPadInfo st).
Definition set_irLocal (v : gmap nat LLValue) (st : IRState) : IRState :=
  mkIRState (blocks st) (allocas st) (nextBB st) (nextValue st) (scope st) v (landingPadInfo st).
Definition set_landingPadInfo (v : IRLandingPad) (st : IRState) : IRState :=
  mkIRState (blocks st) (allocas st) (nextBB st) (nextValue st) (scope st) (irLocal st) v.

Definition pad_update (f : IRLandingPad → IRLandingPad) (st : IRState) : IRState :=
  set_landingPadInfo (f (landingPadInfo st)) st.

Definition getBlock (m : gmap nat (list Instr)) (b : BasicBlock) : list Instr :=
  default [] (m !! b).

(** ** Outcomes of a generator step

    [Fatal] is a failed [assert]: generation aborts and names the condition.
    [Undefined] is an operation the C++ containers and pointers leave
    undefined (top or pop of an empty stack, a NULL dereference). *)

Inductive Result (A : Type) : Type :=
| Ok (a : A)
| Fatal (msg : string)
| Undefined.
Arguments Ok {A} a.
Arguments Fatal {A} msg.
Arguments Undefined {A}.

Definition Gen (A : Type) : Type := IRState → Result (A * IRState).

Global Instance Gen_ret : MRet Gen := λ A a st, Ok (a, st).
Global Instance Gen_bind : MBind Gen := λ A B f m st,
  match m st with
  | Ok (a, st') => f a st'
  | Fatal msg => Fatal msg
  | Undefined => Undefined
  end.

Definition ret {A : Type} (a : A) : Gen A := mret a.
Definition skip : Gen unit := ret tt.
Definition gets {A : Type} (f : IRState → A) : Gen A := λ st, Ok (f st, st).
Definition modify (f : IRState → IRState) : Gen unit := λ st, Ok (tt, f st).
Definition undefined {A : Type} : Gen A := λ _, Undefined.
Definition assert (b : bool) (msg : string) : Gen unit :=
  λ st, if b then Ok (tt, st) else Fatal msg.
Definition deref {A : Type} (p : option A) : Gen A :=
  match p with
  | Some a => ret a
  | None => undefined
  end.

(** ** IR builder primitives

    The builder, the [Dto...] helpers and [gIR] belong to the rest of the
    generator.  An instruction goes to the end of the current block
    ([gIR->scopebb()]); a new block and a new value get the next free
    number. *)

Definition emit (i : Instr) (st : IRState) : IRState :=
  let b := scope_begin (scope st) in
  set_blocks (<[b := getBlock (blocks st) b ++ [i]]> (blocks st)) st.

Definition BasicBlock_Create : Gen BasicBlock :=
  λ st, let b := nextBB st in
        Ok (b, set_nextBB (S b) (set_blocks (<[b := []]> (blocks st)) st)).

Definition CreateCall (fn : LLFunction) (args : list LLValue) : Gen LLValue :=
  λ st, let r := nextValue st in
        Ok (Inst r (returnType fn), emit (Call r fn args) (set_nextValue (S r) st)).

(** A cast to the type the value has already is the value itself. *)
Definition CreateBitCast (v : LLValue) (ty : LLType) : LLValue :=
  if decide (typeOf v = ty) then v else BitCast v ty.
Definition DtoBitCast (v : LLValue) (ty : LLType) : LLValue := CreateBitCast v ty.

Definition CreateStore (val ptr : LLValue) : Gen unit := modify (emit (Store val ptr)).
Definition DtoStore (val ptr : LLValue) : Gen unit := CreateStore val ptr.

Definition DtoLoad (ptr : LLValue) : Gen LLValue :=
  λ st, let r := nextValue st in
        Ok (Inst r (pointeeType (typeOf ptr)), emit (Load r ptr) (set_nextValue (S r) st)).

Definition CreateICmpEQ (lhs rhs : LLValue) : Gen LLValue :=
  λ st, let r := nextValue st in
        Ok (Inst r LLInt1, emit (ICmpEQ r lhs rhs) (set_nextValue (S r) st)).

Definition CreateCondBr (c : LLValue) (t f : BasicBlock) : Gen unit :=
  modify (emit (CondBr c t f)).
Definition CreateBr (dest : BasicBlock) : Gen unit := modify (emit (Br dest)).
Definition CreateUnreachable : Gen unit := modify (emit Unreachable).

(** [DtoAlloca] places the slot at the function's alloca point, not in the
    current block. *)
Definition DtoAlloca (t : Type_) (name : string) : Gen LLValue :=
  λ st, let r := nextValue st in
        Ok (Inst r (LLPtr (DtoType t)),
            set_allocas (allocas st ++ [(r, DtoType t, name)]) (set_nextValue (S r) st)).

(** [IRState::scopereturned]: the current block ends in a terminator. *)
Definition scopereturned (st : IRState) : bool :=
  match last (getBlock (blocks st) (scope_begin (scope st))) with
  | Some i => isTerminator i
  | None => false
  end.

(** ** [IRLandingPad::getExceptionStorage] *)
Definition getExceptionStorage : Gen LLValue :=
  cv ← gets (λ st, catch_var (landingPadInfo st));
  match cv with
  | Some v => ret v
  | None =>
      v ← DtoAlloca (Tclass object) "catchvar";
      modify (pad_update (set_catch_var (Some v)));;
      ret v
  end.

(** Modelled from the spec: [DtoDeclarationExp] lives in the expression
    lowering, outside this file.  The constructor relies on it to
    "alloca if we haven't already and take care of nested refs"; the spec has
    a nested-referenced variable receive "an independent, separately
    allocated slot".  A variable with storage keeps it. *)
Definition DtoDeclarationExp (vd : VarDeclaration) : Gen unit :=
  l ← gets (λ st, irLocal st !! vd_ident vd);
  match l with
  | Some _ => skip
  | None =>
      v ← DtoAlloca (vd_type vd) "var";
      modify (λ st, set_irLocal (<[vd_ident vd := v]> (irLocal st)) st)
  end.

Section Lowering.

(** Statement lowering ([Statement::toIR]) belongs to the statement
    generator; the landing-pad code calls it and is parametric in it. *)
Variable toIR : Statement → Gen unit.

(** The part of the catch constructor of [IRLandingPadInfo] under
    "assign storage to catch var". *)
Definition assignCatchVarStorage (catchstmt : Catch) : Gen unit :=
  match var catchstmt with
  | Some v =>
      (if decide (nestedrefs_dim v = 0) then
         l ← gets (λ st, irLocal st !! vd_ident v);
         assert (bool_decide (l = None)) "!catchstmt->var->ir.irLocal";;
         catch_var ← getExceptionStorage;
         modify (λ st, set_irLocal
           (<[vd_ident v := CreateBitCast catch_var (getPtrToType (DtoType (vd_type v)))]>
              (irLocal st)) st)
       else skip);;
      DtoDeclarationExp v;;
      l ← gets (λ st, irLocal st !! vd_ident v);
      value ← deref l;
      storage ← getExceptionStorage;
      if decide (value ≠ storage) then
        storage' ← getExceptionStorage;
        ld ← DtoLoad storage';
        DtoStore (CreateBitCast ld (DtoType (vd_type v))) value
      else skip
  | None => skip
  end.

(** [IRLandingPadInfo::IRLandingPadInfo(Catch* catchstmt, BasicBlock* end)] *)
Definition IRLandingPadInfo_catch (catchstmt : Catch) (end_ : BasicBlock)
  : Gen IRLandingPadInfo :=
  target ← BasicBlock_Create;
  modify (set_scope (mkIRScope target end_));;
  assignCatchVarStorage catchstmt;;
  match handler catchstmt with
  | Some h => toIR h
  | None => skip
  end;;
  returned ← gets scopereturned;
  (if returned : bool then skip else CreateBr end_);;
  assert (bool_decide (is_Some (type catchstmt))) "catchstmt->type";;
  ty ← deref (type catchstmt);
  let catchType := isClassHandle (toBasetype ty) in
  assert (bool_decide (is_Some catchType)) "catchType";;
  cd ← deref catchType;
  ret (mkIRLandingPadInfo (Some target) None (Some (codegen cd))).

(** [IRLandingPad::addCatch] *)
Definition addCatch (catchstmt : Catch) (end_ : BasicBlock) : Gen unit :=
  info ← IRLandingPadInfo_catch catchstmt end_;
  modify (pad_update (λ p, set_unpushed_infos (info :: unpushed_infos p) p)).

(** [IRLandingPad::addFinally] *)
Definition addFinally (finallystmt : Statement) : Gen unit :=
  modify (pad_update (λ p,
    set_unpushed_infos (IRLandingPadInfo_finally finallystmt :: unpushed_infos p) p)).

(** The first loop of [constructLandingPad]: class infos of the catches,
    each inserted at the front, and the two flags. *)
Fixpoint selectorLoop (l : list IRLandingPadInfo)
    (acc : list LLValue * bool * bool) : Gen (list LLValue * bool * bool) :=
  match l with
  | [] => ret acc
  | it :: rest =>
      let '(selectorargs, hasFinally, hasCatch) := acc in
      match finallyBody it with
      | Some _ => selectorLoop rest (selectorargs, true, hasCatch)
      | None =>
          assert (bool_decide (is_Some (catchType it))) "it->catchType";;
          cd ← deref (catchType it);
          assert (bool_decide (is_Some (irStruct cd))) "it->catchType->ir.irStruct";;
          s ← deref (irStruct cd);
          selectorLoop rest (getClassInfoSymbol s :: selectorargs, hasFinally, true)
      end
  end.

(** The second loop: the walk over the copy, last entry first. *)
Fixpoint walk (l : list IRLandingPadInfo) (eh_sel : LLValue) : Gen unit :=
  match l with
  | [] => skip
  | rit :: rest =>
      match finallyBody rit with
      | Some body =>
          ns ← gets (λ st, nInfos (landingPadInfo st));
          n ← deref (head ns);
          modify (pad_update (λ p, set_infos (resize IRLandingPadInfo_default n (infos p)) p));;
          modify (pad_update (λ p, set_nInfos (tail (nInfos p)) p));;
          toIR body
      | None =>
          next ← BasicBlock_Create;
          cd ← deref (catchType rit);
          s ← deref (irStruct cd);
          let classInfo := DtoBitCast (getClassInfoSymbol s) (getPtrToType (DtoType Tint8)) in
          eh_id ← CreateCall eh_typeid_for [classInfo];
          c ← CreateICmpEQ eh_sel eh_id;
          t ← deref (target rit);
          CreateCondBr c t next;;
          modify (λ st, set_scope (mkIRScope next (scope_end (scope st))) st)
      end;;
      walk rest eh_sel
  end.

(** [IRLandingPad::constructLandingPad] *)
Definition constructLandingPad (inBB : BasicBlock) : Gen unit :=
  savedscope ← gets scope;
  modify (set_scope (mkIRScope inBB (scope_end savedscope)));;
  eh_ptr ← CreateCall eh_exception [];
  this_infos ← gets (λ st, infos (landingPadInfo st));
  '(selectorargs, hasFinally, hasCatch) ← selectorLoop this_infos ([], false, false);
  let selectorargs :=
    if hasFinally : bool then selectorargs ++ [DtoConstUint 0] else selectorargs in
  let personality_fn := FunctionRef (RuntimeFunction "_d_eh_personality") in
  let personality_fn_arg := CreateBitCast personality_fn (getPtrToType LLInt8) in
  let selectorargs := personality_fn_arg :: selectorargs in
  let selectorargs := eh_ptr :: selectorargs in
  cv ← gets (λ st, catch_var (landingPadInfo st));
  match cv with
  | Some catch_var =>
      if hasCatch : bool
      then CreateStore (CreateBitCast eh_ptr (DtoType (Tclass object))) catch_var
      else skip
  | None => skip
  end;;
  eh_sel ← CreateCall eh_selector selectorargs;
  infos_copy ← gets (λ st, infos (landingPadInfo st));
  nInfos_copy ← gets (λ st, nInfos (landingPadInfo st));
  walk (rev infos_copy) eh_sel;;
  modify (pad_update (set_infos infos_copy));;
  modify (pad_update (set_nInfos nInfos_copy));;
  CreateCall (RuntimeFunction "_d_eh_resume_unwind") [eh_ptr];;
  CreateUnreachable;;
  modify (set_scope savedscope).

(** [IRLandingPad::push] *)
Definition push (inBB : BasicBlock) : Gen unit :=
  modify (pad_update (λ p, set_nInfos (length (infos p) :: nInfos p) p));;
  modify (pad_update (λ p, set_infos (infos p ++ unpushed_infos p) p));;
  modify (pad_update (set_unpushed_infos []));;
  constructLandingPad inBB;;
  modify (pad_update (λ p, set_padBBs (inBB :: padBBs p) p)).

(** [IRLandingPad::pop] *)
Definition pop : Gen unit :=
  bbs ← gets (λ st, padBBs (landingPadInfo st));
  match bbs with
  | [] => undefined
  | _ :: bbs' => modify (pad_update (set_padBBs bbs'))
  end;;
  ns ← gets (λ st, nInfos (landingPadInfo st));
  n ← deref (head ns);
  modify (pad_update (λ p, set_infos (resize IRLandingPadInfo_default n (infos p)) p));;
  modify (pad_update (λ p, set_nInfos (tail (nInfos p)) p)).

(** [IRLandingPad::get] *)
Definition get (p : IRLandingPad) : option BasicBlock :=
  match padBBs p with
  | [] => None
  | bb :: _ => Some bb
  end.

End Lowering.

(** Modelled from the spec: statement lowering is an external collaborator.
    For a straight-line statement the body is "re-lowered inline at the
    current position": its code is placed in the current block, and nothing
    else of the generator state changes. *)
Definition toIR_inline (s : Statement) : Gen unit := modify (emit (Lowered s)).

Definition IRState_init : IRState :=
  mkIRState ∅ [] 0 0 (mkIRScope 0 0) ∅ IRLandingPad_init.

(** ** Running generated code

    The unwinding runtime supplies the exception pointer, the selector value
    the personality function computes, and the type id of each class info.
    Memory is not modelled: a store leaves the registers alone, and a load
    cannot be run. *)

Record Runtime : Type := mkRuntime {
  rt_exception : Z;
  rt_selector : Z;
  rt_typeid_for : LLValue → Z;
}.

Inductive Outcome : Type :=
| Reached (bb : BasicBlock)        (* control left the pad for this block *)
| Resumed (exc : Z)                (* _d_eh_resume_unwind was called *)
| Trapped                          (* an unreachable was executed *)
| Stuck
| OutOfFuel.

Definition Env : Type := nat → Z.

Definition upd (env : Env) (r : nat) (z : Z) : Env :=
  λ k, if decide (k = r) then z else env k.

Fixpoint eval (env : Env) (v : LLValue) : Z :=
  match v with
  | Inst id _ => env id
  | BitCast v' _ => eval env v'
  | ConstUint n => n
  | ClassInfoSymbol _ | FunctionRef _ => 0%Z
  end.

Section Run.

Variable rt : Runtime.
Variable code_of : gmap nat (list Instr).
Variable stop : BasicBlock → bool.

Fixpoint run (fuel : nat) (code : list Instr) (env : Env)
  : list Statement * Outcome :=
  match fuel with
  | 0 => ([], OutOfFuel)
  | S fuel' =>
      let jump (b : BasicBlock) :=
        if stop b then ([], Reached b) else run fuel' (getBlock code_of b) env in
      match code with
      | [] => ([], Stuck)
      | Call r eh_exception _ :: rest => run fuel' rest (upd env r (rt_exception rt))
      | Call r eh_selector _ :: rest => run fuel' rest (upd env r (rt_selector rt))
      | Call r eh_typeid_for [a] :: rest => run fuel' rest (upd env r (rt_typeid_for rt a))
      | Call r eh_typeid_for _ :: rest => ([], Stuck)
      | Call r (RuntimeFunction name) args :: rest =>
          if decide (name = "_d_eh_resume_unwind") then
            match args with
            | [p] => ([], Resumed (eval env p))
            | _ => ([], Stuck)
            end
          else run fuel' rest env
      | Load _ _ :: _ => ([], Stuck)
      | Store _ _ :: rest => run fuel' rest env
      | ICmpEQ r a b :: rest =>
          run fuel' rest (upd env r (if decide (eval env a = eval env b) then 1%Z else 0%Z))
      | CondBr c t f :: _ => jump (if decide (eval env c = 0%Z) then f else t)
      | Br b :: _ => jump b
      | Unreachable :: _ => ([], Trapped)
      | Lowered s :: rest =>
          let '(ev, o) := run fuel' rest env in (s :: ev, o)
      end
  end.

(** What the dispatch is to do, entry by entry, innermost entry first: a
    finally runs its body and goes on, a catch compares the selector with the
    type id of its class and leaves for its target on a match; when the
    entries are exhausted the unwind is resumed. *)
Fixpoint dispatch (l : list IRLandingPadInfo) : list Statement * Outcome :=
  match l with
  | [] => ([], Resumed (rt_exception rt))
  | i :: rest =>
      match finallyBody i with
      | Some s => let '(ev, o) := dispatch rest in (s :: ev, o)
      | None =>
          match catchType i ≫= irStruct, target i with
          | Some s, Some t =>
              if decide (rt_selector rt =
                         rt_typeid_for rt (DtoBitCast (getClassInfoSymbol s)
                                             (getPtrToType (DtoType Tint8))))
              then ([], Reached t)
              else dispatch rest
          | _, _ => ([], Stuck)
          end
      end
  end.

End Run.

(** The states [constructLandingPad] goes through: the landing block with
    the capture and the selector call in it, and the state it returns once
    the walk is done. *)
Definition selectorList (eh_ptr : LLValue) (classinfos : list LLValue) (hasFinally : bool)
  : list LLValue :=
  eh_ptr
  :: CreateBitCast (FunctionRef (RuntimeFunction "_d_eh_personality")) (getPtrToType LLInt8)
  :: (if hasFinally then classinfos ++ [DtoConstUint 0] else classinfos).

Definition pad_header (inBB : BasicBlock) (classinfos : list LLValue)
    (hasFinally hasCatch : bool) (st : IRState) : IRState :=
  let r := nextValue st in
  let eh_ptr := Inst r (LLPtr LLInt8) in
  let st1 := emit (Call r eh_exception [])
               (set_nextValue (S r) (set_scope (mkIRScope inBB (scope_end (scope st))) st)) in
  let st2 :=
    match catch_var (landingPadInfo st) with
    | Some cv =>
        if hasCatch
        then emit (Store (CreateBitCast eh_ptr (DtoType (Tclass object))) cv) st1
        else st1
    | None => st1
    end in
  emit (Call (S r) eh_selector (selectorList eh_ptr classinfos hasFinally))
    (set_nextValue (S (S r)) st2).

Definition pad_finish (st : IRState) (stw : IRState) : IRState :=
  let r := nextValue stw in
  set_scope (scope st)
    (emit Unreachable
       (emit (Call r (RuntimeFunction "_d_eh_resume_unwind") [Inst (nextValue st) (LLPtr LLInt8)])
          (set_nextValue (S r)
             (pad_update (set_nInfos (nInfos (landingPadInfo st)))
                (pad_update (set_infos (infos (landingPadInfo st))) stw))))).

(** ** Sequences of scope-stack operations *)

Inductive Op : Type :=
| OpAddCatch (catchstmt : Catch) (end_ : BasicBlock)
| OpAddFinally (finallystmt : Statement)
| OpPush (inBB : BasicBlock)
| OpPop.

Definition step (toIR : Statement → Gen unit) (op : Op) : Gen unit :=
  match op with
  | OpAddCatch c e => addCatch toIR c e
  | OpAddFinally s => addFinally s
  | OpPush bb => push toIR bb
  | OpPop => pop
  end.

Fixpoint steps (toIR : Statement → Gen unit) (ops : list Op) : Gen unit :=
  match ops with
  | [] => skip
  | op :: rest => step toIR op;; steps toIR rest
  end.

(** Statement lowering leaves a component of the scope stack as it found
    it: whatever it pushes while lowering nested statements it pops again. *)
Definition preserves {A : Type} (field : IRLandingPad → A)
    (toIR : Statement → Gen unit) : Prop :=
  ∀ s st st', toIR s st = Ok (tt, st') →
    field (landingPadInfo st') = field (landingPadInfo st).

(** Checkpoints, read from the top of the stack down, never grow: they are
    weakly increasing from the bottom to the top. *)
Definition increasing_to_top (ns : list nat) : Prop :=
  ∀ i j a b, i ≤ j → ns !! i = Some a → ns !! j = Some b → b ≤ a.

Definition stack_inv (p : IRLandingPad) : Prop :=
  length (padBBs p) = length (nInfos p) ∧
  Forall (λ n, n ≤ length (infos p)) (nInfos p) ∧
  increasing_to_top (nInfos p).

(** The same invariant, in the form the operations maintain it. *)
Fixpoint checkpoints_ok (len : nat) (ns : list nat) : Prop :=
  match ns with
  | [] => True
  | n :: rest => n ≤ len ∧ checkpoints_ok n rest
  end.

Definition stack_ok (p : IRLandingPad) : Prop :=
  length (padBBs p) = length (nInfos p) ∧
  checkpoints_ok (length (infos p)) (nInfos p).

(** Two states with the same handler list, checkpoints and unwind targets. *)
Definition same_stack (st st' : IRState) : Prop :=
  infos (landingPadInfo st') = infos (landingPadInfo st) ∧
  nInfos (landingPadInfo st') = nInfos (landingPadInfo st) ∧
  padBBs (landingPadInfo st') = padBBs (landingPadInfo st).

(** The current block, and the code that ends a landing pad. *)
Definition cur (st : IRState) : BasicBlock := scope_begin (scope st).

Definition resume_tail (r exc_id : nat) : list Instr :=
  [Call r (RuntimeFunction "_d_eh_resume_unwind") [Inst exc_id (LLPtr LLInt8)]; Unreachable].

(** What the walk over [l], begun in state [st] and ended in [st'], has
    generated: blocks below [nextBB st] other than the current one are
    untouched, the current block has grown by [code], and in any final block
    map [m] that completes the last block with the resume call, running
    [code] does what [dispatch] says. *)
Definition walk_post (l : list IRLandingPadInfo) (sel_id : nat) (st st' : IRState) : Prop :=
  cur st' < nextBB st' ∧ nextBB st ≤ nextBB st' ∧
  (cur st' = cur st ∨ nextBB st ≤ cur st') ∧
  (∀ k, k < nextBB st → k ≠ cur st → blocks st' !! k = blocks st !! k) ∧
  ∃ code,
    getBlock (blocks st') (cur st) = getBlock (blocks st) (cur st) ++ code ∧
    ∀ rt stop m r exc_id env fuel,
      (∀ k, nextBB st ≤ k → stop k = false) →
      (∀ i t, i ∈ l → finallyBody i = None → target i = Some t → stop t = true) →
      (∀ k, k ≠ cur st' → m !! k = blocks st' !! k) →
      getBlock m (cur st') = getBlock (blocks st') (cur st') ++ resume_tail r exc_id →
      sel_id < nextValue st → exc_id < nextValue st →
      env sel_id = rt_selector rt → env exc_id = rt_exception rt →
      3 * length l + 1 ≤ fuel →
      run rt m stop fuel
        (code ++ (if decide (cur st' = cur st) then resume_tail r exc_id else [])) env
      = dispatch rt l.

(** ** Reading the handler list *)

Definition is_finally (i : IRLandingPadInfo) : bool :=
  match finallyBody i with
  | Some _ => true
  | None => false
  end.

(** The class info a catch entry contributes to the selector call. *)
Definition catch_classinfo (i : IRLandingPadInfo) : option LLValue :=
  match finallyBody i with
  | Some _ => None
  | None => getClassInfoSymbol <$> (catchType i ≫= irStruct)
  end.

(** A catch entry is resolved when its class has been generated and it has
    a target block; a finally entry needs nothing. *)
Definition resolved (i : IRLandingPadInfo) : Prop :=
  is_finally i = true ∨ (is_Some (catch_classinfo i) ∧ is_Some (target i)).

(** The targets of the catch entries: where the dispatch may leave for. *)
Definition catch_target (i : IRLandingPadInfo) : option BasicBlock :=
  match finallyBody i with
  | Some _ => None
  | None => target i
  end.

Definition is_target (l : list IRLandingPadInfo) (b : BasicBlock) : bool :=
  bool_decide (b ∈ omap catch_target l).

(** The arguments of the first selector call in a block. *)
Fixpoint selectorCall (code : list Instr) : option (list LLValue) :=
  match code with
  | [] => None
  | Call _ eh_selector args :: _ => Some args
  | _ :: rest => selectorCall rest
  end.

(** The selector value matches no catch entry of the list. *)
Definition no_match (rt : Runtime) (l : list IRLandingPadInfo) : Prop :=
  ∀ i ci, i ∈ l → catch_classinfo i = Some ci →
    rt_selector rt ≠ rt_typeid_for rt (DtoBitCast ci (getPtrToType (DtoType Tint8))).

(** A run of steps that only writes into the current block: no block is
    created, the scope stays, and of the scope stack nothing but the shared
    slot may change. *)
Definition emits_into (st st' : IRState) : Prop :=
  nextBB st' = nextBB st ∧ scope st' = scope st ∧ nextValue st ≤ nextValue st' ∧
  delete (cur st) (blocks st') = delete (cur st) (blocks st) ∧
  infos (landingPadInfo st') = infos (landingPadInfo st) ∧
  unpushed_infos (landingPadInfo st') = unpushed_infos (landingPadInfo st) ∧
  nInfos (landingPadInfo st') = nInfos (landingPadInfo st) ∧
  padBBs (landingPadInfo st') = padBBs (landingPadInfo st).

(** ** Example states and inputs *)

Definition example_finally : IRLandingPadInfo := IRLandingPadInfo_finally (Stmt 5).

Definition example_catch (cls : nat) (bb : BasicBlock) : IRLandingPadInfo :=
  mkIRLandingPadInfo (Some bb) None (Some (mkClassDeclaration cls (Some (mkIrStruct cls)))).

(** A state inside one try-catch whose landing block is 0, with a finally
    staged for the try statement about to be entered; blocks 0 to 3 exist. *)
Definition example_state : IRState :=
  mkIRState (<[0 := []]> (<[1 := []]> (<[2 := []]> (<[3 := []]> ∅)))) [] 4 0
    (mkIRScope 1 1) ∅
    (mkIRLandingPad [example_catch 7 2] [example_finally] [0] [0] None).

Definition result_state (r : Result (unit * IRState)) : IRState :=
  match r with
  | Ok (_, st) => st
  | _ => IRState_init
  end.

Definition example_roundtrip : IRState :=
  Eval vm_compute in result_state ((push toIR_inline 3;; pop) example_state).

(** The handler list has a finally on top of a catch, with one checkpoint
    each: the walk truncates the live list, the constructor puts it back. *)
Definition example_nested : IRState :=
  set_landingPadInfo
    (mkIRLandingPad [example_catch 7 2; example_finally] [] [1; 0] [0] None) example_state.

Definition example_pad : IRState :=
  Eval vm_compute in result_state (constructLandingPad toIR_inline 3 example_nested).

Definition example_start : IRState := set_landingPadInfo IRLandingPad_init example_state.

Definition example_ops : list Op :=
  [OpAddCatch (mkCatch (Some (Tclass (mkClassDeclaration 7 None))) None (Some (Stmt 9))) 1;
   OpPush 0; OpAddFinally (Stmt 5); OpPush 3; OpPop].

Definition example_after_ops : IRState :=
  Eval vm_compute in result_state (steps toIR_inline example_ops example_start).

Definition catch_class (c : Catch) : option ClassDeclaration :=
  type c ≫= λ ty, isClassHandle (toBasetype ty).

Definition info_of (t : BasicBlock) (cd : ClassDeclaration) : IRLandingPadInfo :=
  mkIRLandingPadInfo (Some t) None (Some (codegen cd)).

(** A runtime whose type ids are the class numbers. *)
Definition example_runtime (exc sel : Z) : Runtime :=
  mkRuntime exc sel
    (λ v, match v with
          | BitCast (ClassInfoSymbol n) _ => Z.of_nat n
          | _ => 0%Z
          end).

Definition example_catch_stmt (cls : nat) (h : nat) : Catch :=
  mkCatch (Some (Tclass (mkClassDeclaration cls None)))
    (Some (mkVarDeclaration cls (Tclass (mkClassDeclaration cls None)) 0)) (Some (Stmt h)).

(** Inside one try-catch (class 7, target block 2, landing block 0), with
    nothing staged; block 3 is the empty landing block of the next try. *)
Definition example_outer : IRState :=
  set_landingPadInfo (mkIRLandingPad [example_catch 7 2] [] [0] [0] None) example_state.

Definition example_three : IRState :=
  Eval vm_compute in
    result_state
      ((addCatch toIR_inline (example_catch_stmt 11 21) 1;;
        addCatch toIR_inline (example_catch_stmt 12 22) 1;;
        addCatch toIR_inline (example_catch_stmt 13 23) 1;;
        push toIR_inline 3) example_outer).

(** Two catches, class 7 of the outer try and class 8 of the inner one. *)
Definition example_two : IRState :=
  set_landingPadInfo
    (mkIRLandingPad [example_catch 7 2; example_catch 8 1] [] [1; 0] [0] None) example_state.

Definition example_two_pad : IRState :=
  Eval vm_compute in result_state (constructLandingPad toIR_inline 3 example_two).


Definition example_nested_catch : Catch :=
  mkCatch (Some (Tclass (mkClassDeclaration 13 None)))
    (Some (mkVarDeclaration 13 (Tclass (mkClassDeclaration 13 None)) 1)) None.

(** Modelled from the spec: a try-finally statement "pushes/pops scopes on
    the Exception Scope Stack" as it is entered and left: its cleanup is
    staged, its landing pad pushed, its body lowered, and the scope popped.
    [Stmt 50] stands for such a statement, with landing block 3, body
    [Stmt 51] and cleanup [Stmt 52]; every other statement is straight-line. *)
Definition toIR_with_try (s : Statement) : Gen unit :=
  match s with
  | Stmt 50 => addFinally (Stmt 52);; push toIR_inline 3;; toIR_inline (Stmt 51);; pop
  | _ => toIR_inline s
  end.

(** A try with the catches of classes 11, 12 and 13 and the landing block
    0, the handler of the third being the try-finally [Stmt 50]; the catch
    blocks are 4, 5 and 6. *)
Definition example_handler_try : IRState :=
  Eval vm_compute in
    result_state
      ((addCatch toIR_with_try (example_catch_stmt 11 21) 1;;
        addCatch toIR_with_try (example_catch_stmt 12 22) 1;;
        addCatch toIR_with_try (example_catch_stmt 13 50) 1;;
        push toIR_with_try 0) example_start).

(** The same try, the handler of the third catch being straight-line. *)
Definition example_handler_plain : IRState :=
  Eval vm_compute in
    result_state
      ((addCatch toIR_with_try (example_catch_stmt 11 21) 1;;
        addCatch toIR_with_try (example_catch_stmt 12 22) 1;;
        addCatch toIR_with_try (example_catch_stmt 13 23) 1;;
        push toIR_with_try 0) example_start).

(** ** Reading the generator state further *)

(** The [assert] of the first loop of [constructLandingPad] that an entry
    fails, if it fails one. *)
Definition unresolved_message (i : IRLandingPadInfo) : option string :=
  match finallyBody i, catchType i with
  | Some _, _ => None
  | None, None => Some "it->catchType"
  | None, Some cd =>
      match irStruct cd with
      | None => Some "it->catchType->ir.irStruct"
      | Some _ => None
      end
  end.

(** A run of steps that adds [code] to the current block and stays in it. *)
Definition appends (code : list Instr) (st st' : IRState) : Prop :=
  scope st' = scope st ∧
  getBlock (blocks st') (cur st) = getBlock (blocks st) (cur st) ++ code.

(** The scope stack is in order and every entry of it is resolved. *)
Definition entries_ok (p : IRLandingPad) : Prop :=
  stack_ok p ∧ Forall resolved (infos p) ∧ Forall resolved (unpushed_infos p).

(** The number of catch entries of a handler list. *)
Definition catches (l : list IRLandingPadInfo) : nat :=
  length (filter (λ i, is_finally i = false) l).

(** A shared slot that is there stays the same. *)
Definition slot_kept (st st' : IRState) : Prop :=
  ∀ cv, catch_var (landingPadInfo st) = Some cv → catch_var (landingPadInfo st') = Some cv.

(** *** More example states *)

(** The handler list of [example_two], the class of the inner catch not
    generated. *)
Definition example_unresolved : IRState :=
  set_landingPadInfo
    (mkIRLandingPad
       [example_catch 7 2; mkIRLandingPadInfo (Some 1) None (Some (mkClassDeclaration 8 None))]
       [] [1; 0] [0] None) example_state.

Definition example_pushed : IRState :=
  Eval vm_compute in result_state (push toIR_inline 3 example_state).

Definition example_one_catch : IRState :=
  Eval vm_compute in result_state (addCatch toIR_inline (example_catch_stmt 11 21) 1 example_start).

(** Inside one try-catch, the shared slot allocated as value 0. *)
Definition example_slot : IRState :=
  set_nextValue 1
    (set_landingPadInfo
       (mkIRLandingPad [example_catch 7 2] [] [0] [0]
          (Some (Inst 0 (LLPtr (DtoType (Tclass object)))))) example_state).

Definition example_slot_pad : IRState :=
  Eval vm_compute in result_state (constructLandingPad toIR_inline 3 example_slot).

Definition example_slot_ops : list Op :=
  [OpAddCatch (example_catch_stmt 11 21) 1; OpPush 3; OpAddFinally (Stmt 5); OpPop].

Definition example_slot_after : IRState :=
  Eval vm_compute in result_state (steps toIR_inline example_slot_ops example_slot).

(** ** The memory package ([dmd/tk/mem.c])

    The file is read as the preprocessor leaves it with [MEM_DEBUG],
    [MEM_NONE] and [MEM_NOMEMCOUNT] at 0, for GCC or Clang and a system that
    is not Windows, with a [size_t] of 64 bits, an [int] of 32 and [assert]
    live.  A pointer is its address, [NULL] is 0. *)

Module Mem.

Local Open Scope Z_scope.

Definition NULL : Z := 0.

(** Conversion to [size_t]: unsigned arithmetic wraps. *)
Definition size_t (z : Z) : Z := z mod 2 ^ 64.

Definition INT_MAX : Z := 2147483647.
Definition INT_MIN : Z := -2147483648.

(** [enum { MEM_ABORTMSG, MEM_ABORT, MEM_RETNULL, MEM_CALLFP, MEM_RETRY }] *)
Definition MEM_ABORTMSG : Z := 0.
Definition MEM_ABORT : Z := 1.
Definition MEM_RETNULL : Z := 2.
Definition MEM_CALLFP : Z := 3.
Definition MEM_RETRY : Z := 4.

(** An out-of-memory handler, a function without arguments that returns an
    [int]: what it answers each time it is called, by the number of calls
    made before.  A handler is taken to leave the variables of this package
    alone. *)
Definition Handler : Type := nat → Z.

(** What is written to [stderr]. *)
Inductive Message : Type :=
| out_of_memory                    (* "Fatal error: out of memory\n" *)
| unfreed_items (n : Z)            (* "%d unfreed items\n" *)
| unfreed_s_items (n : Z).         (* "%d unfreed s items\n" *)

(** The variables of the package. *)
Record Globals : Type := mkGlobals {
  mem_inited : Z;
  mem_behavior : Z;
  oom_fp : option Handler;
  mem_count : Z;
  mem_scount : Z;
  heap : Z;
  heapleft : Z;
}.

(** The C library and the process: the allocator answers the k-th request
    it gets, for the size asked, with an address or [NULL]; [live] lists the
    blocks handed out and not freed, newest first, with their sizes. *)
Record Libc : Type := mkLibc {
  allocator : nat → Z → Z;
  requests : nat;
  live : list (Z * Z);
  memory : gmap Z Z;
  handler_calls : nat;
  ferr : list Message;
}.

Record World : Type := mkWorld {
  vars : Globals;
  libc : Libc;
}.

(** At program start: statics are zero, [mem_behavior] is [MEM_ABORTMSG]. *)
Definition Globals_init : Globals := mkGlobals 0 MEM_ABORTMSG None 0 0 NULL 0.

Definition set_mem_inited (v : Z) (g : Globals) : Globals :=
  mkGlobals v (mem_behavior g) (oom_fp g) (mem_count g) (mem_scount g) (heap g) (heapleft g).
Definition set_mem_behavior (v : Z) (g : Globals) : Globals :=
  mkGlobals (mem_inited g) v (oom_fp g) (mem_count g) (mem_scount g) (heap g) (heapleft g).
Definition set_oom_fp (v : option Handler) (g : Globals) : Globals :=
  mkGlobals (mem_inited g) (mem_behavior g) v (mem_count g) (mem_scount g) (heap g) (heapleft g).
Definition set_mem_count (v : Z) (g : Globals) : Globals :=
  mkGlobals (mem_inited g) (mem_behavior g) (oom_fp g) v (mem_scount g) (heap g) (heapleft g).
Definition set_mem_scount (v : Z) (g : Globals) : Globals :=
  mkGlobals (mem_inited g) (mem_behavior g) (oom_fp g) (mem_count g) v (heap g) (heapleft g).
Definition set_heap (v : Z) (g : Globals) : Globals :=
  mkGlobals (mem_inited g) (mem_behavior g) (oom_fp g) (mem_count g) (mem_scount g) v (heapleft g).
Definition set_heapleft (v : Z) (g : Globals) : Globals :=
  mkGlobals (mem_inited g) (mem_behavior g) (oom_fp g) (mem_count g) (mem_scount g) (heap g) v.

Definition set_requests (v : nat) (l : Libc) : Libc :=
  mkLibc (allocator l) v (live l) (memory l) (handler_calls l) (ferr l).
Definition set_live (v : list (Z * Z)) (l : Libc) : Libc :=
  mkLibc (allocator l) (requests l) v (memory l) (handler_calls l) (ferr l).
Definition set_memory (v : gmap Z Z) (l : Libc) : Libc :=
  mkLibc (allocator l) (requests l) (live l) v (handler_calls l) (ferr l).
Definition set_handler_calls (v : nat) (l : Libc) : Libc :=
  mkLibc (allocator l) (requests l) (live l) (memory l) v (ferr l).
Definition set_ferr (v : list Message) (l : Libc) : Libc :=
  mkLibc (allocator l) (requests l) (live l) (memory l) (handler_calls l) v.

Definition on_vars (f : Globals → Globals) (w : World) : World := mkWorld (f (vars w)) (libc w).
Definition on_libc (f : Libc → Libc) (w : World) : World := mkWorld (vars w) (f (libc w)).

(** *** Outcomes

    A call returns, or the process exits ([exit(EXIT_FAILURE)]), or an
    [assert] fails, or the behaviour is undefined; a loop that has not come
    to an end when the fuel is used up is cut off. *)
Inductive Result (A : Type) : Type :=
| Ret (a : A) (w : World)
| Exited (w : World)
| AssertionFailed (cond : string) (w : World)
| Undefined
| OutOfFuel.
Arguments Ret {A} a w.
Arguments Exited {A} w.
Arguments AssertionFailed {A} cond w.
Arguments Undefined {A}.
Arguments OutOfFuel {A}.

Definition M (A : Type) : Type := World → Result A.

Global Instance M_ret : MRet M := λ A a w, Ret a w.
Global Instance M_bind : MBind M := λ A B f m w,
  match m w with
  | Ret a w' => f a w'
  | Exited w' => Exited w'
  | AssertionFailed cond w' => AssertionFailed cond w'
  | Undefined => Undefined
  | OutOfFuel => OutOfFuel
  end.

Definition ret {A : Type} (a : A) : M A := mret a.
Definition skip : M unit := ret tt.
Definition gets {A : Type} (f : World → A) : M A := λ w, Ret (f w) w.
Definition modify (f : World → World) : M unit := λ w, Ret tt (f w).
Definition assert (b : bool) (cond : string) : M unit :=
  λ w, if b then Ret tt w else AssertionFailed cond w.
Definition exit {A : Type} : M A := λ w, Exited w.
Definition undefined {A : Type} : M A := λ _, Undefined.
Definition out_of_fuel {A : Type} : M A := λ _, OutOfFuel.

(** [PRINT]: [fprintf(stderr, ...)] *)
Definition PRINT (m : Message) : M unit :=
  modify (on_libc (λ l, set_ferr (ferr l ++ [m]) l)).

(** *** The C library *)

(** [memset(p, c, n)] and [memcpy(dst, src, n)] on the flat memory; a byte
    that was never written has no value, and copying it gives a byte without
    a value. *)
Fixpoint memset_from (p c : Z) (n : nat) (m : gmap Z Z) : gmap Z Z :=
  match n with
  | O => m
  | S n' => <[p := c]> (memset_from (p + 1) c n' m)
  end.

Definition memset (p c n : Z) : M unit :=
  modify (on_libc (λ l, set_memory (memset_from p c (Z.to_nat n) (memory l)) l)).

Fixpoint memcpy_from (src : gmap Z Z) (dst_p src_p : Z) (n : nat) (m : gmap Z Z) : gmap Z Z :=
  match n with
  | O => m
  | S n' =>
      let m' := memcpy_from src (dst_p + 1) (src_p + 1) n' m in
      match src !! src_p with
      | Some b => <[dst_p := b]> m'
      | None => delete dst_p m'
      end
  end.

(** The areas of a [memcpy] must not overlap; the callers here copy into a
    block just obtained. *)
Definition memcpy (dst_p src_p n : Z) : M unit :=
  modify (on_libc (λ l,
    set_memory (memcpy_from (memory l) dst_p src_p (Z.to_nat n) (memory l)) l)).

(** [strlen]: the bytes before the first 0 byte; reading a byte without a
    value is undefined. *)
Fixpoint strlen (fuel : nat) (s : Z) : M Z :=
  match fuel with
  | O => out_of_fuel
  | S fuel' =>
      b ← gets (λ w, memory (libc w) !! s);
      match b with
      | None => undefined
      | Some 0 => ret 0
      | Some _ => n ← strlen fuel' (s + 1); ret (n + 1)
      end
  end.

(** One request to the allocator. *)
Definition request (size : Z) : M Z :=
  λ w, Ret (allocator (libc w) (requests (libc w)) size)
           (on_libc (λ l, set_requests (S (requests l)) l) w).

Fixpoint block_size (p : Z) (l : list (Z * Z)) : option Z :=
  match l with
  | [] => None
  | b :: rest => if decide (fst b = p) then Some (snd b) else block_size p rest
  end.

Fixpoint remove_block (p : Z) (l : list (Z * Z)) : list (Z * Z) :=
  match l with
  | [] => []
  | b :: rest => if decide (fst b = p) then rest else b :: remove_block p rest
  end.

Definition malloc (size : Z) : M Z :=
  p ← request size;
  if decide (p = NULL) then ret NULL
  else modify (on_libc (λ l, set_live ((p, size) :: live l) l));; ret p.

(** [calloc(nmemb, size)]: the block is zeroed; a product that does not fit
    [size_t] is refused. *)
Definition calloc (nmemb size : Z) : M Z :=
  if decide (2 ^ 64 ≤ nmemb * size) then ret NULL
  else
    p ← request (nmemb * size);
    if decide (p = NULL) then ret NULL
    else
      modify (on_libc (λ l, set_live ((p, nmemb * size) :: live l) l));;
      memset p 0 (nmemb * size);;
      ret p.

(** [free]: of [NULL] nothing; of a block that is not live, undefined. *)
Definition free (ptr : Z) : M unit :=
  if decide (ptr = NULL) then skip
  else
    l ← gets (λ w, live (libc w));
    match block_size ptr l with
    | None => undefined
    | Some _ => modify (on_libc (λ l, set_live (remove_block ptr (live l)) l))
    end.

(** [realloc(ptr, size)] for a live block and a size that is not 0, which is
    how this package calls it: on success the block has moved (or stayed)
    and keeps its first bytes, on failure it is as it was. *)
Definition realloc (ptr size : Z) : M Z :=
  if decide (ptr = NULL) then malloc size
  else if decide (size = 0) then free ptr;; ret NULL
  else
    l ← gets (λ w, live (libc w));
    match block_size ptr l with
    | None => undefined
    | Some old_size =>
        p ← request size;
        if decide (p = NULL) then ret NULL
        else
          modify (on_libc (λ l, set_live ((p, size) :: remove_block ptr (live l)) l));;
          (if decide (p = ptr) then skip else memcpy p ptr (Z.min old_size size));;
          ret p
    end.

(** A call of the handler [*oom_fp]. *)
Definition call_handler (fp : Handler) : M Z :=
  λ w, Ret (fp (handler_calls (libc w)))
           (on_libc (λ l, set_handler_calls (S (handler_calls l)) l) w).

(** *** The package *)

(** [int] increment and decrement: overflow is undefined. *)
Definition incr (z : Z) : M Z := if decide (z = INT_MAX) then undefined else ret (z + 1).
Definition decr (z : Z) : M Z := if decide (z = INT_MIN) then undefined else ret (z - 1).

(** [mem_setexception(flag, ...)]: [ap] holds the optional arguments. *)
Definition mem_setexception (flag : Z) (ap : list (option Handler)) : M unit :=
  modify (on_vars (set_mem_behavior flag));;
  b ← gets (λ w, mem_behavior (vars w));
  if decide (b = MEM_CALLFP) then
    match ap with
    | fp :: _ => modify (on_vars (set_oom_fp fp))
    | [] => undefined
    end
  else modify (on_vars (set_oom_fp None)).

(** The [while (1) switch (behavior)] of [mem_exception]. *)
Fixpoint mem_exception_loop (fuel : nat) (behavior : Z) : M Z :=
  match fuel with
  | O => out_of_fuel
  | S fuel' =>
      if decide (behavior = MEM_ABORTMSG) then PRINT out_of_memory;; exit
      else if decide (behavior = MEM_ABORT) then exit
      else if decide (behavior = MEM_CALLFP) then
        fp ← gets (λ w, oom_fp (vars w));
        assert (bool_decide (is_Some fp)) "oom_fp";;
        match fp with
        | Some f => behavior' ← call_handler f; mem_exception_loop fuel' behavior'
        | None => undefined
        end
      else if decide (behavior = MEM_RETNULL) then ret 0
      else if decide (behavior = MEM_RETRY) then ret 1
      else assert false "0";; mem_exception_loop fuel' behavior
  end.

(** [mem_exception]: 1 to try again, 0 to give up. *)
Definition mem_exception (fuel : nat) : M Z :=
  behavior ← gets (λ w, mem_behavior (vars w));
  mem_exception_loop fuel behavior.

Definition count_up : M unit :=
  c ← gets (λ w, mem_count (vars w));
  c' ← incr c;
  modify (on_vars (set_mem_count c')).

(** The [while (1)] of [mem_malloc] and [mem_calloc]. *)
Fixpoint alloc_loop (alloc : M Z) (fuel : nat) : M Z :=
  match fuel with
  | O => out_of_fuel
  | S fuel' =>
      p ← alloc;
      if decide (p = NULL) then
        again ← mem_exception fuel';
        if decide (again ≠ 0) then alloc_loop alloc fuel' else ret p
      else
        count_up;; ret p
  end.

Definition mem_malloc (fuel : nat) (numbytes : Z) : M Z :=
  if decide (numbytes = 0) then ret NULL
  else alloc_loop (malloc numbytes) fuel.

Definition mem_calloc (fuel : nat) (numbytes : Z) : M Z :=
  if decide (numbytes = 0) then ret NULL
  else alloc_loop (calloc numbytes 1) fuel.

Definition mem_free (ptr : Z) : M unit :=
  if decide (ptr ≠ NULL) then
    c ← gets (λ w, mem_count (vars w));
    assert (bool_decide (c ≠ 0)) "mem_count != 0";;
    c' ← decr c;
    modify (on_vars (set_mem_count c'));;
    free ptr
  else skip.

(** The [do ... while (p == NULL && mem_exception())] of [mem_realloc]. *)
Fixpoint realloc_loop (fuel : nat) (oldmem_ptr newnumbytes : Z) : M Z :=
  match fuel with
  | O => out_of_fuel
  | S fuel' =>
      p ← realloc oldmem_ptr newnumbytes;
      if decide (p = NULL) then
        again ← mem_exception fuel';
        if decide (again ≠ 0) then realloc_loop fuel' oldmem_ptr newnumbytes else ret p
      else ret p
  end.

Definition mem_realloc (fuel : nat) (oldmem_ptr newnumbytes : Z) : M Z :=
  if decide (oldmem_ptr = NULL) then mem_malloc fuel newnumbytes
  else if decide (newnumbytes = 0) then mem_free oldmem_ptr;; ret NULL
  else realloc_loop fuel oldmem_ptr newnumbytes.

(** [mem_strdup]; [s] is the address of a string, or [NULL]. *)
Definition mem_strdup (fuel : nat) (s : Z) : M Z :=
  if decide (s ≠ NULL) then
    n ← strlen fuel s;
    let len := size_t (n + 1) in
    p ← mem_malloc fuel len;
    if decide (p ≠ NULL) then memcpy p s len;; ret p
    else ret NULL
  else ret NULL.

(** [(numbytes + 0xF) & ~0xF] in [size_t]. *)
Definition align16 (numbytes : Z) : Z :=
  Z.land (size_t (numbytes + 0xF)) (size_t (Z.lnot 0xF)).

(** The label [L2] of [mem_fmalloc]: the block is cut off the pool. *)
Definition take_from_heap (numbytes : Z) : M Z :=
  p ← gets (λ w, heap (vars w));
  modify (on_vars (λ g, set_heap (size_t (heap g + numbytes)) g));;
  modify (on_vars (λ g, set_heapleft (size_t (heapleft g - numbytes)) g));;
  ret p.

(** The label [L1]: a new chunk is asked for until there is one or
    [mem_exception] gives up. *)
Fixpoint refill (fuel : nat) (numbytes : Z) : M Z :=
  match fuel with
  | O => out_of_fuel
  | S fuel' =>
      hl ← gets (λ w, heapleft (vars w));
      h ← malloc hl;
      modify (on_vars (set_heap h));;
      if decide (h = NULL) then
        again ← mem_exception fuel';
        if decide (again ≠ 0) then refill fuel' numbytes else ret NULL
      else take_from_heap numbytes
  end.

Definition mem_fmalloc (fuel : nat) (numbytes : Z) : M Z :=
  let numbytes := align16 numbytes in
  if decide (numbytes = 0) then ret NULL
  else
    hl ← gets (λ w, heapleft (vars w));
    if decide (numbytes ≤ hl) then take_from_heap numbytes
    else
      modify (on_vars (set_heapleft (size_t (numbytes + 0x3C00))));;
      hl ← gets (λ w, heapleft (vars w));
      (if decide (16372 ≤ hl) then modify (on_vars (set_heapleft numbytes)) else skip);;
      refill fuel numbytes.

Definition mem_fcalloc (fuel : nat) (numbytes : Z) : M Z :=
  p ← mem_fmalloc fuel numbytes;
  if decide (p ≠ NULL) then memset p 0 numbytes;; ret p else ret p.

Definition mem_fstrdup (fuel : nat) (s : Z) : M Z :=
  if decide (s ≠ NULL) then
    n ← strlen fuel s;
    let len := size_t (n + 1) in
    p ← mem_fmalloc fuel len;
    if decide (p ≠ NULL) then memcpy p s len;; ret p
    else ret NULL
  else ret NULL.

Definition mem_init : M unit :=
  i ← gets (λ w, mem_inited (vars w));
  (if decide (i = 0) then
     modify (on_vars (set_mem_count 0));;
     modify (on_vars (set_mem_scount 0));;
     modify (on_vars (set_oom_fp None));;
     modify (on_vars (set_mem_behavior MEM_ABORTMSG))
   else skip);;
  i ← gets (λ w, mem_inited (vars w));
  i' ← incr i;
  modify (on_vars (set_mem_inited i')).

Definition mem_term : M unit :=
  i ← gets (λ w, mem_inited (vars w));
  (if decide (i ≠ 0) then
     c ← gets (λ w, mem_count (vars w));
     (if decide (c ≠ 0) then PRINT (unfreed_items c) else skip);;
     sc ← gets (λ w, mem_scount (vars w));
     (if decide (sc ≠ 0) then PRINT (unfreed_s_items sc) else skip);;
     assert (bool_decide (c = 0 ∧ sc = 0)) "mem_count == 0 && mem_scount == 0"
   else skip);;
  modify (on_vars (set_mem_inited 0)).

(** *** Sequences of calls

    The calls a client makes on the counted allocator, with their
    arguments; the results are dropped. *)
Inductive MemCall : Type :=
| call_malloc (numbytes : Z)
| call_calloc (numbytes : Z)
| call_realloc (oldmem_ptr newnumbytes : Z)
| call_free (ptr : Z)
| call_strdup (s : Z).

Definition do_call (fuel : nat) (c : MemCall) : M unit :=
  match c with
  | call_malloc n => mem_malloc fuel n;; skip
  | call_calloc n => mem_calloc fuel n;; skip
  | call_realloc p n => mem_realloc fuel p n;; skip
  | call_free p => mem_free p
  | call_strdup s => mem_strdup fuel s;; skip
  end.

Fixpoint do_calls (fuel : nat) (cs : list MemCall) : M unit :=
  match cs with
  | [] => skip
  | c :: rest => do_call fuel c;; do_calls fuel rest
  end.

(** *** Reading the world *)

(** Two worlds that differ at most in the number of calls of the handler. *)
Definition handler_ran (w w' : World) : Prop :=
  vars w' = vars w ∧
  ∃ k : nat, libc w' = set_handler_calls (handler_calls (libc w) + k)%nat (libc w).

(** Two worlds that differ at most in how often the allocator and the
    handler have been asked. *)
Definition quiet (w w' : World) : Prop :=
  vars w' = vars w ∧ live (libc w') = live (libc w) ∧ memory (libc w') = memory (libc w) ∧
  ferr (libc w') = ferr (libc w) ∧ allocator (libc w') = allocator (libc w).

(** [mem_count] is the number of live blocks. *)
Definition counted (w : World) : Prop :=
  mem_count (vars w) = Z.of_nat (length (live (libc w))).

(** The variables other than [mem_count] are the same. *)
Definition same_config (w w' : World) : Prop :=
  set_mem_count 0 (vars w') = set_mem_count 0 (vars w).

(** The allocator refuses every request from the [k]-th on. *)
Definition exhausted_from (k : nat) (w : World) : Prop :=
  ∀ j sz, (k ≤ j)%nat → allocator (libc w) j sz = NULL.

Definition after_requests (k : nat) (w : World) : World :=
  on_libc (λ l, set_requests (requests l + k)%nat l) w.

(** The chunk [mem_fmalloc] asks for when the pool cannot serve
    [numbytes]. *)
Definition chunk_size (numbytes : Z) : Z :=
  if decide (16372 ≤ size_t (numbytes + 0x3C00)) then numbytes else size_t (numbytes + 0x3C00).

(** The variables once [numbytes] have been cut off the pool. *)
Definition cut (numbytes : Z) (g : Globals) : Globals :=
  set_heapleft (size_t (heapleft g - numbytes)) (set_heap (size_t (heap g + numbytes)) g).

(** Two sets of variables that differ at most in the pool. *)
Definition same_but_pool (g g' : Globals) : Prop :=
  set_heap 0 (set_heapleft 0 g') = set_heap 0 (set_heapleft 0 g).

(** The pool is empty, or it is the end of a live chunk. *)
Definition pool_ok (w : World) : Prop :=
  heapleft (vars w) = 0 ∨
  ∃ base size,
    (base, size) ∈ live (libc w) ∧ 0 ≤ base ∧ base ≤ heap (vars w) ∧
    0 ≤ heapleft (vars w) ∧
    heap (vars w) + heapleft (vars w) = base + size ∧ base + size < 2 ^ 64.

(** The blocks of the allocator lie inside the address space. *)
Definition fits (w : World) : Prop :=
  ∀ k sz, allocator (libc w) k sz ≠ NULL →
          0 < allocator (libc w) k sz ∧ allocator (libc w) k sz + sz < 2 ^ 64.

(** The bytes [bytes], none of them 0, stand at [s] and a 0 byte follows. *)
Fixpoint cstring (m : gmap Z Z) (s : Z) (bytes : list Z) : Prop :=
  match bytes with
  | [] => m !! s = Some 0
  | b :: rest => b ≠ 0 ∧ m !! s = Some b ∧ cstring m (s + 1) rest
  end.

(** [mem_init] called [k] times over. *)
Fixpoint mem_init_times (k : nat) : M unit :=
  match k with
  | O => skip
  | S k' => mem_init;; mem_init_times k'
  end.

(** *** Example worlds *)

Definition result_world {A : Type} (r : Result A) (d : World) : World :=
  match r with
  | Ret _ w | Exited w | AssertionFailed _ w => w
  | _ => d
  end.

(** An allocator that serves requests below one megabyte, each from a
    megabyte of its own. *)
Definition example_allocator : nat → Z → Z :=
  λ k sz, if sz <? 1048576 then 4096 + 1048576 * Z.of_nat (k mod 1000) else NULL.

Definition example_world : World :=
  mkWorld Globals_init (mkLibc example_allocator 0 [] ∅ 0 []).

(** A world whose allocator has nothing to give. *)
Definition example_exhausted (behavior : Z) : World :=
  mkWorld (set_mem_behavior behavior Globals_init) (mkLibc (λ _ _, NULL) 0 [] ∅ 0 []).

(** A handler that asks to be called again twice and then gives up. *)
Definition example_handler : Handler :=
  λ k, if (k <? 2)%nat then MEM_CALLFP else MEM_RETNULL.

Definition example_callfp : World :=
  mkWorld (set_oom_fp (Some example_handler) (set_mem_behavior MEM_CALLFP Globals_init))
    (mkLibc (λ _ _, NULL) 0 [] ∅ 0 []).

Definition example_after_malloc : World :=
  mkWorld (set_mem_count 1 Globals_init) (mkLibc example_allocator 1 [(4096, 24)] ∅ 0 []).

(** A block of 24 bytes, a zeroed block of 8 bytes, the first block moved
    and grown to 40 bytes, the second block freed. *)
Definition example_calls : list MemCall :=
  [call_malloc 24; call_calloc 8; call_realloc 4096 40; call_free 1052672].

Definition example_after_calls : World :=
  mkWorld (set_mem_count 1 Globals_init)
    (mkLibc example_allocator 3 [(2101248, 40)] (memset_from 1052672 0 8 ∅) 0 []).

(** The same calls after [mem_init]. *)
Definition example_run : World :=
  mkWorld (set_mem_inited 1 (set_mem_count 1 Globals_init)) (libc example_after_calls).

Definition example_after_fmalloc : World :=
  mkWorld (set_heapleft 15360 (set_heap 4128 Globals_init))
    (mkLibc example_allocator 1 [(4096, 15392)] ∅ 0 []).

Definition example_after_fcalloc : World :=
  on_libc (set_memory (memset_from 4096 0 24 ∅)) example_after_fmalloc.

(** The string of the bytes 104 and 105 stands at address 100. *)
Definition example_string : gmap Z Z := <[100 := 104]> (<[101 := 105]> (<[102 := 0]> ∅)).

Definition example_string_world : World := on_libc (set_memory example_string) example_world.

End Mem.

(** ** Reasoning about generator steps *)

Lemma bind_Ok {A B : Type} (m : Gen A) (f : A → Gen B) (st : IRState) (r : B * IRState) :
  (m ≫= f) st = Ok r ↔ ∃ a st1, m st = Ok (a, st1) ∧ f a st1 = Ok r.
Proof.
  unfold mbind, Gen_bind. split.
  - destruct (m st) as [[a st1]| |]; try discriminate. eauto.
  - intros (a & st1 & -> & H). exact H.
Qed.

Lemma ret_Ok {A : Type} (a b : A) (st st1 : IRState) :
  ret a st = Ok (b, st1) ↔ b = a ∧ st1 = st.
Proof. unfold ret, mret, Gen_ret. split; [intros H; injection H as <- <- | intros [-> ->]]; done. Qed.

Lemma skip_Ok (u : unit) (st st1 : IRState) : skip st = Ok (u, st1) ↔ st1 = st.
Proof. unfold skip. rewrite ret_Ok. destruct u. split; [intros [_ ->] | intros ->]; done. Qed.

Lemma gets_Ok {A : Type} (f : IRState → A) (b : A) (st st1 : IRState) :
  gets f st = Ok (b, st1) ↔ b = f st ∧ st1 = st.
Proof. unfold gets. split; [intros H; injection H as <- <- | intros [-> ->]]; done. Qed.

Lemma modify_Ok (f : IRState → IRState) (u : unit) (st st1 : IRState) :
  modify f st = Ok (u, st1) ↔ st1 = f st.
Proof. unfold modify. destruct u. split; [intros H; injection H as <- | intros ->]; done. Qed.

Lemma assert_Ok (b : bool) (msg : string) (u : unit) (st st1 : IRState) :
  assert b msg st = Ok (u, st1) ↔ b = true ∧ st1 = st.
Proof.
  unfold assert. destruct u, b; split.
  - intros H; injection H as <-; done.
  - by intros [_ ->].
  - discriminate.
  - by intros [[=] _].
Qed.

Lemma deref_Ok {A : Type} (p : option A) (a : A) (st st1 : IRState) :
  deref p st = Ok (a, st1) ↔ p = Some a ∧ st1 = st.
Proof.
  unfold deref, undefined. destruct p as [x|].
  - rewrite ret_Ok. split; [intros [-> ->] | intros [E ->]; injection E as ->]; done.
  - split; [discriminate | intros [E _]; discriminate].
Qed.

Lemma undefined_Ok {A : Type} (r : A * IRState) (st : IRState) :
  @undefined A st = Ok r ↔ False.
Proof. unfold undefined. split; [discriminate | done]. Qed.

(** Splits a successful run of a sequence of steps into its steps. *)
Ltac gen_inv :=
  repeat match goal with
  | H : (_ ≫= _) _ = Ok _ |- _ =>
      apply bind_Ok in H; destruct H as (? & ? & ? & H)
  | H : ret _ _ = Ok _ |- _ => apply ret_Ok in H; destruct H as [? ?]; subst
  | H : skip _ = Ok _ |- _ => apply skip_Ok in H; subst
  | H : gets _ _ = Ok _ |- _ => apply gets_Ok in H; destruct H as [? ?]; subst
  | H : modify _ _ = Ok _ |- _ => apply modify_Ok in H; subst
  | H : assert _ _ _ = Ok _ |- _ => apply assert_Ok in H; destruct H as [? ?]; subst
  | H : deref _ _ = Ok _ |- _ => apply deref_Ok in H; destruct H as [? ?]; subst
  | H : undefined _ = Ok _ |- _ => apply undefined_Ok in H; destruct H
  | H : context [match ?x with (_, _) => _ end] |- _ => is_var x; destruct x
  | u : unit |- _ => destruct u
  end.

Lemma resize_le {A : Type} (d : A) (n : nat) (l : list A) :
  n ≤ length l → resize d n l = take n l.
Proof.
  intros H. unfold resize. replace (n - length l) with 0 by lia.
  simpl. by rewrite app_nil_r.
Qed.

Lemma resize_app_length {A : Type} (d : A) (l u : list A) :
  resize d (length l) (l ++ u) = l.
Proof.
  rewrite resize_le by (rewrite length_app; lia).
  by rewrite take_app_length.
Qed.

Lemma length_resize {A : Type} (d : A) (n : nat) (l : list A) :
  length (resize d n l) = n.
Proof.
  unfold resize. rewrite length_app, length_take, length_replicate. lia.
Qed.

(** The first loop reads the handler list and leaves the state alone. *)
Lemma selectorLoop_state l acc r st st' :
  selectorLoop l acc st = Ok (r, st') → st' = st.
Proof.
  revert acc st. induction l as [|it rest IH]; intros [[args hf] hc] st H; simpl in H.
  - by gen_inv.
  - destruct (finallyBody it); [eauto|]. gen_inv. eauto.
Qed.

Lemma CreateCall_Ok fn args v st st' :
  CreateCall fn args st = Ok (v, st') ↔
  v = Inst (nextValue st) (returnType fn) ∧
  st' = emit (Call (nextValue st) fn args) (set_nextValue (S (nextValue st)) st).
Proof. unfold CreateCall. split; [intros H; injection H as <- <- | intros [-> ->]]; done. Qed.

Lemma CreateICmpEQ_Ok a b v st st' :
  CreateICmpEQ a b st = Ok (v, st') ↔
  v = Inst (nextValue st) LLInt1 ∧
  st' = emit (ICmpEQ (nextValue st) a b) (set_nextValue (S (nextValue st)) st).
Proof. unfold CreateICmpEQ. split; [intros H; injection H as <- <- | intros [-> ->]]; done. Qed.

Lemma BasicBlock_Create_Ok b st st' :
  BasicBlock_Create st = Ok (b, st') ↔
  b = nextBB st ∧
  st' = set_nextBB (S (nextBB st)) (set_blocks (<[nextBB st := []]> (blocks st)) st).
Proof. unfold BasicBlock_Create. split; [intros H; injection H as <- <- | intros [-> ->]]; done. Qed.

Ltac prim_inv :=
  repeat (gen_inv; match goal with
  | H : CreateCall _ _ _ = Ok _ |- _ => apply CreateCall_Ok in H; destruct H as [? ?]; subst
  | H : CreateICmpEQ _ _ _ = Ok _ |- _ => apply CreateICmpEQ_Ok in H; destruct H as [? ?]; subst
  | H : BasicBlock_Create _ = Ok _ |- _ => apply BasicBlock_Create_Ok in H; destruct H as [? ?]; subst
  | H : CreateStore _ _ _ = Ok _ |- _ => unfold CreateStore in H
  | H : DtoStore _ _ _ = Ok _ |- _ => unfold DtoStore in H
  | H : CreateCondBr _ _ _ _ = Ok _ |- _ => unfold CreateCondBr in H
  | H : CreateBr _ _ = Ok _ |- _ => unfold CreateBr in H
  | H : CreateUnreachable _ = Ok _ |- _ => unfold CreateUnreachable in H
  | H : toIR_inline _ _ = Ok _ |- _ => unfold toIR_inline in H
  end); gen_inv.

Lemma selectorLoop_indep l acc r st st' st2 :
  selectorLoop l acc st = Ok (r, st') → selectorLoop l acc st2 = Ok (r, st2).
Proof.
  revert acc. induction l as [|it rest IH]; intros [[args hf] hc] H; simpl in *.
  - gen_inv. done.
  - destruct (finallyBody it); [eauto|]. gen_inv.
    apply bind_Ok. eexists tt, st2. split; [by apply assert_Ok|].
    apply bind_Ok. eexists _, st2. split; [by apply deref_Ok|].
    apply bind_Ok. eexists tt, st2. split; [by apply assert_Ok|].
    apply bind_Ok. eexists _, st2. split; [by apply deref_Ok|].
    eauto.
Qed.

Lemma constructLandingPad_inv toIR inBB st st' :
  constructLandingPad toIR inBB st = Ok (tt, st') →
  ∃ classinfos hasFinally hasCatch stw,
    selectorLoop (infos (landingPadInfo st)) ([], false, false) st
      = Ok ((classinfos, hasFinally, hasCatch), st) ∧
    walk toIR (rev (infos (landingPadInfo st))) (Inst (S (nextValue st)) LLInt32)
      (pad_header inBB classinfos hasFinally hasCatch st) = Ok (tt, stw) ∧
    st' = pad_finish st stw.
Proof.
  unfold constructLandingPad. intros H. prim_inv.
  match goal with H : selectorLoop _ _ _ = Ok _ |- _ =>
    pose proof (selectorLoop_state _ _ _ _ _ H) as Hst; subst; rename H into Hsel end.
  simpl in Hsel.
  match goal with H : walk _ _ _ _ = Ok _ |- _ => rename H into Hw end.
  apply selectorLoop_indep with (st2 := st) in Hsel.
  eexists _, _, _, _. split; [exact Hsel|].
  unfold pad_header, pad_finish.
  match goal with H : match catch_var _ with _ => _ end _ = Ok _ |- _ =>
    simpl in H; destruct (catch_var (landingPadInfo st));
      [match goal with b : bool |- _ => destruct b end|]; prim_inv end;
    (split; [exact Hw | reflexivity]).
Qed.

(** *** The scope stack under the primitives *)

Lemma same_stack_refl st : same_stack st st.
Proof. by unfold same_stack. Qed.

Lemma same_stack_trans st1 st2 st3 :
  same_stack st1 st2 → same_stack st2 st3 → same_stack st1 st3.
Proof. unfold same_stack. intros (-> & -> & ->) (-> & -> & ->). done. Qed.

Lemma DtoAlloca_Ok t name v st st' :
  DtoAlloca t name st = Ok (v, st') ↔
  v = Inst (nextValue st) (LLPtr (DtoType t)) ∧
  st' = set_allocas (allocas st ++ [(nextValue st, DtoType t, name)])
          (set_nextValue (S (nextValue st)) st).
Proof. unfold DtoAlloca. split; [intros H; injection H as <- <- | intros [-> ->]]; done. Qed.

Lemma DtoLoad_Ok ptr v st st' :
  DtoLoad ptr st = Ok (v, st') ↔
  v = Inst (nextValue st) (pointeeType (typeOf ptr)) ∧
  st' = emit (Load (nextValue st) ptr) (set_nextValue (S (nextValue st)) st).
Proof. unfold DtoLoad. split; [intros H; injection H as <- <- | intros [-> ->]]; done. Qed.

Lemma getExceptionStorage_Ok v st st' :
  getExceptionStorage st = Ok (v, st') ↔
  match catch_var (landingPadInfo st) with
  | Some cv => v = cv ∧ st' = st
  | None =>
      v = Inst (nextValue st) (LLPtr (DtoType (Tclass object))) ∧
      st' = pad_update (set_catch_var (Some v))
              (set_allocas (allocas st ++ [(nextValue st, DtoType (Tclass object), "catchvar")])
                 (set_nextValue (S (nextValue st)) st))
  end.
Proof.
  unfold getExceptionStorage. split.
  - intros H. gen_inv. destruct (catch_var (landingPadInfo st)); gen_inv; [done|].
    match goal with H : DtoAlloca _ _ _ = Ok _ |- _ => apply DtoAlloca_Ok in H as [-> ->] end.
    done.
  - intros H. apply bind_Ok. eexists _, st. split; [by apply gets_Ok|].
    destruct (catch_var (landingPadInfo st)).
    + destruct H as [-> ->]. by apply ret_Ok.
    + destruct H as [-> ->]. apply bind_Ok. eexists _, _. split; [by apply DtoAlloca_Ok|].
      apply bind_Ok. eexists tt, _. split; [by apply modify_Ok|]. by apply ret_Ok.
Qed.

Lemma DtoDeclarationExp_Ok vd st st' :
  DtoDeclarationExp vd st = Ok (tt, st') ↔
  match irLocal st !! vd_ident vd with
  | Some _ => st' = st
  | None =>
      st' = set_irLocal
              (<[vd_ident vd := Inst (nextValue st) (LLPtr (DtoType (vd_type vd)))]> (irLocal st))
              (set_allocas (allocas st ++ [(nextValue st, DtoType (vd_type vd), "var")])
                 (set_nextValue (S (nextValue st)) st))
  end.
Proof.
  unfold DtoDeclarationExp. split.
  - intros H. gen_inv. destruct (irLocal st !! vd_ident vd); gen_inv; [done|].
    match goal with H : DtoAlloca _ _ _ = Ok _ |- _ => apply DtoAlloca_Ok in H as [-> ->] end.
    done.
  - intros H. apply bind_Ok. eexists _, st. split; [by apply gets_Ok|].
    destruct (irLocal st !! vd_ident vd).
    + subst. by apply skip_Ok.
    + subst. apply bind_Ok. eexists _, _. split; [by apply DtoAlloca_Ok|].
      by apply modify_Ok.
Qed.

Lemma getExceptionStorage_stack v st st' :
  getExceptionStorage st = Ok (v, st') → same_stack st st'.
Proof.
  intros H. apply getExceptionStorage_Ok in H.
  destruct (catch_var (landingPadInfo st)); destruct H as [-> ->]; done.
Qed.

Lemma DtoDeclarationExp_stack vd st st' :
  DtoDeclarationExp vd st = Ok (tt, st') → same_stack st st'.
Proof.
  intros H. apply DtoDeclarationExp_Ok in H.
  destruct (irLocal st !! vd_ident vd); subst; done.
Qed.

Ltac stack_facts :=
  repeat match goal with
  | H : getExceptionStorage _ = Ok _ |- _ => apply getExceptionStorage_stack in H
  | H : DtoDeclarationExp _ _ = Ok _ |- _ => apply DtoDeclarationExp_stack in H
  | H : DtoLoad _ _ = Ok _ |- _ => apply DtoLoad_Ok in H as [-> ->]
  end.

Ltac stack_solve :=
  prim_inv; stack_facts; unfold same_stack in *; simpl in *; intuition congruence.

Lemma assignCatchVarStorage_stack c st st' :
  assignCatchVarStorage c st = Ok (tt, st') → same_stack st st'.
Proof.
  unfold assignCatchVarStorage. intros H.
  destruct (var c) as [v|]; [|stack_solve].
  gen_inv.
  destruct (decide (nestedrefs_dim v = 0));
    match goal with H : (if decide _ then _ else _) _ = Ok _ |- _ =>
      destruct (decide _) in H end; stack_solve.
Qed.

Section ScopeStack.

Variable toIR : Statement → Gen unit.

Lemma constructLandingPad_restores inBB st st' :
  constructLandingPad toIR inBB st = Ok (tt, st') →
  infos (landingPadInfo st') = infos (landingPadInfo st) ∧
  nInfos (landingPadInfo st') = nInfos (landingPadInfo st).
Proof.
  intros H. apply constructLandingPad_inv in H as (ci & hf & hc & stw & _ & _ & ->).
  done.
Qed.

Lemma walk_padBBs l eh_sel st st' :
  preserves padBBs toIR →
  walk toIR l eh_sel st = Ok (tt, st') →
  padBBs (landingPadInfo st') = padBBs (landingPadInfo st).
Proof.
  intros Hp. revert st. induction l as [|rit rest IH]; intros st H; simpl in H.
  - gen_inv. done.
  - apply bind_Ok in H as (u & st1 & H1 & H2). apply IH in H2. rewrite H2. clear H2 IH.
    destruct (finallyBody rit).
    + gen_inv. match goal with H : toIR _ _ = Ok _ |- _ => apply Hp in H; rewrite H end.
      done.
    + prim_inv. done.
Qed.

Lemma pad_header_stack inBB ci hf hc st :
  same_stack st (pad_header inBB ci hf hc st).
Proof.
  unfold pad_header, same_stack.
  destruct (catch_var (landingPadInfo st)); [destruct hc|]; done.
Qed.

Lemma constructLandingPad_padBBs inBB st st' :
  preserves padBBs toIR →
  constructLandingPad toIR inBB st = Ok (tt, st') →
  padBBs (landingPadInfo st') = padBBs (landingPadInfo st).
Proof.
  intros Hp H. apply constructLandingPad_inv in H as (ci & hf & hc & stw & _ & Hw & ->).
  apply walk_padBBs in Hw; [|done]. simpl. rewrite Hw.
  apply pad_header_stack.
Qed.

Lemma IRLandingPadInfo_catch_stack c e info st st' :
  preserves infos toIR → preserves nInfos toIR → preserves padBBs toIR →
  IRLandingPadInfo_catch toIR c e st = Ok (info, st') → same_stack st st'.
Proof.
  intros Hi Hn Hp H. unfold IRLandingPadInfo_catch in H. gen_inv.
  match goal with H : assignCatchVarStorage _ _ = Ok _ |- _ =>
    apply assignCatchVarStorage_stack in H end.
  assert (∀ sa sb, match handler c with Some h => toIR h | None => skip end sa = Ok (tt, sb) →
                   same_stack sa sb) as Hh.
  { intros sa sb Hh. destruct (handler c); [|by gen_inv].
    unfold same_stack. by rewrite (Hi _ _ _ Hh), (Hn _ _ _ Hh), (Hp _ _ _ Hh). }
  match goal with H : match handler c with _ => _ end _ = Ok _ |- _ => apply Hh in H end.
  match goal with H : (if ?b then _ else _) _ = Ok _ |- _ => destruct b end; stack_solve.
Qed.

Lemma checkpoints_ok_weaken len len' ns :
  len ≤ len' → checkpoints_ok len ns → checkpoints_ok len' ns.
Proof. destruct ns; simpl; [done|]. intros ? [? ?]. split; [lia|done]. Qed.

Lemma checkpoints_ok_Forall len ns :
  checkpoints_ok len ns → Forall (λ n, n ≤ len) ns.
Proof.
  revert len. induction ns as [|n rest IH]; intros len H; [constructor|].
  destruct H as [Hn Hr]. constructor; [done|].
  apply IH. by apply checkpoints_ok_weaken with n.
Qed.

Lemma checkpoints_ok_increasing len ns :
  checkpoints_ok len ns → increasing_to_top ns.
Proof.
  revert len. induction ns as [|n rest IH]; intros len H i j a b Hij Ha Hb.
  - done.
  - destruct H as [Hn Hr]. destruct i as [|i], j as [|j]; simpl in *.
    + injection Ha as <-. injection Hb as <-. lia.
    + injection Ha as <-.
      apply checkpoints_ok_Forall in Hr.
      rewrite Forall_forall in Hr. apply Hr. by apply list_elem_of_lookup_2 with j.
    + lia.
    + eapply (IH _ Hr i j); [lia|done..].
Qed.

Lemma stack_ok_inv p : stack_ok p → stack_inv p.
Proof.
  intros [Hl Hc]. repeat split; [done| |].
  - by apply checkpoints_ok_Forall.
  - by apply checkpoints_ok_increasing with (length (infos p)).
Qed.

Lemma push_Ok_inv inBB st st' :
  push toIR inBB st = Ok (tt, st') →
  ∃ stc,
    constructLandingPad toIR inBB
      (pad_update (set_unpushed_infos [])
         (pad_update (λ p, set_infos (infos p ++ unpushed_infos p) p)
            (pad_update (λ p, set_nInfos (length (infos p) :: nInfos p) p) st)))
      = Ok (tt, stc) ∧
    st' = pad_update (λ p, set_padBBs (inBB :: padBBs p) p) stc.
Proof. unfold push. intros H. gen_inv. eauto. Qed.

Lemma pop_Ok_inv st st' :
  pop st = Ok (tt, st') →
  ∃ bb bbs n ns,
    padBBs (landingPadInfo st) = bb :: bbs ∧
    nInfos (landingPadInfo st) = n :: ns ∧
    st' = pad_update (set_nInfos ns)
            (pad_update (set_infos (resize IRLandingPadInfo_default n
                                      (infos (landingPadInfo st))))
               (pad_update (set_padBBs bbs) st)).
Proof.
  unfold pop. intros H. gen_inv.
  destruct (padBBs (landingPadInfo st)) as [|bb bbs] eqn:E; gen_inv.
  simpl in *. destruct (nInfos (landingPadInfo st)) as [|n ns] eqn:En; [done|].
  match goal with H : head _ = Some _ |- _ => simpl in H; injection H as <- end.
  eexists bb, bbs, n, ns. repeat split; try done.
  unfold pad_update. simpl. rewrite En. done.
Qed.

Lemma step_stack_ok op st st' :
  preserves infos toIR → preserves nInfos toIR → preserves padBBs toIR →
  stack_ok (landingPadInfo st) →
  step toIR op st = Ok (tt, st') →
  stack_ok (landingPadInfo st').
Proof.
  intros Hi Hn Hp [Hl Hc] H. destruct op as [c e|s|bb|]; simpl in H.
  - unfold addCatch in H. gen_inv.
    match goal with H : IRLandingPadInfo_catch _ _ _ _ = Ok _ |- _ =>
      apply IRLandingPadInfo_catch_stack in H as (E1 & E2 & E3); [|done..] end.
    unfold stack_ok. simpl. by rewrite E1, E2, E3.
  - unfold addFinally in H. gen_inv. done.
  - apply push_Ok_inv in H as (stc & Hc' & ->).
    pose proof (constructLandingPad_padBBs _ _ _ Hp Hc') as E3.
    apply constructLandingPad_restores in Hc' as [E1 E2].
    unfold stack_ok. simpl in *. rewrite E1, E2, E3. simpl.
    split; [by rewrite Hl|]. split; [rewrite length_app; lia | done].
  - apply pop_Ok_inv in H as (bb & bbs & n & ns & Eb & En & ->).
    unfold stack_ok in *. simpl. rewrite Eb, En in *. simpl in *.
    rewrite length_resize. split; [lia | tauto].
Qed.

End ScopeStack.

Lemma steps_stack_ok toIR ops st st' :
  preserves infos toIR → preserves nInfos toIR → preserves padBBs toIR →
  stack_ok (landingPadInfo st) →
  steps toIR ops st = Ok (tt, st') →
  stack_ok (landingPadInfo st').
Proof.
  intros Hi Hn Hp. revert st. induction ops as [|op rest IH]; intros st Hok H; simpl in H.
  - gen_inv. done.
  - apply bind_Ok in H as ([] & st1 & H1 & H2).
    eapply IH; [|exact H2]. by eapply step_stack_ok.
Qed.

Lemma toIR_inline_preserves {A : Type} (field : IRLandingPad → A) :
  preserves field toIR_inline.
Proof. intros s st st' H. unfold toIR_inline in H. apply modify_Ok in H. by subst. Qed.

(** * Properties *)

(** ** Scope-stack discipline *)

(** C5: [push] immediately followed by [pop] restores the handler list (so
    also its length) and the checkpoint stack, and [get] answers as before
    the [push]; statement lowering is assumed to leave the unwind targets
    balanced. *)
Theorem push_pop_roundtrip toIR inBB st st' :
  preserves padBBs toIR →
  (push toIR inBB;; pop) st = Ok (tt, st') →
  length (infos (landingPadInfo st')) = length (infos (landingPadInfo st)) ∧
  get (landingPadInfo st') = get (landingPadInfo st) ∧
  infos (landingPadInfo st') = infos (landingPadInfo st) ∧
  nInfos (landingPadInfo st') = nInfos (landingPadInfo st).
Proof.
  intros Hp H. apply bind_Ok in H as ([] & st1 & Hpush & Hpop).
  apply push_Ok_inv in Hpush as (stc & Hc & ->).
  pose proof (constructLandingPad_padBBs _ _ _ _ Hp Hc) as E3.
  apply constructLandingPad_restores in Hc as [E1 E2].
  apply pop_Ok_inv in Hpop as (bb & bbs & n & ns & Eb & En & ->).
  simpl in *. rewrite E3 in Eb. rewrite E2 in En. rewrite E1. simpl in *.
  injection Eb as <- <-. injection En as <- <-.
  rewrite resize_app_length. unfold get. done.
Qed.

Lemma push_pop_roundtrip_witness :
  length (infos (landingPadInfo example_roundtrip))
    = length (infos (landingPadInfo example_state)) ∧
  get (landingPadInfo example_roundtrip) = get (landingPadInfo example_state) ∧
  infos (landingPadInfo example_roundtrip) = infos (landingPadInfo example_state) ∧
  nInfos (landingPadInfo example_roundtrip) = nInfos (landingPadInfo example_state).
Proof.
  apply (push_pop_roundtrip toIR_inline 3 example_state example_roundtrip).
  - apply toIR_inline_preserves.
  - vm_compute. reflexivity.
Defined.

(** C6: when [constructLandingPad] returns, the handler list and the
    checkpoint stack are what they were at entry, whatever the lowering of
    the finally bodies did to them during the walk. *)
Theorem constructLandingPad_frame toIR inBB st st' :
  constructLandingPad toIR inBB st = Ok (tt, st') →
  infos (landingPadInfo st') = infos (landingPadInfo st) ∧
  nInfos (landingPadInfo st') = nInfos (landingPadInfo st).
Proof. apply constructLandingPad_restores. Qed.

Lemma constructLandingPad_frame_witness :
  infos (landingPadInfo example_pad) = infos (landingPadInfo example_nested) ∧
  nInfos (landingPadInfo example_pad) = nInfos (landingPadInfo example_nested).
Proof.
  apply (constructLandingPad_frame toIR_inline 3 example_nested example_pad).
  vm_compute. reflexivity.
Defined.

(** C8, as the code has it: [pop] does not check for an empty stack.  On an
    empty stack of unwind targets its behaviour is undefined, and nothing is
    reported.  With a frame on both stacks it drops the current unwind
    target, so that [get] gives the enclosing one, and cuts the handler list
    down to the length the top checkpoint recorded. *)
Theorem pop_unguarded st bb bbs n ns :
  padBBs (landingPadInfo st) = bb :: bbs →
  nInfos (landingPadInfo st) = n :: ns →
  n ≤ length (infos (landingPadInfo st)) →
  (∃ st', pop st = Ok (tt, st') ∧
          padBBs (landingPadInfo st') = bbs ∧
          get (landingPadInfo st') = head bbs ∧
          nInfos (landingPadInfo st') = ns ∧
          infos (landingPadInfo st') = take n (infos (landingPadInfo st)) ∧
          length (infos (landingPadInfo st')) = n) ∧
  pop (pad_update (set_padBBs []) st) = Undefined.
Proof.
  intros Eb En Hn. split; [|done].
  eexists. unfold pop, mbind, Gen_bind, gets. rewrite Eb. simpl. rewrite En. simpl.
  split; [reflexivity|]. simpl. rewrite resize_le by done.
  repeat split; try done.
  - by rewrite En.
  - rewrite length_take. lia.
Qed.

Lemma pop_unguarded_witness :
  (∃ st', pop example_nested = Ok (tt, st') ∧
          padBBs (landingPadInfo st') = [] ∧
          get (landingPadInfo st') = None ∧
          nInfos (landingPadInfo st') = [0] ∧
          infos (landingPadInfo st') = [example_catch 7 2] ∧
          length (infos (landingPadInfo st')) = 1) ∧
  pop (pad_update (set_padBBs []) example_nested) = Undefined.
Proof.
  apply (pop_unguarded example_nested 0 [] 1 [0]); [reflexivity | reflexivity | simpl; lia].
Defined.

(** C8 as stated fails: on the empty scope stack [pop] raises no fatal
    error, with or without a diagnostic. *)
Lemma pop_empty_not_fatal : ¬ ∃ msg, pop IRState_init = Fatal msg.
Proof. intros [msg H]. discriminate H. Qed.

(** C10: after every sequence of [addCatch], [addFinally], [push] and [pop]
    that runs from the empty scope stack (a [pop] without a frame does not
    run), there are as many unwind targets as checkpoints, no checkpoint
    exceeds the length of the handler list, and the checkpoints are weakly
    increasing from the bottom of their stack to its top.  Statement
    lowering is assumed balanced.  Every prefix of such a sequence is such a
    sequence, so the invariant holds after each operation. *)
Theorem scope_stack_invariant toIR ops st st' :
  preserves infos toIR → preserves nInfos toIR → preserves padBBs toIR →
  landingPadInfo st = IRLandingPad_init →
  steps toIR ops st = Ok (tt, st') →
  length (padBBs (landingPadInfo st')) = length (nInfos (landingPadInfo st')) ∧
  Forall (λ n, n ≤ length (infos (landingPadInfo st'))) (nInfos (landingPadInfo st')) ∧
  increasing_to_top (nInfos (landingPadInfo st')).
Proof.
  intros Hi Hn Hp Hinit H.
  apply (stack_ok_inv (landingPadInfo st')).
  eapply steps_stack_ok; [exact Hi|exact Hn|exact Hp| |exact H].
  rewrite Hinit. split; simpl; done.
Qed.

Lemma scope_stack_invariant_witness :
  length (padBBs (landingPadInfo example_after_ops))
    = length (nInfos (landingPadInfo example_after_ops)) ∧
  Forall (λ n, n ≤ length (infos (landingPadInfo example_after_ops)))
    (nInfos (landingPadInfo example_after_ops)) ∧
  increasing_to_top (nInfos (landingPadInfo example_after_ops)).
Proof.
  apply (scope_stack_invariant toIR_inline example_ops example_start example_after_ops).
  - apply toIR_inline_preserves.
  - apply toIR_inline_preserves.
  - apply toIR_inline_preserves.
  - reflexivity.
  - vm_compute. reflexivity.
Defined.

(** ** The generated dispatch *)

Lemma getBlock_insert_eq (m : gmap nat (list Instr)) b c :
  getBlock (<[b := c]> m) b = c.
Proof. unfold getBlock. by rewrite lookup_insert_eq. Qed.

Lemma getBlock_insert_ne (m : gmap nat (list Instr)) b b' c :
  b ≠ b' → getBlock (<[b := c]> m) b' = getBlock m b'.
Proof. intros. unfold getBlock. by rewrite lookup_insert_ne. Qed.

Lemma getBlock_ext (m m' : gmap nat (list Instr)) b :
  m !! b = m' !! b → getBlock m b = getBlock m' b.
Proof. unfold getBlock. by intros ->. Qed.

Section RunLemmas.

Variable rt : Runtime.
Variable m : gmap nat (list Instr).
Variable stop : BasicBlock → bool.

Lemma run_Lowered f s c env :
  run rt m stop (S f) (Lowered s :: c) env
  = let '(ev, o) := run rt m stop f c env in (s :: ev, o).
Proof. reflexivity. Qed.

Lemma run_typeid f r a c env :
  run rt m stop (S f) (Call r eh_typeid_for [a] :: c) env
  = run rt m stop f c (upd env r (rt_typeid_for rt a)).
Proof. reflexivity. Qed.

Lemma run_exception f r args c env :
  run rt m stop (S f) (Call r eh_exception args :: c) env
  = run rt m stop f c (upd env r (rt_exception rt)).
Proof. reflexivity. Qed.

Lemma run_selector f r args c env :
  run rt m stop (S f) (Call r eh_selector args :: c) env
  = run rt m stop f c (upd env r (rt_selector rt)).
Proof. reflexivity. Qed.

Lemma run_Store f v p c env :
  run rt m stop (S f) (Store v p :: c) env = run rt m stop f c env.
Proof. reflexivity. Qed.

Lemma run_ICmpEQ f r a b c env :
  run rt m stop (S f) (ICmpEQ r a b :: c) env
  = run rt m stop f c (upd env r (if decide (eval env a = eval env b) then 1%Z else 0%Z)).
Proof. reflexivity. Qed.

Lemma run_CondBr f cnd t e c env :
  run rt m stop (S f) (CondBr cnd t e :: c) env
  = let b := if decide (eval env cnd = 0%Z) then e else t in
    if stop b then ([], Reached b) else run rt m stop f (getBlock m b) env.
Proof. reflexivity. Qed.

Lemma run_resume f r exc_id env :
  run rt m stop (S f) (resume_tail r exc_id) env = ([], Resumed (env exc_id)).
Proof. reflexivity. Qed.

End RunLemmas.

Lemma upd_eq env r z : upd env r z r = z.
Proof. unfold upd. by rewrite decide_True. Qed.

Lemma upd_ne env r z k : k ≠ r → upd env r z k = env k.
Proof. intros. unfold upd. by rewrite decide_False. Qed.

Lemma walk_run l : ∀ st st' sel_id,
  walk toIR_inline l (Inst sel_id LLInt32) st = Ok (tt, st') →
  cur st < nextBB st →
  walk_post l sel_id st st'.
Proof.
  induction l as [|rit rest IH]; intros st st' sel_id H Hcur; simpl in H.
  - gen_inv. split_and!; [done|lia|by left|done|].
    exists []. split; [by rewrite app_nil_r|].
    intros rt stop m r exc_id env fuel _ _ _ _ _ _ _ Hexc Hfuel. simpl app.
    rewrite decide_True by done.
    destruct fuel as [|fuel]; [simpl in Hfuel; lia|]. rewrite run_resume. by rewrite Hexc.
  - apply bind_Ok in H as ([] & st2 & Hstep & Hrest).
    destruct (finallyBody rit) as [body|] eqn:Ef.
    + prim_inv.
      match type of Hrest with walk _ _ _ ?s = _ => set (st2 := s) in * end.
      assert (cur st2 = cur st) as Ec by reflexivity.
      assert (nextBB st2 = nextBB st) as Eb by reflexivity.
      assert (nextValue st2 = nextValue st) as Ev by reflexivity.
      assert (blocks st2 = <[cur st := getBlock (blocks st) (cur st) ++ [Lowered body]]> (blocks st))
        as Ebl by reflexivity.
      destruct (IH st2 st' sel_id Hrest) as (P1 & P2 & P3 & P4 & code2 & Hc2 & Hrun).
      { rewrite Ec, Eb. done. }
      rewrite Ec, Eb, ?Ev in *.
      split_and!; [done|done|done| |].
      { intros k Hk Hne. rewrite P4 by done. rewrite Ebl. by rewrite lookup_insert_ne. }
      exists (Lowered body :: code2). split.
      { rewrite Hc2, Ebl, getBlock_insert_eq, <- app_assoc. done. }
      intros rt stop m r exc_id env fuel Hfresh Hstop Hm Hmt Hs He Hes Hee Hfuel.
      destruct fuel as [|fuel]; [simpl in Hfuel; lia|].
      rewrite <- app_comm_cons, run_Lowered.
      rewrite (Hrun rt stop m r exc_id env fuel); try done.
      * simpl. rewrite Ef. done.
      * intros i t Hi. apply Hstop. by right.
      * simpl in Hfuel. lia.
    + prim_inv.
      match goal with H : catchType rit = Some ?c |- _ => rename H into Ect, c into cd end.
      match goal with H : irStruct cd = Some ?c |- _ => rename H into Eir, c into irs end.
      match goal with H : target rit = Some ?c |- _ => rename H into Et, c into t end.
      match type of Hrest with walk _ _ _ ?s = _ => set (st2 := s) in * end.
      set (next := nextBB st) in *. set (r1 := nextValue st) in *.
      set (ci := DtoBitCast (getClassInfoSymbol irs) (getPtrToType LLInt8)) in *.
      set (code := [Call r1 eh_typeid_for [ci];
                    ICmpEQ (S r1) (Inst sel_id LLInt32) (Inst r1 LLInt32);
                    CondBr (Inst (S r1) LLInt1) t next]).
      assert (cur st2 = next) as Ec by reflexivity.
      assert (nextBB st2 = S next) as Eb by reflexivity.
      assert (nextValue st2 = S (S r1)) as Ev by reflexivity.
      assert (cur st ≠ next) as Hne by (unfold next; lia).
      assert (getBlock (blocks st2) (cur st) = getBlock (blocks st) (cur st) ++ code) as Ebc.
      { subst st2 code. unfold emit, cur in *. simpl.
        rewrite !getBlock_insert_eq, getBlock_insert_ne by done.
        by rewrite <- !app_assoc. }
      assert (getBlock (blocks st2) next = []) as Ebn.
      { subst st2. unfold emit, cur in *. simpl.
        rewrite !getBlock_insert_ne by done. apply getBlock_insert_eq. }
      assert (∀ k, k ≠ cur st → k ≠ next → blocks st2 !! k = blocks st !! k) as Ebo.
      { intros k Hk1 Hk2. subst st2. unfold emit, cur in *. simpl.
        by rewrite !lookup_insert_ne by done. }
      clearbody st2.
      destruct (IH st2 st' sel_id Hrest) as (P1 & P2 & P3 & P4 & code2 & Hc2 & Hrun).
      { rewrite Ec, Eb. lia. }
      rewrite Ec, Eb, ?Ev, ?Ebn in *. simpl in Hc2.
      assert (cur st' ≠ cur st) as Hne' by (unfold next in *; lia).
      split_and!; [done|lia|right; lia| |].
      { intros k Hk Hkc. rewrite P4 by (unfold next in *; lia).
        apply Ebo; [done|unfold next in *; lia]. }
      exists code. split.
      { rewrite <- Ebc. apply getBlock_ext. apply P4; [unfold next in *; lia|done]. }
      intros rt stop m r exc_id env fuel Hfresh Hstop Hm Hmt Hs He Hes Hee Hfuel.
      rewrite decide_False, app_nil_r by done.
      destruct fuel as [|[|[|fuel]]]; try (simpl in Hfuel; lia).
      subst code. rewrite run_typeid, run_ICmpEQ, run_CondBr.
      cbn [eval]. rewrite upd_eq.
      rewrite (upd_ne _ r1 _ sel_id), upd_eq, Hes by lia.
      simpl dispatch. rewrite Ef, Ect. simpl. rewrite Eir, Et.
      fold ci. destruct (decide (rt_selector rt = rt_typeid_for rt ci)) as [Eq|Neq].
      * rewrite decide_False by done.
        rewrite (Hstop rit t); [done|by left|done|done].
      * rewrite decide_True by done.
        rewrite Hfresh by (unfold next; lia).
        assert (getBlock m next
                = code2 ++ (if decide (cur st' = next) then resume_tail r exc_id else []))
          as ->.
        { destruct (decide (cur st' = next)) as [E|E].
          - rewrite <- E at 1. rewrite Hmt, E, Hc2. done.
          - rewrite app_nil_r, <- Hc2. apply getBlock_ext. apply Hm. done. }
        apply Hrun; try done; try lia.
        -- intros k Hk. apply Hfresh. unfold next in *. lia.
        -- intros i t' Hi. apply Hstop. by right.
        -- rewrite !upd_ne by lia. done.
        -- rewrite !upd_ne by lia. done.
        -- simpl in Hfuel. lia.
Qed.

Lemma pad_header_facts inBB ci hf hc st :
  let sth := pad_header inBB ci hf hc st in
  cur sth = inBB ∧ nextBB sth = nextBB st ∧ nextValue sth = S (S (nextValue st)) ∧
  (∀ k, k ≠ inBB → blocks sth !! k = blocks st !! k) ∧
  ∃ store,
    getBlock (blocks sth) inBB
    = getBlock (blocks st) inBB
      ++ Call (nextValue st) eh_exception [] :: store
      ++ [Call (S (nextValue st)) eh_selector
            (selectorList (Inst (nextValue st) (LLPtr LLInt8)) ci hf)] ∧
    (store = [] ∨ ∃ v p, store = [Store v p]).
Proof.
  unfold pad_header.
  destruct (catch_var (landingPadInfo st)) as [cv|]; [destruct hc|];
    unfold emit, cur; simpl; (split_and!; [done|done|done| |]).
  - intros k Hk. by rewrite !lookup_insert_ne by done.
  - eexists [_]. rewrite !getBlock_insert_eq, <- !app_assoc. split; [done|]. right; eauto.
  - intros k Hk. by rewrite !lookup_insert_ne by done.
  - exists []. rewrite !getBlock_insert_eq, <- !app_assoc. split; [done|]. by left.
  - intros k Hk. by rewrite !lookup_insert_ne by done.
  - exists []. rewrite !getBlock_insert_eq, <- !app_assoc. split; [done|]. by left.
Qed.

Lemma pad_finish_facts st stw :
  let st' := pad_finish st stw in
  (∀ k, k ≠ cur stw → blocks st' !! k = blocks stw !! k) ∧
  getBlock (blocks st') (cur stw)
  = getBlock (blocks stw) (cur stw) ++ resume_tail (nextValue stw) (nextValue st).
Proof.
  unfold pad_finish, emit, cur. simpl. split.
  - intros k Hk. by rewrite !lookup_insert_ne by done.
  - rewrite !getBlock_insert_eq, <- !app_assoc. done.
Qed.

Arguments pad_header : simpl never.
Arguments pad_finish : simpl never.

(** The landing block once [constructLandingPad] is done: the capture, the
    store into the shared slot if there is one, the selector call, and then
    code that runs as [dispatch] says. *)
Lemma constructLandingPad_block inBB st st' :
  constructLandingPad toIR_inline inBB st = Ok (tt, st') →
  inBB < nextBB st →
  getBlock (blocks st) inBB = [] →
  ∃ ci hf hc store code,
    selectorLoop (infos (landingPadInfo st)) ([], false, false) st = Ok ((ci, hf, hc), st) ∧
    (store = [] ∨ ∃ v p, store = [Store v p]) ∧
    getBlock (blocks st') inBB
    = Call (nextValue st) eh_exception [] :: store
      ++ Call (S (nextValue st)) eh_selector
           (selectorList (Inst (nextValue st) (LLPtr LLInt8)) ci hf)
      :: code ∧
    ∀ rt stop env fuel,
      (∀ k, nextBB st ≤ k → stop k = false) →
      (∀ i t, i ∈ infos (landingPadInfo st) → finallyBody i = None →
              target i = Some t → stop t = true) →
      env (S (nextValue st)) = rt_selector rt → env (nextValue st) = rt_exception rt →
      3 * length (infos (landingPadInfo st)) + 1 ≤ fuel →
      run rt (blocks st') stop fuel code env = dispatch rt (rev (infos (landingPadInfo st))).
Proof.
  intros H Hin Hempty.
  apply constructLandingPad_inv in H as (ci & hf & hc & stw & Hsel & Hw & ->).
  destruct (pad_header_facts inBB ci hf hc st) as (Hc & Hb & Hv & Hbo & store & Hcode & Hstore).
  rewrite Hempty, app_nil_l in Hcode.
  destruct (pad_finish_facts st stw) as (Hfo & Hft).
  set (sth := pad_header inBB ci hf hc st) in *.
  destruct (walk_run _ _ _ _ Hw) as (P1 & P2 & P3 & P4 & code & Hc2 & Hrun).
  { rewrite Hc, Hb. done. }
  rewrite Hc, ?Hb, ?Hv in *.
  exists ci, hf, hc, store,
    (code ++ (if decide (cur stw = inBB)
              then resume_tail (nextValue stw) (nextValue st) else [])).
  split_and!; [done|done| |].
  - destruct (decide (cur stw = inBB)) as [E|E].
    + rewrite <- E at 1. rewrite Hft, E, Hc2, Hcode.
      rewrite <- !app_comm_cons, <- !app_assoc. done.
    + rewrite app_nil_r. rewrite (getBlock_ext _ (blocks stw)) by (by apply Hfo).
      rewrite Hc2, Hcode. rewrite <- !app_comm_cons, <- !app_assoc. done.
  - intros rt stop env fuel Hfresh Hstop Hes Hee Hfuel.
    apply Hrun; try done; try lia.
    + intros i t Hi. apply Hstop. apply list_elem_of_In, in_rev. by apply list_elem_of_In.
    + rewrite length_rev. done.
Qed.

(** Running the landing block from its start. *)
Lemma constructLandingPad_run rt stop inBB st st' fuel env :
  constructLandingPad toIR_inline inBB st = Ok (tt, st') →
  inBB < nextBB st →
  getBlock (blocks st) inBB = [] →
  (∀ k, nextBB st ≤ k → stop k = false) →
  (∀ i t, i ∈ infos (landingPadInfo st) → finallyBody i = None →
          target i = Some t → stop t = true) →
  3 * length (infos (landingPadInfo st)) + 4 ≤ fuel →
  run rt (blocks st') stop fuel (getBlock (blocks st') inBB) env
  = dispatch rt (rev (infos (landingPadInfo st))).
Proof.
  intros H Hin Hempty Hfresh Hstop Hfuel.
  destruct (constructLandingPad_block _ _ _ H Hin Hempty)
    as (ci & hf & hc & store & code & _ & Hstore & -> & Hrun).
  set (env2 := upd (upd env (nextValue st) (rt_exception rt)) (S (nextValue st)) (rt_selector rt)).
  assert (∀ f, 3 * length (infos (landingPadInfo st)) + 1 ≤ f →
          run rt (blocks st') stop f code env2
          = dispatch rt (rev (infos (landingPadInfo st)))) as Hgo.
  { intros f Hf. apply Hrun; try done.
    - unfold env2. apply upd_eq.
    - unfold env2. rewrite upd_ne by lia. apply upd_eq. }
  destruct Hstore as [-> | (v & p & ->)]; simpl app.
  - destruct fuel as [|[|fuel]]; try lia.
    rewrite run_exception, run_selector. apply Hgo. lia.
  - destruct fuel as [|[|[|fuel]]]; try lia.
    rewrite run_exception, run_Store, run_selector. apply Hgo. lia.
Qed.

(** *** The selector arguments *)

Lemma selectorLoop_spec l : ∀ args hf hc args' hf' hc' st st',
  selectorLoop l (args, hf, hc) st = Ok ((args', hf', hc'), st') →
  args' = rev (omap catch_classinfo l) ++ args ∧
  hf' = hf || existsb is_finally l ∧
  hc' = hc || existsb (λ i, negb (is_finally i)) l.
Proof.
  induction l as [|it rest IH]; intros args hf hc args' hf' hc' st st' H; simpl in H.
  - gen_inv. match goal with H : (_, _, _) = (_, _, _) |- _ => injection H as -> -> -> end.
    simpl. by rewrite !orb_false_r.
  - unfold is_finally, catch_classinfo in *. simpl.
    destruct (finallyBody it) as [body|] eqn:Ef; simpl.
    + apply IH in H as (-> & -> & ->). rewrite orb_true_r. simpl. done.
    + gen_inv.
      match goal with H : catchType it = Some _ |- _ => rewrite H end. simpl.
      match goal with H : irStruct _ = Some _ |- _ => rewrite H end. simpl.
      apply IH in H as (-> & -> & ->). rewrite <- app_assoc. simpl.
      rewrite orb_true_r. done.
Qed.

Lemma selectorLoop_total l : ∀ acc st,
  Forall resolved l → ∃ r, selectorLoop l acc st = Ok (r, st).
Proof.
  induction l as [|it rest IH]; intros [[args hf] hc] st Hwf; simpl.
  - eexists. by apply ret_Ok.
  - inversion Hwf as [|? ? Hit Hrest]; subst.
    unfold resolved, is_finally, catch_classinfo in Hit.
    destruct (finallyBody it) as [body|]; [by apply IH|].
    destruct Hit as [Hit|[[ci Hci] _]]; [done|].
    destruct (catchType it) as [cd|]; [|done]. simpl in Hci.
    destruct (irStruct cd) as [irs|] eqn:Eir; [|done].
    destruct (IH (getClassInfoSymbol irs :: args, hf, true) st Hrest) as [r Hr].
    exists r. unfold mbind, Gen_bind, assert, deref, ret, mret, Gen_ret. simpl.
    rewrite Eir. simpl. exact Hr.
Qed.

Lemma walk_total l : ∀ sel st,
  Forall resolved l →
  length (filter (λ i, is_finally i = true) l) ≤ length (nInfos (landingPadInfo st)) →
  ∃ st', walk toIR_inline l sel st = Ok (tt, st').
Proof.
  induction l as [|rit rest IH]; intros sel st Hwf Hn; simpl.
  - eexists. by apply skip_Ok.
  - inversion Hwf as [|? ? Hit Hrest]; subst.
    unfold resolved, catch_classinfo in Hit.
    destruct (finallyBody rit) as [body|] eqn:Ef.
    + rewrite filter_cons_True in Hn by (unfold is_finally; by rewrite Ef). simpl in Hn.
      destruct (nInfos (landingPadInfo st)) as [|n ns] eqn:En; [simpl in Hn; lia|].
      unfold mbind, Gen_bind, gets, deref, ret, mret, Gen_ret, modify, toIR_inline.
      rewrite En. simpl.
      apply IH; [done|]. simpl. rewrite En. simpl in *. lia.
    + rewrite filter_cons_False in Hn by (unfold is_finally; by rewrite Ef).
      destruct Hit as [Hit|[[ci Hci] [t Ht]]]; [by unfold is_finally in Hit; rewrite Ef in Hit|].
      destruct (catchType rit) as [cd|]; [|done]. simpl in Hci.
      destruct (irStruct cd) as [irs|] eqn:Eir; [|done].
      unfold mbind, Gen_bind, BasicBlock_Create, deref, ret, mret, Gen_ret, modify,
        CreateCall, CreateICmpEQ, CreateCondBr.
      simpl. rewrite Eir, Ht. simpl.
      apply IH; [done|]. done.
Qed.

Ltac gen_step :=
  apply bind_Ok;
  first [ eexists tt, _; split;
          [first [ apply modify_Ok; reflexivity | apply skip_Ok; reflexivity ] |]
        | eexists _, _; split;
          [first [ apply gets_Ok; split; reflexivity
                 | apply CreateCall_Ok; split; reflexivity ] |] ].

Lemma constructLandingPad_complete toIR inBB st ci hf hc stw :
  selectorLoop (infos (landingPadInfo st)) ([], false, false) st = Ok ((ci, hf, hc), st) →
  walk toIR (rev (infos (landingPadInfo st))) (Inst (S (nextValue st)) LLInt32)
    (pad_header inBB ci hf hc st) = Ok (tt, stw) →
  constructLandingPad toIR inBB st = Ok (tt, pad_finish st stw).
Proof.
  intros Hsel Hw. unfold constructLandingPad.
  do 4 gen_step.
  apply bind_Ok. eexists _, _. split; [eapply selectorLoop_indep, Hsel|].
  cbv beta iota. gen_step.
  unfold pad_header in Hw. unfold pad_finish.
  cbn [landingPadInfo emit set_blocks set_nextValue set_scope catch_var].
  destruct (catch_var (landingPadInfo st)) as [cv|]; [destruct hc|].
  - apply bind_Ok. eexists tt, _. split; [apply modify_Ok; reflexivity|].
    do 3 gen_step. apply bind_Ok. eexists tt, _. split; [exact Hw|].
    do 4 gen_step. apply modify_Ok. reflexivity.
  - do 4 gen_step. apply bind_Ok. eexists tt, _. split; [exact Hw|].
    do 4 gen_step. apply modify_Ok. reflexivity.
  - do 4 gen_step. apply bind_Ok. eexists tt, _. split; [exact Hw|].
    do 4 gen_step. apply modify_Ok. reflexivity.
Qed.

Lemma length_filter_rev {A : Type} (P : A → Prop) `{∀ x, Decision (P x)} (l : list A) :
  length (filter P (rev l)) = length (filter P l).
Proof.
  induction l as [|a l IH]; [done|]. simpl rev.
  rewrite filter_app, length_app, IH, !filter_cons, filter_nil.
  destruct (decide (P a)); simpl; lia.
Qed.

Lemma constructLandingPad_total inBB st :
  Forall resolved (infos (landingPadInfo st)) →
  length (filter (λ i, is_finally i = true) (infos (landingPadInfo st)))
    ≤ length (nInfos (landingPadInfo st)) →
  ∃ st', constructLandingPad toIR_inline inBB st = Ok (tt, st').
Proof.
  intros Hwf Hn.
  destruct (selectorLoop_total _ ([], false, false) st Hwf) as [[[ci hf] hc] Hsel].
  destruct (walk_total (rev (infos (landingPadInfo st))) (Inst (S (nextValue st)) LLInt32)
              (pad_header inBB ci hf hc st)) as [stw Hw].
  - apply Forall_forall. intros i Hi. rewrite Forall_forall in Hwf. apply Hwf.
    apply list_elem_of_In, in_rev. by apply list_elem_of_In.
  - destruct (pad_header_stack inBB ci hf hc st) as (_ & -> & _).
    rewrite length_filter_rev. done.
  - eexists. by eapply constructLandingPad_complete.
Qed.

(** With inline lowering, [push] followed by [pop] does run whenever the
    catch entries are resolved and there is a frame for every finally. *)
Lemma push_pop_defined inBB st :
  let l := infos (landingPadInfo st) ++ unpushed_infos (landingPadInfo st) in
  Forall resolved l →
  length (filter (λ i, is_finally i = true) l) ≤ S (length (nInfos (landingPadInfo st))) →
  ∃ st', (push toIR_inline inBB;; pop) st = Ok (tt, st').
Proof.
  intros l Hwf Hn.
  set (stp := pad_update (set_unpushed_infos [])
                (pad_update (λ p, set_infos (infos p ++ unpushed_infos p) p)
                   (pad_update (λ p, set_nInfos (length (infos p) :: nInfos p) p) st))).
  destruct (constructLandingPad_total inBB stp) as [stc Hc]; [done|done|].
  pose proof (constructLandingPad_restores _ _ _ _ Hc) as [E1 E2].
  eexists. apply bind_Ok. eexists tt, _. split.
  - unfold push. do 3 gen_step. apply bind_Ok. eexists tt, _. split; [exact Hc|].
    apply modify_Ok. reflexivity.
  - unfold pop. gen_step. simpl. gen_step. gen_step. simpl. rewrite E2. simpl.
    apply bind_Ok. eexists _, _. split; [apply ret_Ok; split; reflexivity|].
    gen_step. apply modify_Ok. reflexivity.
Qed.

(** *** The catch constructor with inline lowering *)

Lemma emits_into_refl st : emits_into st st.
Proof. unfold emits_into. split_and!; done. Qed.

Lemma emits_into_trans st1 st2 st3 :
  emits_into st1 st2 → emits_into st2 st3 → emits_into st1 st3.
Proof.
  unfold emits_into, cur. intros (A1 & A2 & A3 & A4 & A5 & A6 & A7 & A8)
    (B1 & B2 & B3 & B4 & B5 & B6 & B7 & B8).
  rewrite A2 in B4. split_and!; try congruence. lia.
Qed.

Lemma emits_into_emit i st : emits_into st (emit i st).
Proof.
  unfold emits_into, emit, cur. simpl. split_and!; try done.
  by rewrite delete_insert_eq.
Qed.

Lemma getExceptionStorage_emits v st st' :
  getExceptionStorage st = Ok (v, st') → emits_into st st'.
Proof.
  intros H. apply getExceptionStorage_Ok in H.
  destruct (catch_var (landingPadInfo st)); destruct H as [-> ->].
  - apply emits_into_refl.
  - unfold emits_into. simpl. split_and!; try done. lia.
Qed.

Lemma DtoDeclarationExp_emits vd st st' :
  DtoDeclarationExp vd st = Ok (tt, st') → emits_into st st'.
Proof.
  intros H. apply DtoDeclarationExp_Ok in H.
  destruct (irLocal st !! vd_ident vd); subst.
  - apply emits_into_refl.
  - unfold emits_into. simpl. split_and!; try done. lia.
Qed.

Lemma emits_into_set_irLocal v st : emits_into st (set_irLocal v st).
Proof. unfold emits_into. simpl. split_and!; done. Qed.

Lemma DtoLoad_emits p v st st' : DtoLoad p st = Ok (v, st') → emits_into st st'.
Proof.
  intros H. apply DtoLoad_Ok in H as [-> ->].
  unfold emits_into, emit, cur. simpl. split_and!; try done; [lia|].
  by rewrite delete_insert_eq.
Qed.

Lemma assignCatchVarStorage_emits c st st' :
  assignCatchVarStorage c st = Ok (tt, st') → emits_into st st'.
Proof.
  unfold assignCatchVarStorage. intros H.
  destruct (var c) as [v|]; [|gen_inv; apply emits_into_refl].
  apply bind_Ok in H as ([] & s1 & H1 & H).
  apply bind_Ok in H as ([] & s2 & H2 & H).
  apply bind_Ok in H as (l & s3 & H3 & H). apply gets_Ok in H3 as [-> ->].
  apply bind_Ok in H as (value & s4 & H4 & H). apply deref_Ok in H4 as [H4 ->].
  apply bind_Ok in H as (storage & s5 & H5 & H).
  assert (emits_into st s1) as E1.
  { destruct (decide (nestedrefs_dim v = 0)); gen_inv; [|apply emits_into_refl].
    eapply emits_into_trans; [by eapply getExceptionStorage_emits|].
    apply emits_into_set_irLocal. }
  apply DtoDeclarationExp_emits in H2. apply getExceptionStorage_emits in H5.
  eapply emits_into_trans; [exact E1|]. eapply emits_into_trans; [exact H2|].
  eapply emits_into_trans; [exact H5|].
  destruct (decide (value ≠ storage)); [|gen_inv; apply emits_into_refl].
  apply bind_Ok in H as (st6' & s6 & H6 & H). apply getExceptionStorage_emits in H6.
  apply bind_Ok in H as (ld & s7 & H7 & H). apply DtoLoad_emits in H7.
  unfold DtoStore, CreateStore in H. apply modify_Ok in H. subst.
  eapply emits_into_trans; [exact H6|]. eapply emits_into_trans; [exact H7|].
  apply emits_into_emit.
Qed.

Lemma IRLandingPadInfo_catch_inline c e info st st' :
  IRLandingPadInfo_catch toIR_inline c e st = Ok (info, st') →
  (∃ cd, catch_class c = Some cd ∧
         info = mkIRLandingPadInfo (Some (nextBB st)) None (Some (codegen cd))) ∧
  nextBB st' = S (nextBB st) ∧ nextValue st ≤ nextValue st' ∧
  (∀ k, k ≠ nextBB st → blocks st' !! k = blocks st !! k) ∧
  infos (landingPadInfo st') = infos (landingPadInfo st) ∧
  unpushed_infos (landingPadInfo st') = unpushed_infos (landingPadInfo st) ∧
  nInfos (landingPadInfo st') = nInfos (landingPadInfo st) ∧
  padBBs (landingPadInfo st') = padBBs (landingPadInfo st).
Proof.
  unfold IRLandingPadInfo_catch. intros H.
  apply bind_Ok in H as (tgt & s1 & H1 & H). apply BasicBlock_Create_Ok in H1 as [-> ->].
  apply bind_Ok in H as ([] & s2 & H2 & H). apply modify_Ok in H2. subst s2.
  apply bind_Ok in H as ([] & s3 & H3 & H). apply assignCatchVarStorage_emits in H3.
  apply bind_Ok in H as ([] & s4 & H4 & H).
  assert (emits_into s3 s4) as E4.
  { destruct (handler c); [|gen_inv; apply emits_into_refl].
    unfold toIR_inline in H4. apply modify_Ok in H4. subst. apply emits_into_emit. }
  apply bind_Ok in H as (returned & s5 & H5 & H). apply gets_Ok in H5 as [-> ->].
  apply bind_Ok in H as ([] & s6 & H6 & H).
  assert (emits_into s4 s6) as E6.
  { destruct (scopereturned s4); [gen_inv; apply emits_into_refl|].
    unfold CreateBr in H6. apply modify_Ok in H6. subst. apply emits_into_emit. }
  gen_inv.
  pose proof (emits_into_trans _ _ _ H3 (emits_into_trans _ _ _ E4 E6))
    as (A1 & A2 & A3 & A4 & A5 & A6 & A7 & A8).
  unfold cur in A4. simpl in *.
  split_and!; try done.
  - unfold catch_class.
    match goal with H : type c = Some _ |- _ => rewrite H end. simpl.
    match goal with H : isClassHandle _ = Some _ |- _ => rewrite H end. eauto.
  - intros k Hk.
    pose proof (f_equal (λ m : gmap nat (list Instr), m !! k) A4) as Hd. simpl in Hd.
    rewrite !lookup_delete_ne, lookup_insert_ne in Hd by done. done.
Qed.

Lemma addCatch_inline c e st st' :
  addCatch toIR_inline c e st = Ok (tt, st') →
  ∃ cd, catch_class c = Some cd ∧
    nextBB st' = S (nextBB st) ∧ nextValue st ≤ nextValue st' ∧
    (∀ k, k ≠ nextBB st → blocks st' !! k = blocks st !! k) ∧
    infos (landingPadInfo st') = infos (landingPadInfo st) ∧
    unpushed_infos (landingPadInfo st')
    = mkIRLandingPadInfo (Some (nextBB st)) None (Some (codegen cd))
      :: unpushed_infos (landingPadInfo st) ∧
    nInfos (landingPadInfo st') = nInfos (landingPadInfo st) ∧
    padBBs (landingPadInfo st') = padBBs (landingPadInfo st).
Proof.
  unfold addCatch. intros H.
  apply bind_Ok in H as (info & s1 & H1 & H). apply modify_Ok in H. subst.
  apply IRLandingPadInfo_catch_inline in H1
    as ((cd & Hcd & ->) & A1 & A2 & A3 & A4 & A5 & A6 & A7).
  exists cd. simpl. rewrite A5. split_and!; done.
Qed.

(** *** [push] with inline lowering *)

Lemma walk_unpushed_inline l : ∀ sel st st',
  walk toIR_inline l sel st = Ok (tt, st') →
  unpushed_infos (landingPadInfo st') = unpushed_infos (landingPadInfo st).
Proof.
  induction l as [|rit rest IH]; intros sel st st' H; simpl in H.
  - by gen_inv.
  - apply bind_Ok in H as ([] & st2 & H1 & H2). apply IH in H2. rewrite H2.
    destruct (finallyBody rit); prim_inv; done.
Qed.

Lemma constructLandingPad_inline_frame inBB st st' :
  constructLandingPad toIR_inline inBB st = Ok (tt, st') →
  inBB < nextBB st →
  nextBB st ≤ nextBB st' ∧
  unpushed_infos (landingPadInfo st') = unpushed_infos (landingPadInfo st) ∧
  padBBs (landingPadInfo st') = padBBs (landingPadInfo st) ∧
  ∀ k, k < nextBB st → k ≠ inBB → blocks st' !! k = blocks st !! k.
Proof.
  intros H Hin.
  pose proof (constructLandingPad_padBBs _ _ _ _ (toIR_inline_preserves padBBs) H) as Hp.
  apply constructLandingPad_inv in H as (ci & hf & hc & stw & Hsel & Hw & ->).
  destruct (pad_header_facts inBB ci hf hc st) as (Hc & Hb & Hv & Hbo & _).
  destruct (pad_finish_facts st stw) as (Hfo & _).
  pose proof (walk_unpushed_inline _ _ _ _ Hw) as Hu.
  destruct (walk_run _ _ _ _ Hw) as (P1 & P2 & P3 & P4 & _).
  { rewrite Hc, Hb. done. }
  rewrite Hc, Hb in *.
  split_and!; [done| |done|].
  - unfold pad_finish. simpl. rewrite Hu. unfold pad_header.
    destruct (catch_var (landingPadInfo st)); [destruct hc|]; done.
  - intros k Hk Hne. rewrite Hfo by lia. rewrite P4 by done. by apply Hbo.
Qed.

Lemma push_inline inBB st st' :
  push toIR_inline inBB st = Ok (tt, st') →
  inBB < nextBB st →
  getBlock (blocks st) inBB = [] →
  let l := infos (landingPadInfo st) ++ unpushed_infos (landingPadInfo st) in
  infos (landingPadInfo st') = l ∧
  unpushed_infos (landingPadInfo st') = [] ∧
  nInfos (landingPadInfo st') = length (infos (landingPadInfo st)) :: nInfos (landingPadInfo st) ∧
  padBBs (landingPadInfo st') = inBB :: padBBs (landingPadInfo st) ∧
  nextBB st ≤ nextBB st' ∧
  (∀ k, k < nextBB st → k ≠ inBB → blocks st' !! k = blocks st !! k) ∧
  ∀ rt stop fuel env,
    (∀ k, nextBB st ≤ k → stop k = false) →
    (∀ i t, i ∈ l → finallyBody i = None → target i = Some t → stop t = true) →
    3 * length l + 4 ≤ fuel →
    run rt (blocks st') stop fuel (getBlock (blocks st') inBB) env = dispatch rt (rev l).
Proof.
  intros H Hin Hempty l.
  apply push_Ok_inv in H as (stc & Hc & ->).
  pose proof (constructLandingPad_restores _ _ _ _ Hc) as [E1 E2].
  pose proof (constructLandingPad_inline_frame _ _ _ Hc Hin) as (F1 & F2 & F3 & F4).
  simpl in *. split_and!; try done.
  - by rewrite F3.
  - intros rt stop fuel env Hfresh Hstop Hfuel.
    by apply (constructLandingPad_run rt stop inBB _ stc fuel env Hc).
Qed.

Lemma is_target_fresh l n k :
  (∀ t, t ∈ omap catch_target l → t < n) → n ≤ k → is_target l k = false.
Proof.
  intros Hl Hk. unfold is_target. apply bool_decide_eq_false. intros Hin.
  apply Hl in Hin. lia.
Qed.

Lemma is_target_hit l i t :
  i ∈ l → finallyBody i = None → target i = Some t → is_target l t = true.
Proof.
  intros Hi Hf Ht. unfold is_target. apply bool_decide_eq_true.
  apply list_elem_of_omap. exists i. split; [done|]. unfold catch_target. by rewrite Hf.
Qed.

Lemma dispatch_finally rt i rest body :
  finallyBody i = Some body →
  dispatch rt (i :: rest) = (body :: (dispatch rt rest).1, (dispatch rt rest).2).
Proof. intros E. simpl. rewrite E. by destruct (dispatch rt rest). Qed.

Lemma dispatch_catch_hit rt i rest ci t :
  catch_classinfo i = Some ci → catch_target i = Some t →
  rt_selector rt = rt_typeid_for rt (DtoBitCast ci (getPtrToType (DtoType Tint8))) →
  dispatch rt (i :: rest) = ([], Reached t).
Proof.
  unfold catch_classinfo, catch_target. intros Hc Ht Hs. simpl.
  destruct (finallyBody i); [done|].
  destruct (catchType i ≫= irStruct) as [s|]; [|done]. injection Hc as <-.
  rewrite Ht. by rewrite decide_True.
Qed.

Lemma dispatch_catch_miss rt i rest ci :
  catch_classinfo i = Some ci → is_Some (target i) →
  rt_selector rt ≠ rt_typeid_for rt (DtoBitCast ci (getPtrToType (DtoType Tint8))) →
  dispatch rt (i :: rest) = dispatch rt rest.
Proof.
  unfold catch_classinfo. intros Hc [t Ht] Hs. simpl.
  destruct (finallyBody i); [done|].
  destruct (catchType i ≫= irStruct) as [s|]; [|done]. injection Hc as <-.
  rewrite Ht. by rewrite decide_False.
Qed.

Lemma dispatch_no_match rt l :
  Forall resolved l → no_match rt l →
  dispatch rt l = (omap finallyBody l, Resumed (rt_exception rt)).
Proof.
  induction l as [|i rest IH]; intros Hwf Hno; [done|].
  inversion Hwf as [|? ? Hi Hrest]; subst.
  assert (no_match rt rest) as Hno' by (intros j cj Hj; apply Hno; by right).
  specialize (IH Hrest Hno').
  destruct (finallyBody i) as [body|] eqn:Ef.
  - rewrite (dispatch_finally _ _ _ _ Ef), IH. simpl. by rewrite Ef.
  - destruct Hi as [Hi|[[ci Hci] Ht]]; [by unfold is_finally in Hi; rewrite Ef in Hi|].
    rewrite (dispatch_catch_miss _ _ _ ci); [|done|done|apply (Hno i); [by left|done]].
    rewrite IH. simpl. by rewrite Ef.
Qed.

(** ** The generated landing pad *)

(** X28: with statements lowered inline (no handler holds a try
    statement), the catches [cA], [cB], [cC] of one try statement, staged in
    source order and pushed, are tested in that order, before every entry
    that was in the handler list already, and those from the last appended to
    the first (the innermost enclosing try first).  Hence, when the selector
    is the type id of [cB]'s class and not that of [cA]'s, control reaches
    the target block of [cB], which is neither [cA]'s nor [cC]'s; the
    dispatch is run until it reaches the target of some catch clause. *)
Theorem catch_dispatch_order rt inBB e cA cB cC st st' fuel env :
  (addCatch toIR_inline cA e;; addCatch toIR_inline cB e;;
   addCatch toIR_inline cC e;; push toIR_inline inBB) st = Ok (tt, st') →
  unpushed_infos (landingPadInfo st) = [] →
  inBB < nextBB st →
  getBlock (blocks st) inBB = [] →
  (∀ t, t ∈ omap catch_target (infos (landingPadInfo st)) → t < nextBB st) →
  3 * length (infos (landingPadInfo st)) + 13 ≤ fuel →
  ∃ a b c,
    catch_class cA = Some a ∧ catch_class cB = Some b ∧ catch_class cC = Some c ∧
    let tA := nextBB st in
    let tB := S (nextBB st) in
    let tC := S (S (nextBB st)) in
    let outcome := run rt (blocks st') (is_target (infos (landingPadInfo st'))) fuel
                     (getBlock (blocks st') inBB) env in
    infos (landingPadInfo st')
    = infos (landingPadInfo st) ++ [info_of tC c; info_of tB b; info_of tA a] ∧
    outcome = dispatch rt (info_of tA a :: info_of tB b :: info_of tC c
                           :: rev (infos (landingPadInfo st))) ∧
    (∀ ciA ciB,
       catch_classinfo (info_of tA a) = Some ciA →
       catch_classinfo (info_of tB b) = Some ciB →
       rt_selector rt ≠ rt_typeid_for rt (DtoBitCast ciA (getPtrToType (DtoType Tint8))) →
       rt_selector rt = rt_typeid_for rt (DtoBitCast ciB (getPtrToType (DtoType Tint8))) →
       outcome = ([], Reached tB) ∧ tB ≠ tA ∧ tB ≠ tC).
Proof.
  intros H Hu Hin Hempty Htg Hfuel.
  apply bind_Ok in H as ([] & s1 & H1 & H). apply bind_Ok in H as ([] & s2 & H2 & H).
  apply bind_Ok in H as ([] & s3 & H3 & H).
  apply addCatch_inline in H1 as (a & Ha & A1 & _ & A3 & A4 & A5 & _).
  apply addCatch_inline in H2 as (b & Hb & B1 & _ & B3 & B4 & B5 & _).
  apply addCatch_inline in H3 as (c & Hc & C1 & _ & C3 & C4 & C5 & _).
  rewrite B1, A1 in C1. rewrite A1 in B3, B5. rewrite B1, A1 in C3, C5.
  rewrite B5, A5, Hu in C5. rewrite B4, A4 in C4.
  assert (getBlock (blocks s3) inBB = []) as Hempty3.
  { rewrite <- Hempty. apply getBlock_ext.
    rewrite C3, B3, A3 by lia. done. }
  apply push_inline in H as (P1 & _ & _ & _ & _ & _ & Hrun); [|lia|done].
  rewrite C4, C5 in P1, Hrun.
  exists a, b, c. split_and!; try done. cbv zeta. rewrite P1. unfold info_of.
  set (iA := mkIRLandingPadInfo (Some (nextBB st)) None (Some (codegen a))) in *.
  set (iB := mkIRLandingPadInfo (Some (S (nextBB st))) None (Some (codegen b))) in *.
  set (iC := mkIRLandingPadInfo (Some (S (S (nextBB st)))) None (Some (codegen c))) in *.
  set (l := infos (landingPadInfo st) ++ [iC; iB; iA]) in *.
  assert (run rt (blocks st') (is_target l) fuel (getBlock (blocks st') inBB) env
          = dispatch rt (rev l)) as Hgo.
  { apply Hrun.
    - intros k Hk. apply (is_target_fresh l (S (S (S (nextBB st))))); [|lia].
      intros t Ht. unfold l in Ht. rewrite omap_app, elem_of_app in Ht.
      destruct Ht as [Ht|Ht]; [apply Htg in Ht; lia|].
      simpl in Ht. rewrite !elem_of_cons, elem_of_nil in Ht. lia.
    - intros i t. apply is_target_hit.
    - unfold l. rewrite length_app. simpl. lia. }
  assert (rev l = iA :: iB :: iC :: rev (infos (landingPadInfo st))) as Hrev.
  { unfold l. rewrite rev_app_distr. done. }
  rewrite Hrev in Hgo. split_and!; [done|done|].
  intros ciA ciB HA HB Hne Heq. split_and!; [|lia|lia].
  rewrite Hgo. rewrite (dispatch_catch_miss _ _ _ ciA); [|done|by eexists|done].
  by rewrite (dispatch_catch_hit _ _ _ ciB (S (nextBB st))).
Qed.

Lemma catch_dispatch_order_witness :
  ∃ a b c,
    catch_class (example_catch_stmt 11 21) = Some a ∧
    catch_class (example_catch_stmt 12 22) = Some b ∧
    catch_class (example_catch_stmt 13 23) = Some c ∧
    let tA := nextBB example_outer in
    let tB := S (nextBB example_outer) in
    let tC := S (S (nextBB example_outer)) in
    let outcome := run (example_runtime 99 12) (blocks example_three)
                     (is_target (infos (landingPadInfo example_three))) 100
                     (getBlock (blocks example_three) 3) (λ _, 0%Z) in
    infos (landingPadInfo example_three)
    = infos (landingPadInfo example_outer) ++ [info_of tC c; info_of tB b; info_of tA a] ∧
    outcome = dispatch (example_runtime 99 12)
                (info_of tA a :: info_of tB b :: info_of tC c
                 :: rev (infos (landingPadInfo example_outer))) ∧
    (∀ ciA ciB,
       catch_classinfo (info_of tA a) = Some ciA →
       catch_classinfo (info_of tB b) = Some ciB →
       rt_selector (example_runtime 99 12)
       ≠ rt_typeid_for (example_runtime 99 12) (DtoBitCast ciA (getPtrToType (DtoType Tint8))) →
       rt_selector (example_runtime 99 12)
       = rt_typeid_for (example_runtime 99 12) (DtoBitCast ciB (getPtrToType (DtoType Tint8))) →
       outcome = ([], Reached tB) ∧ tB ≠ tA ∧ tB ≠ tC).
Proof.
  apply (catch_dispatch_order (example_runtime 99 12) 3 1
           (example_catch_stmt 11 21) (example_catch_stmt 12 22) (example_catch_stmt 13 23)
           example_outer example_three 100 (λ _, 0%Z)).
  - vm_compute. reflexivity.
  - reflexivity.
  - simpl. lia.
  - vm_compute. reflexivity.
  - intros t Ht. simpl in Ht. apply list_elem_of_singleton in Ht. subst t. simpl. lia.
  - simpl. lia.
Defined.

(** *** A try statement inside a catch handler

    The catch constructor lowers the handler before [addCatch] stages the
    entry, and [push] splices whatever is staged.  When the handler of a
    later clause holds a try statement, that statement's [push] takes the
    clauses staged so far with it, and its [pop] drops them: they are
    missing from the landing pad of their own try statement. *)

(** C1: the order of the tests is not kept when a handler holds a try
    statement.  A try with the catches of classes 11, 12 and 13, in this
    order, is staged and pushed with landing block 0; the handler of the
    third clause is a try-finally statement.  The handler list then holds
    the third clause only and the selector call names class 13 only: run
    with an exception of class 12, the landing pad tests class 13 and resumes
    the unwind, and the catch block 5 of the second clause, which holds its
    handler [Stmt 22], is not reached.  With a straight-line handler in the
    third clause the same try reaches block 5. *)
Theorem catch_clauses_lost_to_handler_try :
  (addCatch toIR_with_try (example_catch_stmt 11 21) 1;;
   addCatch toIR_with_try (example_catch_stmt 12 22) 1;;
   addCatch toIR_with_try (example_catch_stmt 13 50) 1;;
   push toIR_with_try 0) example_start = Ok (tt, example_handler_try) ∧
  infos (landingPadInfo example_handler_try) = [info_of 6 (mkClassDeclaration 13 None)] ∧
  selectorCall (getBlock (blocks example_handler_try) 0)
  = Some [Inst 11 (LLPtr LLInt8);
          BitCast (FunctionRef (RuntimeFunction "_d_eh_personality")) (LLPtr LLInt8);
          ClassInfoSymbol 13] ∧
  drop 2 (getBlock (blocks example_handler_try) 5) = [Lowered (Stmt 22); Br 1] ∧
  run (example_runtime 99 12) (blocks example_handler_try)
    (λ b, bool_decide (b ∈ [4; 5; 6])) 100
    (getBlock (blocks example_handler_try) 0) (λ _, 0%Z)
  = ([], Resumed 99) ∧
  (addCatch toIR_with_try (example_catch_stmt 11 21) 1;;
   addCatch toIR_with_try (example_catch_stmt 12 22) 1;;
   addCatch toIR_with_try (example_catch_stmt 13 23) 1;;
   push toIR_with_try 0) example_start = Ok (tt, example_handler_plain) ∧
  run (example_runtime 99 12) (blocks example_handler_plain)
    (λ b, bool_decide (b ∈ [4; 5; 6])) 100
    (getBlock (blocks example_handler_plain) 0) (λ _, 0%Z)
  = ([], Reached 5).
Proof. split_and!; vm_compute; reflexivity. Qed.

(** C2, as the code has it: the selector call receives the exception
    pointer first (the value the landing block begins by capturing), then
    the personality function, then the class info of every catch entry of
    the handler list, the last appended entry first, and after them the
    constant 0 when the list holds a finally entry. *)
Theorem selector_arguments inBB st st' :
  constructLandingPad toIR_inline inBB st = Ok (tt, st') →
  inBB < nextBB st →
  getBlock (blocks st) inBB = [] →
  head (getBlock (blocks st') inBB) = Some (Call (nextValue st) eh_exception []) ∧
  selectorCall (getBlock (blocks st') inBB)
  = Some (Inst (nextValue st) (LLPtr LLInt8)
          :: CreateBitCast (FunctionRef (RuntimeFunction "_d_eh_personality"))
               (getPtrToType LLInt8)
          :: rev (omap catch_classinfo (infos (landingPadInfo st)))
          ++ (if existsb is_finally (infos (landingPadInfo st))
              then [DtoConstUint 0] else [])).
Proof.
  intros H Hin Hempty.
  destruct (constructLandingPad_block _ _ _ H Hin Hempty)
    as (ci & hf & hc & store & code & Hsel & Hstore & -> & _).
  apply selectorLoop_spec in Hsel as (-> & -> & _).
  rewrite app_nil_r. simpl orb. split; [done|].
  assert (∀ args, selectorList (Inst (nextValue st) (LLPtr LLInt8))
                    (rev (omap catch_classinfo (infos (landingPadInfo st))))
                    (existsb is_finally (infos (landingPadInfo st))) = args →
          selectorCall (Call (nextValue st) eh_exception [] :: store
                        ++ Call (S (nextValue st)) eh_selector args :: code) = Some args) as Hs.
  { intros args _. destruct Hstore as [-> | (v & p & ->)]; done. }
  rewrite (Hs _ eq_refl). unfold selectorList.
  destruct (existsb is_finally (infos (landingPadInfo st))); [done|].
  by rewrite app_nil_r.
Qed.

Lemma selector_arguments_witness :
  head (getBlock (blocks example_two_pad) 3)
  = Some (Call (nextValue example_two) eh_exception []) ∧
  selectorCall (getBlock (blocks example_two_pad) 3)
  = Some (Inst (nextValue example_two) (LLPtr LLInt8)
          :: CreateBitCast (FunctionRef (RuntimeFunction "_d_eh_personality"))
               (getPtrToType LLInt8)
          :: rev (omap catch_classinfo (infos (landingPadInfo example_two)))
          ++ (if existsb is_finally (infos (landingPadInfo example_two))
              then [DtoConstUint 0] else [])).
Proof.
  apply (selector_arguments 3 example_two example_two_pad).
  - vm_compute. reflexivity.
  - simpl. lia.
  - vm_compute. reflexivity.
Defined.

(** C2 as stated fails: the list does not begin with the personality
    function followed by the exception pointer, and the class infos are not
    offered outermost catch first: class 8 of the inner try precedes class 7
    of the outer one. *)
Lemma selector_arguments_counterexample :
  selectorCall (getBlock (blocks example_two_pad) 3)
  = Some [Inst 0 (LLPtr LLInt8);
          BitCast (FunctionRef (RuntimeFunction "_d_eh_personality")) (LLPtr LLInt8);
          ClassInfoSymbol 8; ClassInfoSymbol 7] ∧
  ¬ (∃ eh_ptr rest,
       selectorCall (getBlock (blocks example_two_pad) 3)
       = Some (BitCast (FunctionRef (RuntimeFunction "_d_eh_personality")) (LLPtr LLInt8)
               :: eh_ptr :: rest)).
Proof.
  split; [vm_compute; reflexivity|].
  intros (eh_ptr & rest & H). vm_compute in H. discriminate H.
Qed.




(** C4: with every catch entry resolved and no more finally entries than
    frames, the constructor succeeds.  The landing block begins by capturing
    the exception pointer; some block of the pad ends with the call of
    [_d_eh_resume_unwind] on that very value followed by [unreachable]; and
    when the selector matches no catch entry, running the pad executes the
    finally bodies, innermost first, and resumes the unwind with the
    exception pointer the runtime handed in. *)
Theorem resume_unwind_path inBB st :
  Forall resolved (infos (landingPadInfo st)) →
  length (filter (λ i, is_finally i = true) (infos (landingPadInfo st)))
    ≤ length (nInfos (landingPadInfo st)) →
  inBB < nextBB st →
  getBlock (blocks st) inBB = [] →
  (∀ t, t ∈ omap catch_target (infos (landingPadInfo st)) → t < nextBB st) →
  ∃ st',
    constructLandingPad toIR_inline inBB st = Ok (tt, st') ∧
    head (getBlock (blocks st') inBB) = Some (Call (nextValue st) eh_exception []) ∧
    (∃ b pre r,
       getBlock (blocks st') b
       = pre ++ [Call r (RuntimeFunction "_d_eh_resume_unwind")
                   [Inst (nextValue st) (LLPtr LLInt8)];
                 Unreachable]) ∧
    ∀ rt fuel env,
      no_match rt (infos (landingPadInfo st)) →
      3 * length (infos (landingPadInfo st)) + 4 ≤ fuel →
      run rt (blocks st') (is_target (infos (landingPadInfo st))) fuel
        (getBlock (blocks st') inBB) env
      = (omap finallyBody (rev (infos (landingPadInfo st))), Resumed (rt_exception rt)).
Proof.
  intros Hwf Hn Hin Hempty Htg.
  destruct (constructLandingPad_total inBB st Hwf Hn) as [st' H].
  exists st'. split; [done|].
  destruct (constructLandingPad_block _ _ _ H Hin Hempty)
    as (ci & hf & hc & store & code & _ & _ & Hblock & _).
  split; [by rewrite Hblock|]. split.
  - pose proof H as H'.
    apply constructLandingPad_inv in H' as (ci' & hf' & hc' & stw & _ & _ & ->).
    destruct (pad_finish_facts st stw) as (_ & Hft).
    eexists _, _, _. exact Hft.
  - intros rt fuel env Hno Hfuel.
    rewrite (constructLandingPad_run rt _ inBB st st' fuel env H); try done.
    + apply dispatch_no_match.
      * apply Forall_forall. intros i Hi. rewrite Forall_forall in Hwf. apply Hwf.
        apply list_elem_of_In, in_rev. by apply list_elem_of_In.
      * intros i ci' Hi. apply Hno. apply list_elem_of_In, in_rev. by apply list_elem_of_In.
    + intros k Hk. by apply (is_target_fresh _ (nextBB st)).
    + intros i t. apply is_target_hit.
Qed.

Lemma resume_unwind_path_witness :
  ∃ st',
    constructLandingPad toIR_inline 3 example_nested = Ok (tt, st') ∧
    head (getBlock (blocks st') 3) = Some (Call (nextValue example_nested) eh_exception []) ∧
    (∃ b pre r,
       getBlock (blocks st') b
       = pre ++ [Call r (RuntimeFunction "_d_eh_resume_unwind")
                   [Inst (nextValue example_nested) (LLPtr LLInt8)];
                 Unreachable]) ∧
    ∀ rt fuel env,
      no_match rt (infos (landingPadInfo example_nested)) →
      3 * length (infos (landingPadInfo example_nested)) + 4 ≤ fuel →
      run rt (blocks st') (is_target (infos (landingPadInfo example_nested))) fuel
        (getBlock (blocks st') 3) env
      = (omap finallyBody (rev (infos (landingPadInfo example_nested))),
         Resumed (rt_exception rt)).
Proof.
  apply (resume_unwind_path 3 example_nested).
  - apply List.Forall_cons; [right; split; eexists; reflexivity|].
    apply List.Forall_cons; [left; reflexivity|]. apply List.Forall_nil.
  - simpl. lia.
  - simpl. lia.
  - vm_compute. reflexivity.
  - intros t Ht. simpl in Ht. apply list_elem_of_singleton in Ht. subst t. simpl. lia.
Defined.

(** ** Exception storage *)

Lemma getExceptionStorage_twice st :
  ∃ v st1,
    getExceptionStorage st = Ok (v, st1) ∧
    catch_var (landingPadInfo st1) = Some v ∧
    getExceptionStorage st1 = Ok (v, st1) ∧
    (∀ cv, catch_var (landingPadInfo st) = Some cv → v = cv ∧ st1 = st) ∧
    (catch_var (landingPadInfo st) = None →
     allocas st1 = allocas st ++ [(nextValue st, DtoType (Tclass object), "catchvar")]).
Proof.
  destruct (catch_var (landingPadInfo st)) as [cv|] eqn:E.
  - exists cv, st. split_and!.
    + apply getExceptionStorage_Ok. by rewrite E.
    + done.
    + apply getExceptionStorage_Ok. by rewrite E.
    + intros ? [= <-]. done.
    + done.
  - eexists _, _. split_and!.
    + apply getExceptionStorage_Ok. rewrite E. split; reflexivity.
    + done.
    + apply getExceptionStorage_Ok. simpl. done.
    + done.
    + done.
Qed.

(** Runs a sequence of storage steps forward; [E] tells what the shared
    slot is and [Hl] what storage the variable has. *)
Ltac storage_leaf E Hl :=
  first
    [ apply gets_Ok; split; reflexivity
    | apply assert_Ok; split; [apply bool_decide_eq_true; exact Hl | reflexivity]
    | apply getExceptionStorage_Ok; simpl; rewrite ?E; split; reflexivity
    | apply DtoDeclarationExp_Ok; simpl; rewrite ?lookup_insert_eq, ?Hl; reflexivity
    | apply deref_Ok; split; [simpl; rewrite ?lookup_insert_eq; reflexivity | reflexivity]
    | apply DtoLoad_Ok; split; reflexivity
    | apply modify_Ok; reflexivity
    | apply skip_Ok; reflexivity ].

Ltac storage_run E Hl :=
  repeat first
    [ storage_leaf E Hl
    | apply bind_Ok; eexists _, _; split ].

Lemma assignCatchVarStorage_shared c v st :
  var c = Some v → nestedrefs_dim v = 0 → irLocal st !! vd_ident v = None →
  ∃ st' slot,
    assignCatchVarStorage c st = Ok (tt, st') ∧
    catch_var (landingPadInfo st') = Some slot ∧
    (∀ cv, catch_var (landingPadInfo st) = Some cv → slot = cv) ∧
    irLocal st' !! vd_ident v
    = Some (CreateBitCast slot (getPtrToType (DtoType (vd_type v)))) ∧
    allocas st'
    = allocas st ++ match catch_var (landingPadInfo st) with
                    | Some _ => []
                    | None => [(nextValue st, DtoType (Tclass object), "catchvar")]
                    end.
Proof.
  intros Hv Hd Hl. unfold assignCatchVarStorage. rewrite Hv.
  rewrite decide_True by done.
  destruct (catch_var (landingPadInfo st)) as [cv|] eqn:E.
  - destruct (decide (CreateBitCast cv (getPtrToType (DtoType (vd_type v))) ≠ cv))
      as [Hne|Heq].
    + eexists _, cv. split.
      { storage_run E Hl. rewrite decide_True by exact Hne. storage_run E Hl. }
      simpl. rewrite E, lookup_insert_eq, app_nil_r. split_and!; try done.
      by intros ? [= <-].
    + eexists _, cv. split.
      { storage_run E Hl. rewrite decide_False by exact Heq. storage_run E Hl. }
      simpl. rewrite E, lookup_insert_eq, app_nil_r. split_and!; try done.
      by intros ? [= <-].
  - set (slot := Inst (nextValue st) (LLPtr (DtoType (Tclass object)))).
    destruct (decide (CreateBitCast slot (getPtrToType (DtoType (vd_type v))) ≠ slot))
      as [Hne|Heq].
    + eexists _, slot. split.
      { storage_run E Hl. rewrite decide_True by exact Hne. storage_run E Hl. }
      simpl. rewrite lookup_insert_eq. split_and!; done.
    + eexists _, slot. split.
      { storage_run E Hl. rewrite decide_False by exact Heq. storage_run E Hl. }
      simpl. rewrite lookup_insert_eq. split_and!; done.
  Unshelve. all: exact tt.
Qed.

Lemma assignCatchVarStorage_own c v st :
  var c = Some v → nestedrefs_dim v ≠ 0 → irLocal st !! vd_ident v = None →
  (∀ cv, catch_var (landingPadInfo st) = Some cv →
         cv ≠ Inst (nextValue st) (LLPtr (DtoType (vd_type v)))) →
  ∃ st' own slot r,
    assignCatchVarStorage c st = Ok (tt, st') ∧
    own = Inst (nextValue st) (LLPtr (DtoType (vd_type v))) ∧
    irLocal st' !! vd_ident v = Some own ∧
    (nextValue st, DtoType (vd_type v), "var") ∈ allocas st' ∧
    catch_var (landingPadInfo st') = Some slot ∧
    (∀ cv, catch_var (landingPadInfo st) = Some cv → slot = cv) ∧
    own ≠ slot ∧
    getBlock (blocks st') (cur st)
    = getBlock (blocks st) (cur st)
      ++ [Load r slot;
          Store (CreateBitCast (Inst r (pointeeType (typeOf slot))) (DtoType (vd_type v))) own].
Proof.
  intros Hv Hd Hl Hfresh. unfold assignCatchVarStorage. rewrite Hv.
  rewrite decide_False by done.
  set (own := Inst (nextValue st) (LLPtr (DtoType (vd_type v)))).
  destruct (catch_var (landingPadInfo st)) as [cv|] eqn:E.
  - assert (own ≠ cv) as Hne by (intros Heq; apply (Hfresh cv eq_refl); by rewrite <- Heq).
    eexists _, own, cv, _. split.
    { storage_run E Hl. rewrite decide_True by exact Hne. storage_run E Hl. }
    simpl. rewrite E, lookup_insert_eq. unfold emit, cur. simpl.
    rewrite !getBlock_insert_eq.
    split_and!; try done.
    + rewrite elem_of_app, list_elem_of_singleton. by right.
    + by intros ? [= <-].
    + by rewrite <- app_assoc.
  - set (slot := Inst (S (nextValue st)) (LLPtr (DtoType (Tclass object)))).
    assert (own ≠ slot) as Hne by (unfold own, slot; intros [=]; lia).
    eexists _, own, slot, _. split.
    { storage_run E Hl. rewrite decide_True by exact Hne. storage_run E Hl. }
    simpl. rewrite lookup_insert_eq. unfold emit, cur. simpl.
    rewrite !getBlock_insert_eq.
    split_and!; try done.
    + rewrite !elem_of_app, !list_elem_of_singleton. left. by right.
    + by rewrite <- app_assoc.
  Unshelve. all: exact tt.
Qed.

(** C7: the shared slot is allocated by the first call of the accessor and
    by no later one, which all return it.  A catch variable that no nested
    function refers to ([cS]) gets the shared slot, cast to its type, and no
    slot of its own.  A catch variable that a nested function refers to
    ([cN]) gets a slot of its own, different from the shared one, and the
    constructor loads the shared slot and stores the value into that slot in
    the catch block, which runs after the landing pad has captured the
    exception. *)
Theorem exception_storage cS vS cN vN st :
  var cS = Some vS → nestedrefs_dim vS = 0 → irLocal st !! vd_ident vS = None →
  var cN = Some vN → nestedrefs_dim vN ≠ 0 → irLocal st !! vd_ident vN = None →
  (∀ cv, catch_var (landingPadInfo st) = Some cv →
         cv ≠ Inst (nextValue st) (LLPtr (DtoType (vd_type vN)))) →
  (∃ v st1,
     getExceptionStorage st = Ok (v, st1) ∧
     catch_var (landingPadInfo st1) = Some v ∧
     getExceptionStorage st1 = Ok (v, st1) ∧
     (∀ cv, catch_var (landingPadInfo st) = Some cv → v = cv ∧ st1 = st) ∧
     (catch_var (landingPadInfo st) = None →
      allocas st1 = allocas st ++ [(nextValue st, DtoType (Tclass object), "catchvar")])) ∧
  (∃ st' slot,
     assignCatchVarStorage cS st = Ok (tt, st') ∧
     catch_var (landingPadInfo st') = Some slot ∧
     (∀ cv, catch_var (landingPadInfo st) = Some cv → slot = cv) ∧
     irLocal st' !! vd_ident vS
     = Some (CreateBitCast slot (getPtrToType (DtoType (vd_type vS)))) ∧
     allocas st'
     = allocas st ++ match catch_var (landingPadInfo st) with
                     | Some _ => []
                     | None => [(nextValue st, DtoType (Tclass object), "catchvar")]
                     end) ∧
  (∃ st' own slot r,
     assignCatchVarStorage cN st = Ok (tt, st') ∧
     own = Inst (nextValue st) (LLPtr (DtoType (vd_type vN))) ∧
     irLocal st' !! vd_ident vN = Some own ∧
     (nextValue st, DtoType (vd_type vN), "var") ∈ allocas st' ∧
     catch_var (landingPadInfo st') = Some slot ∧
     (∀ cv, catch_var (landingPadInfo st) = Some cv → slot = cv) ∧
     own ≠ slot ∧
     getBlock (blocks st') (cur st)
     = getBlock (blocks st) (cur st)
       ++ [Load r slot;
           Store (CreateBitCast (Inst r (pointeeType (typeOf slot))) (DtoType (vd_type vN)))
             own]).
Proof.
  intros HS1 HS2 HS3 HN1 HN2 HN3 Hfresh. split_and!.
  - apply getExceptionStorage_twice.
  - by apply assignCatchVarStorage_shared.
  - by apply assignCatchVarStorage_own.
Qed.

Lemma exception_storage_witness :
  let cS := example_catch_stmt 12 22 in
  let vS := mkVarDeclaration 12 (Tclass (mkClassDeclaration 12 None)) 0 in
  let cN := example_nested_catch in
  let vN := mkVarDeclaration 13 (Tclass (mkClassDeclaration 13 None)) 1 in
  let st := example_start in
  (∃ v st1,
     getExceptionStorage st = Ok (v, st1) ∧
     catch_var (landingPadInfo st1) = Some v ∧
     getExceptionStorage st1 = Ok (v, st1) ∧
     (∀ cv, catch_var (landingPadInfo st) = Some cv → v = cv ∧ st1 = st) ∧
     (catch_var (landingPadInfo st) = None →
      allocas st1 = allocas st ++ [(nextValue st, DtoType (Tclass object), "catchvar")])) ∧
  (∃ st' slot,
     assignCatchVarStorage cS st = Ok (tt, st') ∧
     catch_var (landingPadInfo st') = Some slot ∧
     (∀ cv, catch_var (landingPadInfo st) = Some cv → slot = cv) ∧
     irLocal st' !! vd_ident vS
     = Some (CreateBitCast slot (getPtrToType (DtoType (vd_type vS)))) ∧
     allocas st'
     = allocas st ++ match catch_var (landingPadInfo st) with
                     | Some _ => []
                     | None => [(nextValue st, DtoType (Tclass object), "catchvar")]
                     end) ∧
  (∃ st' own slot r,
     assignCatchVarStorage cN st = Ok (tt, st') ∧
     own = Inst (nextValue st) (LLPtr (DtoType (vd_type vN))) ∧
     irLocal st' !! vd_ident vN = Some own ∧
     (nextValue st, DtoType (vd_type vN), "var") ∈ allocas st' ∧
     catch_var (landingPadInfo st') = Some slot ∧
     (∀ cv, catch_var (landingPadInfo st) = Some cv → slot = cv) ∧
     own ≠ slot ∧
     getBlock (blocks st') (cur st)
     = getBlock (blocks st) (cur st)
       ++ [Load r slot;
           Store (CreateBitCast (Inst r (pointeeType (typeOf slot))) (DtoType (vd_type vN)))
             own]).
Proof.
  apply (exception_storage (example_catch_stmt 12 22)
           (mkVarDeclaration 12 (Tclass (mkClassDeclaration 12 None)) 0)
           example_nested_catch
           (mkVarDeclaration 13 (Tclass (mkClassDeclaration 13 None)) 1)
           example_start).
  - reflexivity.
  - reflexivity.
  - reflexivity.
  - reflexivity.
  - simpl. lia.
  - reflexivity.
  - intros cv H. discriminate H.
Defined.

(** ** Further properties of the landing-pad code *)

(** X1: with statements lowered inline, the landing block that
    [constructLandingPad] fills, run from its first instruction, does what
    the reference dispatch does on the handler list read from its last entry
    to its first: the bodies of the finally entries are executed in that
    order, control leaves for the target of the first catch entry whose type
    id is the selector, and with no such entry the unwind is resumed. *)
Theorem landing_pad_refines_dispatch rt inBB st st' fuel env :
  constructLandingPad toIR_inline inBB st = Ok (tt, st') →
  inBB < nextBB st →
  getBlock (blocks st) inBB = [] →
  (∀ t, t ∈ omap catch_target (infos (landingPadInfo st)) → t < nextBB st) →
  3 * length (infos (landingPadInfo st)) + 4 ≤ fuel →
  run rt (blocks st') (is_target (infos (landingPadInfo st))) fuel
    (getBlock (blocks st') inBB) env
  = dispatch rt (rev (infos (landingPadInfo st))).
Proof.
  intros H Hin Hempty Htg Hfuel.
  apply (constructLandingPad_run rt _ inBB st st' fuel env H); try done.
  - intros k Hk. by apply (is_target_fresh _ (nextBB st)).
  - intros i t. apply is_target_hit.
Qed.

Lemma landing_pad_refines_dispatch_witness :
  run (example_runtime 99 7) (blocks example_pad)
    (is_target (infos (landingPadInfo example_nested))) 100
    (getBlock (blocks example_pad) 3) (λ _, 0%Z)
  = dispatch (example_runtime 99 7) (rev (infos (landingPadInfo example_nested))).
Proof.
  apply (landing_pad_refines_dispatch (example_runtime 99 7) 3 example_nested example_pad
           100 (λ _, 0%Z)).
  - vm_compute. reflexivity.
  - simpl. lia.
  - vm_compute. reflexivity.
  - intros t Ht. simpl in Ht. apply list_elem_of_singleton in Ht. subst t. simpl. lia.
  - simpl. lia.
Defined.

Lemma walk_undefined l : ∀ sel st,
  Forall resolved l →
  length (nInfos (landingPadInfo st)) < length (filter (λ i, is_finally i = true) l) →
  walk toIR_inline l sel st = Undefined.
Proof.
  induction l as [|rit rest IH]; intros sel st Hwf Hn; simpl.
  - simpl in Hn. lia.
  - inversion Hwf as [|? ? Hit Hrest]; subst.
    unfold resolved, catch_classinfo in Hit.
    destruct (finallyBody rit) as [body|] eqn:Ef.
    + rewrite filter_cons_True in Hn by (unfold is_finally; by rewrite Ef). simpl in Hn.
      destruct (nInfos (landingPadInfo st)) as [|n ns] eqn:En.
      * unfold mbind, Gen_bind, gets, deref. rewrite En. done.
      * unfold mbind, Gen_bind, gets, deref, ret, mret, Gen_ret, modify, toIR_inline.
        rewrite En. simpl.
        apply IH; [done|]. simpl. rewrite En. simpl in *. lia.
    + rewrite filter_cons_False in Hn by (unfold is_finally; by rewrite Ef).
      destruct Hit as [Hit|[[ci Hci] [t Ht]]]; [by unfold is_finally in Hit; rewrite Ef in Hit|].
      destruct (catchType rit) as [cd|]; [|done]. simpl in Hci.
      destruct (irStruct cd) as [irs|] eqn:Eir; [|done].
      unfold mbind, Gen_bind, BasicBlock_Create, deref, ret, mret, Gen_ret, modify,
        CreateCall, CreateICmpEQ, CreateCondBr.
      simpl. rewrite Eir, Ht. simpl.
      apply IH; [done|]. done.
Qed.

(** The constructor up to the walk: what it does once the first loop has
    gone through. *)
Lemma constructLandingPad_walk toIR inBB st ci hf hc :
  selectorLoop (infos (landingPadInfo st)) ([], false, false) st = Ok ((ci, hf, hc), st) →
  constructLandingPad toIR inBB st
  = match walk toIR (rev (infos (landingPadInfo st))) (Inst (S (nextValue st)) LLInt32)
            (pad_header inBB ci hf hc st) with
    | Ok (_, stw) => Ok (tt, pad_finish st stw)
    | Fatal msg => Fatal msg
    | Undefined => Undefined
    end.
Proof.
  intros Hsel.
  unfold constructLandingPad, CreateStore, CreateUnreachable, CreateCall, skip, ret.
  unfold mbind, Gen_bind, gets, modify, mret, Gen_ret.
  cbn [landingPadInfo emit set_blocks set_nextValue set_scope infos catch_var nextValue scope
       scope_end scope_begin blocks nInfos].
  erewrite selectorLoop_indep by exact Hsel.
  unfold pad_header, pad_finish, selectorList.
  cbn [landingPadInfo emit set_blocks set_nextValue set_scope infos catch_var nextValue scope
       scope_end scope_begin blocks nInfos].
  destruct (catch_var (landingPadInfo st)) as [cv|]; [destruct hc|];
    cbn [landingPadInfo emit set_blocks set_nextValue set_scope infos catch_var nextValue scope
         scope_end scope_begin blocks nInfos returnType pad_update set_landingPadInfo
         set_infos set_nInfos];
    match goal with |- match ?w with _ => _ end = _ => destruct w as [[[] stw]| |] end;
    reflexivity.
Qed.

(** X2: with every entry resolved and statements lowered inline,
    [constructLandingPad] returns exactly when the handler list has no more
    finally entries than there are checkpoints; with more, the walk reads
    the top of an empty checkpoint stack and the behaviour is undefined. *)
Theorem constructLandingPad_defined_iff inBB st :
  Forall resolved (infos (landingPadInfo st)) →
  let finallys := length (filter (λ i, is_finally i = true) (infos (landingPadInfo st))) in
  let frames := length (nInfos (landingPadInfo st)) in
  (finallys ≤ frames → ∃ st', constructLandingPad toIR_inline inBB st = Ok (tt, st')) ∧
  (frames < finallys → constructLandingPad toIR_inline inBB st = Undefined).
Proof.
  intros Hwf finallys frames. split; [by apply constructLandingPad_total|].
  intros Hn.
  destruct (selectorLoop_total _ ([], false, false) st Hwf) as [[[ci hf] hc] Hsel].
  rewrite (constructLandingPad_walk _ _ _ _ _ _ Hsel).
  rewrite walk_undefined; [done| |].
  - apply Forall_forall. intros i Hi. rewrite Forall_forall in Hwf. apply Hwf.
    apply list_elem_of_In, in_rev. by apply list_elem_of_In.
  - destruct (pad_header_stack inBB ci hf hc st) as (_ & -> & _).
    rewrite length_filter_rev. done.
Qed.

Lemma constructLandingPad_defined_iff_witness :
  let finallys :=
    length (filter (λ i, is_finally i = true) (infos (landingPadInfo example_nested))) in
  let frames := length (nInfos (landingPadInfo example_nested)) in
  (finallys ≤ frames →
   ∃ st', constructLandingPad toIR_inline 3 example_nested = Ok (tt, st')) ∧
  (frames < finallys → constructLandingPad toIR_inline 3 example_nested = Undefined).
Proof.
  apply (constructLandingPad_defined_iff 3 example_nested).
  apply List.Forall_cons; [right; split; eexists; reflexivity|].
  apply List.Forall_cons; [left; reflexivity|]. apply List.Forall_nil.
Defined.

Lemma selectorLoop_unresolved pre : ∀ i post msg acc st,
  Forall (λ j, unresolved_message j = None) pre →
  unresolved_message i = Some msg →
  selectorLoop (pre ++ i :: post) acc st = Fatal msg.
Proof.
  induction pre as [|j pre IH]; intros i post msg [[args hf] hc] st Hpre Hi; simpl.
  - unfold unresolved_message in Hi.
    destruct (finallyBody i); [done|].
    destruct (catchType i) as [cd|]; [|by injection Hi as <-].
    destruct (irStruct cd) eqn:E; [done|]. injection Hi as <-.
    unfold mbind, Gen_bind, assert, deref, ret, mret, Gen_ret. simpl. by rewrite E.
  - inversion Hpre as [|? ? Hj Hrest]; subst. unfold unresolved_message in Hj.
    destruct (finallyBody j); [by apply IH|].
    destruct (catchType j) as [cd|]; [|done].
    destruct (irStruct cd) eqn:E; [|done].
    unfold mbind, Gen_bind, assert, deref, ret, mret, Gen_ret. simpl. rewrite E. simpl.
    by apply IH.
Qed.

(** X3: the first entry of the handler list that is a catch without a
    class, or with a class that has not been generated, stops
    [constructLandingPad] on the [assert] that names what is missing,
    whatever the lowering of statements does: the entries are checked before
    anything is walked. *)
Theorem constructLandingPad_unresolved_class toIR inBB st pre i post msg :
  infos (landingPadInfo st) = pre ++ i :: post →
  Forall (λ j, unresolved_message j = None) pre →
  unresolved_message i = Some msg →
  constructLandingPad toIR inBB st = Fatal msg.
Proof.
  intros Hl Hpre Hi. unfold constructLandingPad, CreateCall.
  unfold mbind, Gen_bind, gets, modify.
  cbn [landingPadInfo emit set_blocks set_nextValue set_scope infos].
  rewrite Hl. by rewrite (selectorLoop_unresolved pre i post msg).
Qed.

Lemma constructLandingPad_unresolved_class_witness :
  constructLandingPad toIR_inline 3 example_unresolved = Fatal "it->catchType->ir.irStruct".
Proof.
  apply (constructLandingPad_unresolved_class toIR_inline 3 example_unresolved
           [example_catch 7 2]
           (mkIRLandingPadInfo (Some 1) None (Some (mkClassDeclaration 8 None))) []).
  - reflexivity.
  - apply List.Forall_cons; [reflexivity|]. apply List.Forall_nil.
  - reflexivity.
Defined.

(** X4: when [push] returns, [get] answers the landing block just pushed,
    the staged entries have been appended to the handler list in the order
    they were staged in, and the new checkpoint is the length the list had
    before.  Statement lowering is assumed to leave the unwind targets
    balanced. *)
Theorem push_installs_target toIR inBB st st' :
  preserves padBBs toIR →
  push toIR inBB st = Ok (tt, st') →
  get (landingPadInfo st') = Some inBB ∧
  padBBs (landingPadInfo st') = inBB :: padBBs (landingPadInfo st) ∧
  infos (landingPadInfo st') = infos (landingPadInfo st) ++ unpushed_infos (landingPadInfo st) ∧
  nInfos (landingPadInfo st') = length (infos (landingPadInfo st)) :: nInfos (landingPadInfo st).
Proof.
  intros Hp H. apply push_Ok_inv in H as (stc & Hc & ->).
  pose proof (constructLandingPad_padBBs _ _ _ _ Hp Hc) as E3.
  apply constructLandingPad_restores in Hc as [E1 E2].
  unfold get. simpl in *. rewrite E1, E2, E3. done.
Qed.

Lemma push_installs_target_witness :
  get (landingPadInfo example_pushed) = Some 3 ∧
  padBBs (landingPadInfo example_pushed) = 3 :: padBBs (landingPadInfo example_state) ∧
  infos (landingPadInfo example_pushed)
  = infos (landingPadInfo example_state) ++ unpushed_infos (landingPadInfo example_state) ∧
  nInfos (landingPadInfo example_pushed)
  = length (infos (landingPadInfo example_state)) :: nInfos (landingPadInfo example_state).
Proof.
  apply (push_installs_target toIR_inline 3 example_state example_pushed).
  - apply toIR_inline_preserves.
  - vm_compute. reflexivity.
Defined.

(** *** The catch constructor: what it refuses *)

Lemma addCatch_local_set toIR c v e st :
  var c = Some v → nestedrefs_dim v = 0 → is_Some (irLocal st !! vd_ident v) →
  addCatch toIR c e st = Fatal "!catchstmt->var->ir.irLocal".
Proof.
  intros Hv Hd [x Hx].
  unfold addCatch, IRLandingPadInfo_catch, assignCatchVarStorage, BasicBlock_Create.
  rewrite Hv. rewrite decide_True by done.
  unfold mbind, Gen_bind, gets, modify, assert.
  cbn [irLocal set_scope set_nextBB set_blocks]. rewrite Hx.
  rewrite bool_decide_eq_false_2 by done. done.
Qed.

Lemma assignCatchVarStorage_local c v st st' :
  var c = Some v →
  assignCatchVarStorage c st = Ok (tt, st') →
  is_Some (irLocal st' !! vd_ident v).
Proof.
  intros Hv H. unfold assignCatchVarStorage in H. rewrite Hv in H.
  apply bind_Ok in H as ([] & s1 & H1 & H).
  apply bind_Ok in H as ([] & s2 & H2 & H).
  apply bind_Ok in H as (l & s3 & H3 & H). apply gets_Ok in H3 as [-> ->].
  apply bind_Ok in H as (value & s4 & H4 & H). apply deref_Ok in H4 as [H4 ->].
  apply bind_Ok in H as (storage & s5 & H5 & H).
  assert (irLocal s5 = irLocal s2) as E5.
  { apply getExceptionStorage_Ok in H5.
    destruct (catch_var (landingPadInfo s2)); destruct H5 as [_ ->]; done. }
  assert (irLocal st' = irLocal s5) as E.
  { destruct (decide (value ≠ storage)); [|by gen_inv].
    apply bind_Ok in H as (v6 & s6 & H6 & H).
    apply getExceptionStorage_Ok in H6.
    apply bind_Ok in H as (ld & s7 & H7 & H). apply DtoLoad_Ok in H7 as [-> ->].
    unfold DtoStore, CreateStore in H. apply modify_Ok in H. subst.
    destruct (catch_var (landingPadInfo s5)); destruct H6 as [_ ->]; done. }
  rewrite E, E5, H4. done.
Qed.

(** X5: a catch clause whose variable no nested function refers to can be
    staged once.  The constructor gives the variable its storage; a second
    [addCatch] of the same clause finds it and stops on the [assert] that
    the variable has none, before the handler is lowered. *)
Theorem addCatch_twice_asserts toIR c v e e' st st1 :
  var c = Some v → nestedrefs_dim v = 0 →
  addCatch toIR_inline c e st = Ok (tt, st1) →
  addCatch toIR c e' st1 = Fatal "!catchstmt->var->ir.irLocal".
Proof.
  intros Hv Hd H. apply (addCatch_local_set toIR c v); [done|done|].
  unfold addCatch in H.
  apply bind_Ok in H as (info & s & H & Hm). apply modify_Ok in Hm. subst st1.
  unfold IRLandingPadInfo_catch in H.
  apply bind_Ok in H as (tgt & s1 & H1 & H). apply BasicBlock_Create_Ok in H1 as [-> ->].
  apply bind_Ok in H as ([] & s2 & H2 & H). apply modify_Ok in H2. subst s2.
  apply bind_Ok in H as ([] & s3 & H3 & H).
  apply (assignCatchVarStorage_local c v) in H3; [|done].
  apply bind_Ok in H as ([] & s4 & H4 & H).
  assert (irLocal s4 = irLocal s3) as E4.
  { destruct (handler c); [|by gen_inv].
    unfold toIR_inline in H4. apply modify_Ok in H4. by subst. }
  apply bind_Ok in H as (returned & s5 & H5 & H). apply gets_Ok in H5 as [-> ->].
  apply bind_Ok in H as ([] & s6 & H6 & H).
  assert (irLocal s6 = irLocal s4) as E6.
  { destruct (scopereturned s4); [by gen_inv|].
    unfold CreateBr in H6. apply modify_Ok in H6. by subst. }
  gen_inv. simpl. by rewrite E6, E4.
Qed.

Lemma addCatch_twice_asserts_witness :
  addCatch toIR_inline (example_catch_stmt 11 21) 2 example_one_catch
  = Fatal "!catchstmt->var->ir.irLocal".
Proof.
  apply (addCatch_twice_asserts toIR_inline (example_catch_stmt 11 21)
           (mkVarDeclaration 11 (Tclass (mkClassDeclaration 11 None)) 0) 1 2
           example_start example_one_catch).
  - reflexivity.
  - reflexivity.
  - vm_compute. reflexivity.
Defined.

(** X6: [addCatch] stages nothing for a clause whose type is missing or is
    not, under its typedefs, a class: it never returns.  For a clause
    without variable and handler the run ends on the [assert] of the type,
    or on that of the class, after the catch block has been created. *)
Theorem addCatch_requires_class toIR c e st :
  catch_class c = None →
  (∀ st', addCatch toIR c e st ≠ Ok (tt, st')) ∧
  (var c = None → handler c = None →
   addCatch toIR c e st
   = Fatal (match type c with Some _ => "catchType" | None => "catchstmt->type" end)).
Proof.
  intros Hc. split.
  - intros st' H. unfold addCatch, IRLandingPadInfo_catch in H. gen_inv.
    unfold catch_class in Hc.
    match goal with H : type c = Some _ |- _ => rewrite H in Hc end. simpl in Hc.
    congruence.
  - intros Hv Hh.
    unfold addCatch, IRLandingPadInfo_catch, assignCatchVarStorage, BasicBlock_Create, CreateBr.
    rewrite Hv, Hh. unfold catch_class in Hc.
    unfold mbind, Gen_bind, gets, modify, assert, skip, ret, mret, Gen_ret, deref.
    unfold scopereturned, emit.
    cbn [scope set_scope set_nextBB set_blocks blocks scope_begin].
    rewrite getBlock_insert_eq. simpl.
    destruct (type c) as [ty|]; simpl in *; [|done].
    rewrite Hc. simpl. done.
Qed.

Lemma addCatch_requires_class_witness :
  (∀ st', addCatch toIR_inline (mkCatch (Some (Ttypedef Tint8)) None None) 1 example_start
          ≠ Ok (tt, st')) ∧
  (var (mkCatch (Some (Ttypedef Tint8)) None None) = None →
   handler (mkCatch (Some (Ttypedef Tint8)) None None) = None →
   addCatch toIR_inline (mkCatch (Some (Ttypedef Tint8)) None None) 1 example_start
   = Fatal (match type (mkCatch (Some (Ttypedef Tint8)) None None) with
            | Some _ => "catchType"
            | None => "catchstmt->type"
            end)).
Proof.
  apply (addCatch_requires_class toIR_inline (mkCatch (Some (Ttypedef Tint8)) None None) 1
           example_start).
  reflexivity.
Defined.

(** *** The catch block *)

Lemma appends_refl st : appends [] st st.
Proof. unfold appends. by rewrite app_nil_r. Qed.

Lemma appends_trans c1 c2 st1 st2 st3 :
  appends c1 st1 st2 → appends c2 st2 st3 → appends (c1 ++ c2) st1 st3.
Proof.
  unfold appends, cur. intros [A1 A2] [B1 B2]. rewrite A1 in B1, B2.
  split; [done|]. by rewrite B2, A2, app_assoc.
Qed.

Lemma appends_emit i st : appends [i] st (emit i st).
Proof. unfold appends, emit, cur. simpl. by rewrite getBlock_insert_eq. Qed.

Lemma getExceptionStorage_appends v st st' :
  getExceptionStorage st = Ok (v, st') → appends [] st st'.
Proof.
  intros H. apply getExceptionStorage_Ok in H.
  destruct (catch_var (landingPadInfo st)); destruct H as [-> ->];
    unfold appends; simpl; by rewrite app_nil_r.
Qed.

Lemma DtoDeclarationExp_appends vd st st' :
  DtoDeclarationExp vd st = Ok (tt, st') → appends [] st st'.
Proof.
  intros H. apply DtoDeclarationExp_Ok in H.
  destruct (irLocal st !! vd_ident vd); subst;
    unfold appends; simpl; by rewrite app_nil_r.
Qed.

Lemma DtoLoad_appends p v st st' :
  DtoLoad p st = Ok (v, st') → appends [Load (nextValue st) p] st st'.
Proof.
  intros H. apply DtoLoad_Ok in H as [-> ->].
  unfold appends, emit, cur. simpl. by rewrite getBlock_insert_eq.
Qed.

Lemma assignCatchVarStorage_appends c st st' :
  assignCatchVarStorage c st = Ok (tt, st') →
  ∃ code, appends code st st' ∧ Forall (λ i, isTerminator i = false) code ∧
          (var c = None → code = []).
Proof.
  unfold assignCatchVarStorage. intros H.
  destruct (var c) as [v|]; [|gen_inv; exists []; split_and!; [apply appends_refl|done|done]].
  apply bind_Ok in H as ([] & s1 & H1 & H).
  assert (appends [] st s1) as E1.
  { clear H. destruct (decide (nestedrefs_dim v = 0)); gen_inv; [|apply appends_refl].
    match goal with H : getExceptionStorage _ = Ok _ |- _ =>
      apply getExceptionStorage_appends in H; destruct H as [A1 A2] end.
    split; [done|]. exact A2. }
  apply bind_Ok in H as ([] & s2 & H2 & H).
  apply bind_Ok in H as (l & s3 & H3 & H). apply gets_Ok in H3 as [-> ->].
  apply bind_Ok in H as (value & s4 & H4 & H). apply deref_Ok in H4 as [H4 ->].
  apply bind_Ok in H as (storage & s5 & H5 & H).
  apply DtoDeclarationExp_appends in H2. apply getExceptionStorage_appends in H5.
  pose proof (appends_trans _ _ _ _ _ E1 (appends_trans _ _ _ _ _ H2 H5)) as E5.
  simpl in E5.
  destruct (decide (value ≠ storage)).
  - apply bind_Ok in H as (v6 & s6 & H6 & H). apply getExceptionStorage_appends in H6.
    apply bind_Ok in H as (ld & s7 & H7 & H). apply DtoLoad_appends in H7.
    unfold DtoStore, CreateStore in H. apply modify_Ok in H. subst.
    eexists. split_and!.
    + eapply appends_trans; [exact E5|]. eapply appends_trans; [exact H6|].
      eapply appends_trans; [exact H7|]. apply appends_emit.
    + simpl. repeat constructor.
    + done.
  - gen_inv. exists []. split_and!; [done|done|done].
Qed.

(** X7: with statements lowered inline, [addCatch] leaves the generator in
    the catch block it has created, and that block holds the code that gives
    the catch variable its value (none without a variable), the handler, and
    as its only terminator a branch to [end_]. *)
Theorem catch_block_falls_through c e st st' :
  addCatch toIR_inline c e st = Ok (tt, st') →
  scope st' = mkIRScope (nextBB st) e ∧
  ∃ storage,
    getBlock (blocks st') (nextBB st)
    = storage ++ match handler c with Some h => [Lowered h] | None => [] end ++ [Br e] ∧
    Forall (λ i, isTerminator i = false) storage ∧
    (var c = None → storage = []).
Proof.
  unfold addCatch. intros H.
  apply bind_Ok in H as (info & s & H & Hm). apply modify_Ok in Hm. subst st'.
  unfold IRLandingPadInfo_catch in H.
  apply bind_Ok in H as (tgt & s1 & H1 & H). apply BasicBlock_Create_Ok in H1 as [-> ->].
  apply bind_Ok in H as ([] & s2 & H2 & H). apply modify_Ok in H2. subst s2.
  apply bind_Ok in H as ([] & s3 & H3 & H).
  apply assignCatchVarStorage_appends in H3 as (storage & H3 & Hst & Hnone).
  apply bind_Ok in H as ([] & s4 & H4 & H).
  set (hcode := match handler c with Some h => [Lowered h] | None => [] end).
  assert (appends hcode s3 s4) as E4.
  { unfold hcode. destruct (handler c); [|gen_inv; apply appends_refl].
    unfold toIR_inline in H4. apply modify_Ok in H4. subst. apply appends_emit. }
  pose proof (appends_trans _ _ _ _ _ H3 E4) as [A1 A2].
  unfold cur in A2. cbn [scope set_scope scope_begin blocks set_nextBB set_blocks] in A1, A2.
  rewrite getBlock_insert_eq, app_nil_l in A2.
  apply bind_Ok in H as (returned & s5 & H5 & H). apply gets_Ok in H5 as [-> ->].
  assert (scopereturned s4 = false) as Hret.
  { unfold scopereturned. rewrite A1. simpl. rewrite A2.
    assert (Forall (λ i, isTerminator i = false) (storage ++ hcode)) as Hall.
    { apply Forall_app. split; [done|]. unfold hcode. destruct (handler c); repeat constructor. }
    destruct (last (storage ++ hcode)) as [i|] eqn:El; [|done].
    apply last_Some_elem_of in El. rewrite Forall_forall in Hall. by apply Hall. }
  rewrite Hret in H.
  apply bind_Ok in H as ([] & s6 & H6 & H). unfold CreateBr in H6. apply modify_Ok in H6.
  subst s6. gen_inv. simpl. split; [done|].
  exists storage. split_and!; [|done|done].
  unfold emit. simpl. rewrite A1. simpl. rewrite getBlock_insert_eq, A2.
  by rewrite <- app_assoc.
Qed.

Lemma catch_block_falls_through_witness :
  scope example_one_catch = mkIRScope (nextBB example_start) 1 ∧
  ∃ storage,
    getBlock (blocks example_one_catch) (nextBB example_start)
    = storage ++ match handler (example_catch_stmt 11 21) with
                 | Some h => [Lowered h]
                 | None => []
                 end ++ [Br 1] ∧
    Forall (λ i, isTerminator i = false) storage ∧
    (var (example_catch_stmt 11 21) = None → storage = []).
Proof.
  apply (catch_block_falls_through (example_catch_stmt 11 21) 1 example_start example_one_catch).
  vm_compute. reflexivity.
Defined.

(** *** Entries staged through the interface are resolved *)

Lemma codegen_irStruct cd : is_Some (irStruct (codegen cd)).
Proof. unfold codegen. destruct (irStruct cd) eqn:E; simpl; [by rewrite E|done]. Qed.

Lemma info_of_resolved t cd : resolved (info_of t cd).
Proof.
  right. unfold catch_classinfo, info_of. simpl.
  destruct (codegen_irStruct cd) as [s ->]. split; by eexists.
Qed.

Section Resolved.

Variable toIR : Statement → Gen unit.
Hypothesis Hi : preserves infos toIR.
Hypothesis Hu : preserves unpushed_infos toIR.
Hypothesis Hn : preserves nInfos toIR.
Hypothesis Hp : preserves padBBs toIR.

Lemma IRLandingPadInfo_catch_info c e info st st' :
  IRLandingPadInfo_catch toIR c e st = Ok (info, st') →
  resolved info ∧
  unpushed_infos (landingPadInfo st') = unpushed_infos (landingPadInfo st).
Proof.
  unfold IRLandingPadInfo_catch. intros H.
  apply bind_Ok in H as (tgt & s1 & H1 & H). apply BasicBlock_Create_Ok in H1 as [-> ->].
  apply bind_Ok in H as ([] & s2 & H2 & H). apply modify_Ok in H2. subst s2.
  apply bind_Ok in H as ([] & s3 & H3 & H).
  apply assignCatchVarStorage_emits in H3 as (_ & _ & _ & _ & _ & A6 & _).
  apply bind_Ok in H as ([] & s4 & H4 & H).
  assert (unpushed_infos (landingPadInfo s4) = unpushed_infos (landingPadInfo s3)) as E4.
  { destruct (handler c); [by apply Hu in H4|by gen_inv]. }
  apply bind_Ok in H as (returned & s5 & H5 & H). apply gets_Ok in H5 as [-> ->].
  apply bind_Ok in H as ([] & s6 & H6 & H).
  assert (unpushed_infos (landingPadInfo s6) = unpushed_infos (landingPadInfo s4)) as E6.
  { destruct (scopereturned s4); [by gen_inv|].
    unfold CreateBr in H6. apply modify_Ok in H6. by subst. }
  gen_inv. split; [apply (info_of_resolved (nextBB st))|].
  by rewrite E6, E4, A6.
Qed.

Lemma walk_unpushed l : ∀ sel st st',
  walk toIR l sel st = Ok (tt, st') →
  unpushed_infos (landingPadInfo st') = unpushed_infos (landingPadInfo st).
Proof.
  induction l as [|rit rest IH]; intros sel st st' H; simpl in H.
  - by gen_inv.
  - apply bind_Ok in H as ([] & st2 & H1 & H2). apply IH in H2. rewrite H2.
    destruct (finallyBody rit).
    + gen_inv. match goal with H : toIR _ _ = Ok _ |- _ => apply Hu in H; rewrite H end.
      done.
    + prim_inv. done.
Qed.

Lemma constructLandingPad_unpushed inBB st st' :
  constructLandingPad toIR inBB st = Ok (tt, st') →
  unpushed_infos (landingPadInfo st') = unpushed_infos (landingPadInfo st).
Proof.
  intros H. apply constructLandingPad_inv in H as (ci & hf & hc & stw & _ & Hw & ->).
  apply walk_unpushed in Hw. unfold pad_finish. simpl. rewrite Hw. unfold pad_header.
  destruct (catch_var (landingPadInfo st)); [destruct hc|]; done.
Qed.

Lemma step_entries_ok op st st' :
  entries_ok (landingPadInfo st) →
  step toIR op st = Ok (tt, st') →
  entries_ok (landingPadInfo st').
Proof.
  intros (Hok & Hin & Hun) H.
  pose proof (step_stack_ok toIR op st st' Hi Hn Hp Hok H) as Hok'.
  split; [done|]. clear Hok'.
  destruct op as [c e|s|bb|]; simpl in H.
  - unfold addCatch in H. apply bind_Ok in H as (info & s1 & H1 & H). apply modify_Ok in H.
    subst st'.
    pose proof (IRLandingPadInfo_catch_info _ _ _ _ _ H1) as [Hr Eu].
    apply IRLandingPadInfo_catch_stack in H1 as (E1 & _ & _); [|done..].
    simpl. rewrite E1, Eu. split; [done|]. by constructor.
  - unfold addFinally in H. apply modify_Ok in H. subst st'. simpl.
    split; [done|]. constructor; [by left|done].
  - apply push_Ok_inv in H as (stc & Hc & ->).
    pose proof (constructLandingPad_unpushed _ _ _ Hc) as Eu.
    apply constructLandingPad_restores in Hc as [E1 _].
    simpl in *. rewrite E1, Eu. split; [|done]. apply Forall_app. done.
  - apply pop_Ok_inv in H as (bb & bbs & n & ns & Eb & En & ->).
    destruct Hok as [_ Hc]. rewrite En in Hc. destruct Hc as [Hle _].
    simpl. rewrite resize_le by done. split; [|done]. by apply Forall_take.
Qed.

Lemma steps_entries_ok ops : ∀ st st',
  entries_ok (landingPadInfo st) →
  steps toIR ops st = Ok (tt, st') →
  entries_ok (landingPadInfo st').
Proof.
  induction ops as [|op rest IH]; intros st st' Hok H; simpl in H.
  - gen_inv. done.
  - apply bind_Ok in H as ([] & st1 & H1 & H2).
    eapply IH; [|exact H2]. by eapply step_entries_ok.
Qed.

End Resolved.

(** X8: after every sequence of [addCatch], [addFinally], [push] and [pop]
    that runs from the empty scope stack, every entry of the handler list
    and every staged entry is a finally, or a catch with a target block and
    a generated class: the checks of [constructLandingPad] on the entries
    cannot fail on what the interface has put there.  Statement lowering is
    assumed to leave the scope stack as it found it. *)
Theorem staged_entries_resolved toIR ops st st' :
  preserves infos toIR → preserves unpushed_infos toIR →
  preserves nInfos toIR → preserves padBBs toIR →
  landingPadInfo st = IRLandingPad_init →
  steps toIR ops st = Ok (tt, st') →
  Forall resolved (infos (landingPadInfo st')) ∧
  Forall resolved (unpushed_infos (landingPadInfo st')).
Proof.
  intros Hi Hu Hn Hp Hinit H.
  apply (steps_entries_ok toIR Hi Hu Hn Hp ops st st') in H; [by destruct H as (_ & ? & ?)|].
  rewrite Hinit. split_and!; [split; simpl; done|constructor|constructor].
Qed.

Lemma staged_entries_resolved_witness :
  Forall resolved (infos (landingPadInfo example_after_ops)) ∧
  Forall resolved (unpushed_infos (landingPadInfo example_after_ops)).
Proof.
  apply (staged_entries_resolved toIR_inline example_ops example_start example_after_ops).
  - apply toIR_inline_preserves.
  - apply toIR_inline_preserves.
  - apply toIR_inline_preserves.
  - apply toIR_inline_preserves.
  - reflexivity.
  - vm_compute. reflexivity.
Defined.

(** *** What the constructor touches *)

Lemma walk_inline_frame l : ∀ sel st st',
  walk toIR_inline l sel st = Ok (tt, st') →
  nextBB st' = nextBB st + catches l ∧
  nextValue st' = nextValue st + 2 * catches l ∧
  catch_var (landingPadInfo st') = catch_var (landingPadInfo st) ∧
  irLocal st' = irLocal st ∧
  allocas st' = allocas st.
Proof.
  unfold catches.
  induction l as [|rit rest IH]; intros sel st st' H; simpl in H.
  - gen_inv. simpl. split_and!; try done; lia.
  - apply bind_Ok in H as ([] & st2 & H1 & H2). apply IH in H2 as (B1 & B2 & B3 & B4 & B5).
    rewrite B1, B2, B3, B4, B5. clear IH B1 B2 B3 B4 B5.
    destruct (finallyBody rit) eqn:Ef.
    + rewrite filter_cons_False by (unfold is_finally; rewrite Ef; done).
      prim_inv. simpl. done.
    + rewrite filter_cons_True by (unfold is_finally; rewrite Ef; done).
      prim_inv. simpl. split_and!; try done; lia.
Qed.

Lemma catches_rev l : catches (rev l) = catches l.
Proof. unfold catches. apply length_filter_rev. Qed.

Lemma IRLandingPad_eq p q :
  infos p = infos q → unpushed_infos p = unpushed_infos q → nInfos p = nInfos q →
  padBBs p = padBBs q → catch_var p = catch_var q → p = q.
Proof. destruct p, q. simpl. by intros -> -> -> -> ->. Qed.

(** X9: with statements lowered inline, [constructLandingPad] gives the
    generator back in the scope it was in, with the scope stack, the storage
    of the variables and the allocas as they were, and with every block that
    existed before, other than the landing block, unchanged; it has created
    one block for each catch entry of the handler list, and three values and
    two more for each catch entry. *)
Theorem constructLandingPad_footprint inBB st st' :
  constructLandingPad toIR_inline inBB st = Ok (tt, st') →
  inBB < nextBB st →
  scope st' = scope st ∧
  nextBB st' = nextBB st + catches (infos (landingPadInfo st)) ∧
  nextValue st' = nextValue st + 3 + 2 * catches (infos (landingPadInfo st)) ∧
  landingPadInfo st' = landingPadInfo st ∧
  irLocal st' = irLocal st ∧
  allocas st' = allocas st ∧
  ∀ k, k < nextBB st → k ≠ inBB → blocks st' !! k = blocks st !! k.
Proof.
  intros H Hin.
  pose proof (constructLandingPad_inline_frame _ _ _ H Hin) as (_ & F2 & F3 & F4).
  pose proof (constructLandingPad_restores _ _ _ _ H) as [E1 E2].
  apply constructLandingPad_inv in H as (ci & hf & hc & stw & _ & Hw & ->).
  apply walk_inline_frame in Hw as (W1 & W2 & W3 & W4 & W5).
  rewrite catches_rev in W1, W2.
  destruct (pad_header_facts inBB ci hf hc st) as (_ & Hb & Hv & _).
  rewrite Hb in W1. rewrite Hv in W2.
  assert (catch_var (landingPadInfo (pad_header inBB ci hf hc st))
          = catch_var (landingPadInfo st) ∧
          irLocal (pad_header inBB ci hf hc st) = irLocal st ∧
          allocas (pad_header inBB ci hf hc st) = allocas st) as (P1 & P2 & P3).
  { unfold pad_header. destruct (catch_var (landingPadInfo st)) eqn:Ecv; [destruct hc|];
      split_and!; reflexivity || exact Ecv. }
  assert (catch_var (landingPadInfo (pad_finish st stw)) = catch_var (landingPadInfo st)) as Ec.
  { unfold pad_finish. simpl. by rewrite W3. }
  split_and!.
  - reflexivity.
  - unfold pad_finish. simpl. exact W1.
  - unfold pad_finish. simpl. lia.
  - apply IRLandingPad_eq; [exact E1|exact F2|exact E2|exact F3|by rewrite Ec].
  - unfold pad_finish. simpl. congruence.
  - unfold pad_finish. simpl. congruence.
  - exact F4.
Qed.

Lemma constructLandingPad_footprint_witness :
  scope example_pad = scope example_nested ∧
  nextBB example_pad = nextBB example_nested + catches (infos (landingPadInfo example_nested)) ∧
  nextValue example_pad
  = nextValue example_nested + 3 + 2 * catches (infos (landingPadInfo example_nested)) ∧
  landingPadInfo example_pad = landingPadInfo example_nested ∧
  irLocal example_pad = irLocal example_nested ∧
  allocas example_pad = allocas example_nested ∧
  ∀ k, k < nextBB example_nested → k ≠ 3 → blocks example_pad !! k = blocks example_nested !! k.
Proof.
  apply (constructLandingPad_footprint 3 example_nested example_pad).
  - vm_compute. reflexivity.
  - simpl. lia.
Defined.

(** *** The store into the shared slot *)

(** X10: with statements lowered inline, the landing block begins with the
    capture of the exception pointer; when the handler list holds a catch
    entry and the shared slot has been allocated, the pointer, cast to the
    type of [Object], is stored into the slot next, and then comes the
    selector call; without a catch entry or without a slot the selector call
    follows the capture at once. *)
Theorem landing_pad_stores_exception inBB st st' :
  constructLandingPad toIR_inline inBB st = Ok (tt, st') →
  inBB < nextBB st →
  getBlock (blocks st) inBB = [] →
  let eh_ptr := Inst (nextValue st) (LLPtr LLInt8) in
  let hasCatch := existsb (λ i, negb (is_finally i)) (infos (landingPadInfo st)) in
  ∃ args rest,
    getBlock (blocks st') inBB
    = Call (nextValue st) eh_exception []
      :: match catch_var (landingPadInfo st) with
         | Some cv =>
             if hasCatch
             then [Store (CreateBitCast eh_ptr (DtoType (Tclass object))) cv]
             else []
         | None => []
         end
      ++ Call (S (nextValue st)) eh_selector args :: rest.
Proof.
  intros H Hin Hempty eh_ptr hasCatch.
  apply constructLandingPad_inv in H as (ci & hf & hc & stw & Hsel & Hw & ->).
  apply selectorLoop_spec in Hsel as (_ & _ & Hhc). simpl in Hhc. fold hasCatch in Hhc.
  destruct (pad_header_facts inBB ci hf hc st) as (Hc & Hb & Hv & Hbo & _).
  assert (getBlock (blocks (pad_header inBB ci hf hc st)) inBB
          = Call (nextValue st) eh_exception []
            :: match catch_var (landingPadInfo st) with
               | Some cv =>
                   if hasCatch
                   then [Store (CreateBitCast eh_ptr (DtoType (Tclass object))) cv]
                   else []
               | None => []
               end
            ++ [Call (S (nextValue st)) eh_selector (selectorList eh_ptr ci hf)]) as Hcode.
  { rewrite <- Hhc. unfold pad_header, emit.
    destruct (catch_var (landingPadInfo st)) as [cv|]; [destruct hc|]; simpl;
      rewrite !getBlock_insert_eq, Hempty; done. }
  destruct (pad_finish_facts st stw) as (Hfo & Hft).
  set (sth := pad_header inBB ci hf hc st) in *.
  destruct (walk_run _ _ _ _ Hw) as (P1 & P2 & P3 & P4 & code & Hc2 & _).
  { rewrite Hc, Hb. done. }
  rewrite Hc in *.
  destruct (decide (cur stw = inBB)) as [E|E].
  - eexists _, _. rewrite <- E at 1. rewrite Hft, E, Hc2, Hcode.
    rewrite <- !app_comm_cons, <- !app_assoc. simpl. reflexivity.
  - eexists _, _. rewrite (getBlock_ext _ (blocks stw)) by (by apply Hfo).
    rewrite Hc2, Hcode. rewrite <- !app_comm_cons, <- !app_assoc. simpl. reflexivity.
Qed.

Lemma landing_pad_stores_exception_witness :
  let eh_ptr := Inst (nextValue example_slot) (LLPtr LLInt8) in
  let hasCatch := existsb (λ i, negb (is_finally i)) (infos (landingPadInfo example_slot)) in
  ∃ args rest,
    getBlock (blocks example_slot_pad) 3
    = Call (nextValue example_slot) eh_exception []
      :: match catch_var (landingPadInfo example_slot) with
         | Some cv =>
             if hasCatch
             then [Store (CreateBitCast eh_ptr (DtoType (Tclass object))) cv]
             else []
         | None => []
         end
      ++ Call (S (nextValue example_slot)) eh_selector args :: rest.
Proof.
  apply (landing_pad_stores_exception 3 example_slot example_slot_pad).
  - vm_compute. reflexivity.
  - simpl. lia.
  - vm_compute. reflexivity.
Defined.

(** *** The shared slot, once allocated, stays *)

Lemma slot_kept_refl st : slot_kept st st.
Proof. by intros cv. Qed.

Lemma slot_kept_trans st1 st2 st3 : slot_kept st1 st2 → slot_kept st2 st3 → slot_kept st1 st3.
Proof. intros H1 H2 cv Hcv. by apply H2, H1. Qed.

Lemma slot_kept_same st st' :
  catch_var (landingPadInfo st') = catch_var (landingPadInfo st) → slot_kept st st'.
Proof. intros E cv Hcv. by rewrite E. Qed.

Lemma getExceptionStorage_slot v st st' :
  getExceptionStorage st = Ok (v, st') → slot_kept st st'.
Proof.
  intros H cv Hcv. apply getExceptionStorage_Ok in H. rewrite Hcv in H.
  destruct H as [_ ->]. done.
Qed.

Lemma DtoDeclarationExp_slot vd st st' :
  DtoDeclarationExp vd st = Ok (tt, st') → slot_kept st st'.
Proof.
  intros H. apply slot_kept_same. apply DtoDeclarationExp_Ok in H.
  destruct (irLocal st !! vd_ident vd); subst; done.
Qed.

Lemma assignCatchVarStorage_slot c st st' :
  assignCatchVarStorage c st = Ok (tt, st') → slot_kept st st'.
Proof.
  unfold assignCatchVarStorage. intros H.
  destruct (var c) as [v|]; [|gen_inv; apply slot_kept_refl].
  apply bind_Ok in H as ([] & s1 & H1 & H).
  assert (slot_kept st s1) as E1.
  { clear H. destruct (decide (nestedrefs_dim v = 0)); gen_inv; [|apply slot_kept_refl].
    match goal with H : getExceptionStorage _ = Ok _ |- _ =>
      apply getExceptionStorage_slot in H; exact H end. }
  apply bind_Ok in H as ([] & s2 & H2 & H). apply DtoDeclarationExp_slot in H2.
  apply bind_Ok in H as (l & s3 & H3 & H). apply gets_Ok in H3 as [-> ->].
  apply bind_Ok in H as (value & s4 & H4 & H). apply deref_Ok in H4 as [H4 ->].
  apply bind_Ok in H as (storage & s5 & H5 & H). apply getExceptionStorage_slot in H5.
  eapply slot_kept_trans; [exact E1|]. eapply slot_kept_trans; [exact H2|].
  eapply slot_kept_trans; [exact H5|].
  destruct (decide (value ≠ storage)); [|gen_inv; apply slot_kept_refl].
  apply bind_Ok in H as (v6 & s6 & H6 & H). apply getExceptionStorage_slot in H6.
  apply bind_Ok in H as (ld & s7 & H7 & H). apply DtoLoad_Ok in H7 as [-> ->].
  unfold DtoStore, CreateStore in H. apply modify_Ok in H. subst.
  eapply slot_kept_trans; [exact H6|]. by apply slot_kept_same.
Qed.

Lemma constructLandingPad_catch_var inBB st st' :
  constructLandingPad toIR_inline inBB st = Ok (tt, st') →
  catch_var (landingPadInfo st') = catch_var (landingPadInfo st).
Proof.
  intros H. apply constructLandingPad_inv in H as (ci & hf & hc & stw & _ & Hw & ->).
  apply walk_inline_frame in Hw as (_ & _ & W3 & _).
  unfold pad_finish. simpl. rewrite W3. unfold pad_header.
  destruct (catch_var (landingPadInfo st)) eqn:E; [destruct hc|]; exact E.
Qed.

Lemma step_slot op st st' :
  step toIR_inline op st = Ok (tt, st') → slot_kept st st'.
Proof.
  intros H. destruct op as [c e|s|bb|]; simpl in H.
  - unfold addCatch in H. apply bind_Ok in H as (info & s & H & Hm). apply modify_Ok in Hm.
    subst st'. unfold IRLandingPadInfo_catch in H.
    apply bind_Ok in H as (tgt & s1 & H1 & H). apply BasicBlock_Create_Ok in H1 as [-> ->].
    apply bind_Ok in H as ([] & s2 & H2 & H). apply modify_Ok in H2. subst s2.
    apply bind_Ok in H as ([] & s3 & H3 & H). apply assignCatchVarStorage_slot in H3.
    apply bind_Ok in H as ([] & s4 & H4 & H).
    assert (landingPadInfo s4 = landingPadInfo s3) as E4.
    { destruct (handler c); [|by gen_inv].
      unfold toIR_inline in H4. apply modify_Ok in H4. by subst. }
    apply bind_Ok in H as (returned & s5 & H5 & H). apply gets_Ok in H5 as [-> ->].
    apply bind_Ok in H as ([] & s6 & H6 & H).
    assert (landingPadInfo s6 = landingPadInfo s4) as E6.
    { destruct (scopereturned s4); [by gen_inv|].
      unfold CreateBr in H6. apply modify_Ok in H6. by subst. }
    gen_inv. intros cv Hcv. simpl. rewrite E6, E4. by apply H3.
  - unfold addFinally in H. apply modify_Ok in H. subst. by apply slot_kept_same.
  - apply push_Ok_inv in H as (stc & Hc & ->).
    apply constructLandingPad_catch_var in Hc. by apply slot_kept_same.
  - apply pop_Ok_inv in H as (bb & bbs & n & ns & _ & _ & ->). by apply slot_kept_same.
Qed.

(** X11: with statements lowered inline, no sequence of [addCatch],
    [addFinally], [push] and [pop] replaces the shared exception slot once
    it has been allocated. *)
Theorem exception_slot_stable ops : ∀ st st' cv,
  catch_var (landingPadInfo st) = Some cv →
  steps toIR_inline ops st = Ok (tt, st') →
  catch_var (landingPadInfo st') = Some cv.
Proof.
  induction ops as [|op rest IH]; intros st st' cv Hcv H; simpl in H.
  - gen_inv. done.
  - apply bind_Ok in H as ([] & st1 & H1 & H2).
    eapply IH; [|exact H2]. by apply (step_slot op st st1).
Qed.

Lemma exception_slot_stable_witness :
  catch_var (landingPadInfo example_slot_after)
  = Some (Inst 0 (LLPtr (DtoType (Tclass object)))).
Proof.
  apply (exception_slot_stable example_slot_ops example_slot example_slot_after).
  - reflexivity.
  - vm_compute. reflexivity.
Defined.

(** ** The memory package *)

Import Mem.
Local Open Scope Z_scope.

Lemma mem_bind_Ret {A B : Type} (m : M A) (f : A → M B) (w : World) (b : B) (w' : World) :
  (m ≫= f) w = Ret b w' ↔ ∃ a w1, m w = Ret a w1 ∧ f a w1 = Ret b w'.
Proof.
  unfold mbind, M_bind. split.
  - destruct (m w) as [a w1| | | |]; try discriminate. eauto.
  - intros (a & w1 & -> & H). exact H.
Qed.

Lemma mem_bind_eq {A B : Type} (m : M A) (f : A → M B) (w : World) (a : A) (w1 : World) :
  m w = Ret a w1 → (m ≫= f) w = f a w1.
Proof. intros H. unfold mbind, M_bind. by rewrite H. Qed.

Lemma align16_eq n :
  0 ≤ n < 2 ^ 64 →
  align16 n = (n + 15) mod 2 ^ 64 / 16 * 16.
Proof.
  intros Hn. unfold align16, size_t.
  replace (Z.lnot 15 mod 2 ^ 64) with (Z.land (Z.ones 64) (Z.lnot (Z.ones 4))) by reflexivity.
  rewrite Z.land_assoc, Z.land_ones by lia.
  rewrite Z.mod_mod by lia.
  rewrite <- Z.ldiff_land, Z.ldiff_ones_r by lia.
  rewrite Z.shiftr_div_pow2, Z.shiftl_mul_pow2 by lia. reflexivity.
Qed.

Lemma align16_small n :
  0 ≤ n ≤ 2 ^ 64 - 16 →
  n ≤ align16 n < n + 16 ∧ align16 n mod 16 = 0 ∧ align16 n < 2 ^ 64.
Proof.
  intros Hn. rewrite align16_eq by lia.
  rewrite Z.mod_small by lia.
  pose proof (Z.div_mod (n + 15) 16 ltac:(lia)) as Hd.
  pose proof (Z.mod_pos_bound (n + 15) 16 ltac:(lia)) as Hb.
  split_and!; [lia|lia| |lia].
  apply Z.mod_mul. lia.
Qed.

Lemma align16_wraps n :
  2 ^ 64 - 16 < n < 2 ^ 64 → align16 n = 0.
Proof.
  intros Hn. rewrite align16_eq by lia.
  replace ((n + 15) mod 2 ^ 64) with (n + 15 - 2 ^ 64).
  - rewrite Z.div_small by lia. done.
  - apply Z.mod_unique with 1; lia.
Qed.


Lemma mem_ret_Ret {A : Type} (a b : A) (w w' : World) :
  ret a w = Ret b w' ↔ b = a ∧ w' = w.
Proof. unfold ret, mret, M_ret. split; [intros [= <- <-] | intros [-> ->]]; done. Qed.

Lemma mem_gets_Ret {A : Type} (f : World → A) (b : A) (w w' : World) :
  gets f w = Ret b w' ↔ b = f w ∧ w' = w.
Proof. unfold gets. split; [intros [= <- <-] | intros [-> ->]]; done. Qed.

Lemma mem_modify_Ret (f : World → World) (u : unit) (w w' : World) :
  modify f w = Ret u w' ↔ w' = f w.
Proof. unfold modify. destruct u. split; [intros [= <-] | intros ->]; done. Qed.

Lemma mem_assert_Ret (b : bool) (cond : string) (u : unit) (w w' : World) :
  assert b cond w = Ret u w' ↔ b = true ∧ w' = w.
Proof.
  unfold assert. destruct u, b; split; try discriminate.
  - intros [= <-]. done.
  - by intros [_ ->].
  - by intros [[=] _].
Qed.

(** Splits a run that returned into its steps. *)
Ltac mem_inv :=
  repeat match goal with
  | H : (_ ≫= _) _ = Ret _ _ |- _ =>
      apply mem_bind_Ret in H; destruct H as (? & ? & ? & H)
  | H : ret _ _ = Ret _ _ |- _ => apply mem_ret_Ret in H; destruct H as [? ?]; subst
  | H : skip _ = Ret _ _ |- _ => apply mem_ret_Ret in H; destruct H as [? ?]; subst
  | H : gets _ _ = Ret _ _ |- _ => apply mem_gets_Ret in H; destruct H as [? ?]; subst
  | H : modify _ _ = Ret _ _ |- _ => apply mem_modify_Ret in H; subst
  | H : PRINT _ _ = Ret _ _ |- _ => apply mem_modify_Ret in H; subst
  | H : assert _ _ _ = Ret _ _ |- _ => apply mem_assert_Ret in H; destruct H as [? ?]; subst
  | H : exit _ = Ret _ _ |- _ => discriminate H
  | H : undefined _ = Ret _ _ |- _ => discriminate H
  | H : out_of_fuel _ = Ret _ _ |- _ => discriminate H
  | H : Undefined = Ret _ _ |- _ => discriminate H
  | u : unit |- _ => destruct u
  end.

(** *** The out-of-memory policy *)

Lemma handler_ran_refl w : handler_ran w w.
Proof.
  split; [done|]. exists 0%nat. rewrite Nat.add_0_r. by destruct (libc w).
Qed.

Lemma mem_exception_loop_Ret fuel : ∀ behavior w r w',
  mem_exception_loop fuel behavior w = Ret r w' →
  handler_ran w w' ∧ (r = 0 ∨ r = 1).
Proof.
  induction fuel as [|fuel IH]; intros behavior w r w' H; simpl in H; [discriminate|].
  repeat match type of H with (if ?d then _ else _) _ = _ => destruct d end.
  - mem_inv.
  - mem_inv.
  - apply mem_bind_Ret in H as (fp & w1 & H1 & H). apply mem_gets_Ret in H1 as [-> ->].
    apply mem_bind_Ret in H as ([] & w2 & H2 & H). apply mem_assert_Ret in H2 as [_ ->].
    destruct (oom_fp (vars w)) as [f|]; [|discriminate].
    apply mem_bind_Ret in H as (b & w3 & H3 & H).
    unfold call_handler in H3. injection H3 as <- <-.
    apply IH in H as [[Hv [k Hl]] Hr]. split; [|done]. split; [done|].
    exists (S k). rewrite Hl. unfold set_handler_calls. simpl. f_equal. lia.
  - mem_inv. split; [apply handler_ran_refl|by left].
  - mem_inv. split; [apply handler_ran_refl|by right].
  - mem_inv. done.
Qed.

Lemma mem_exception_Ret fuel w r w' :
  mem_exception fuel w = Ret r w' → handler_ran w w' ∧ (r = 0 ∨ r = 1).
Proof.
  unfold mem_exception. intros H.
  apply mem_bind_Ret in H as (b & w1 & H1 & H). apply mem_gets_Ret in H1 as [-> ->].
  by apply mem_exception_loop_Ret in H.
Qed.

(** *** Counting allocations *)

Lemma quiet_refl w : quiet w w.
Proof. by unfold quiet. Qed.

Lemma quiet_trans w1 w2 w3 : quiet w1 w2 → quiet w2 w3 → quiet w1 w3.
Proof.
  unfold quiet. intros (A1 & A2 & A3 & A4 & A5) (B1 & B2 & B3 & B4 & B5).
  split_and!; congruence.
Qed.

Lemma handler_ran_quiet w w' : handler_ran w w' → quiet w w'.
Proof. intros [Hv [k Hl]]. unfold quiet. rewrite Hv, Hl. done. Qed.

Lemma malloc_Ret n w p w1 :
  malloc n w = Ret p w1 →
  p = allocator (libc w) (requests (libc w)) n ∧
  requests (libc w1) = S (requests (libc w)) ∧
  vars w1 = vars w ∧ memory (libc w1) = memory (libc w) ∧ ferr (libc w1) = ferr (libc w) ∧
  allocator (libc w1) = allocator (libc w) ∧
  handler_calls (libc w1) = handler_calls (libc w) ∧
  live (libc w1) = if decide (p = NULL) then live (libc w) else (p, n) :: live (libc w).
Proof.
  unfold malloc. intros H.
  apply mem_bind_Ret in H as (q & w0 & H0 & H). unfold request in H0. injection H0 as <- <-.
  destruct (decide (_ = NULL)) as [E|E].
  - mem_inv. rewrite decide_True by done. done.
  - mem_inv. rewrite decide_False by done. done.
Qed.

Lemma memset_from_lookup n : ∀ p c m a,
  memset_from p c n m !! a
  = if decide (p ≤ a < p + Z.of_nat n) then Some c else m !! a.
Proof.
  induction n as [|n IH]; intros p c m a; simpl memset_from.
  - rewrite decide_False by lia. done.
  - destruct (decide (a = p)) as [->|Hne].
    + rewrite lookup_insert_eq. rewrite decide_True by lia. done.
    + rewrite lookup_insert_ne by done. rewrite IH.
      destruct (decide (p + 1 ≤ a < p + 1 + Z.of_nat n)), (decide (p ≤ a < p + Z.of_nat (S n)));
        try done; lia.
Qed.

Lemma calloc_Ret n w p w1 :
  calloc n 1 w = Ret p w1 →
  vars w1 = vars w ∧ ferr (libc w1) = ferr (libc w) ∧
  allocator (libc w1) = allocator (libc w) ∧
  if decide (p = NULL)
  then live (libc w1) = live (libc w) ∧ memory (libc w1) = memory (libc w)
  else live (libc w1) = (p, n) :: live (libc w) ∧
       ∀ a, memory (libc w1) !! a
            = if decide (p ≤ a < p + Z.of_nat (Z.to_nat n)) then Some 0
              else memory (libc w) !! a.
Proof.
  unfold calloc. rewrite Z.mul_1_r. intros H.
  destruct (decide (2 ^ 64 ≤ n)); [mem_inv; rewrite decide_True by done; done|].
  apply mem_bind_Ret in H as (q & w0 & H0 & H). unfold request in H0. injection H0 as <- <-.
  destruct (decide (_ = NULL)) as [E|E].
  - mem_inv. rewrite decide_True by done. done.
  - unfold memset in H. mem_inv. rewrite decide_False by done. simpl.
    split_and!; try done. intros a. apply memset_from_lookup.
Qed.

Lemma alloc_loop_Ret (alloc : M Z) fuel :
  (∀ w w1, alloc w = Ret NULL w1 → quiet w w1) →
  ∀ w p w',
  alloc_loop alloc fuel w = Ret p w' →
  (p = NULL ∧ quiet w w') ∨
  (p ≠ NULL ∧ ∃ w0 w1,
     quiet w w0 ∧ alloc w0 = Ret p w1 ∧ mem_count (vars w1) ≠ INT_MAX ∧
     w' = on_vars (set_mem_count (mem_count (vars w1) + 1)) w1).
Proof.
  intros Hfail. induction fuel as [|fuel IH]; intros w p w' H; simpl in H; [discriminate|].
  apply mem_bind_Ret in H as (q & w1 & H1 & H).
  destruct (decide (q = NULL)) as [->|Hq].
  - apply Hfail in H1.
    apply mem_bind_Ret in H as (again & w2 & H2 & H).
    apply mem_exception_Ret in H2 as [H2 _]. apply handler_ran_quiet in H2.
    pose proof (quiet_trans _ _ _ H1 H2) as Hq.
    destruct (decide (again ≠ 0)).
    + apply IH in H as [[-> H]|(Hp & w0 & w3 & H3 & H4 & H5 & ->)].
      * left. split; [done|]. by eapply quiet_trans.
      * right. split; [done|]. exists w0, w3. split_and!; try done. by eapply quiet_trans.
    + mem_inv. by left.
  - right. unfold count_up, incr in H. mem_inv.
    destruct (decide (mem_count (vars w1) = INT_MAX)); [discriminate|]. mem_inv.
    split; [done|]. exists w, w1. split_and!; done.
Qed.

Lemma set_mem_count_same g : set_mem_count (mem_count g) g = g.
Proof. by destruct g. Qed.

Lemma set_mem_count_twice a b g : set_mem_count a (set_mem_count b g) = set_mem_count a g.
Proof. done. Qed.

Lemma malloc_fail_quiet n w w1 : malloc n w = Ret NULL w1 → quiet w w1.
Proof.
  intros H. apply malloc_Ret in H as (_ & _ & A1 & A2 & A3 & A4 & _ & A5).
  rewrite decide_True in A5 by done. by unfold quiet.
Qed.

Lemma calloc_fail_quiet n w w1 : calloc n 1 w = Ret NULL w1 → quiet w w1.
Proof.
  intros H. apply calloc_Ret in H as (A1 & A2 & A3 & A4).
  rewrite decide_True in A4 by done. destruct A4. by unfold quiet.
Qed.

Lemma mem_malloc_Ret fuel n w p w' :
  mem_malloc fuel n w = Ret p w' →
  if decide (p = NULL)
  then vars w' = vars w ∧ live (libc w') = live (libc w)
  else n ≠ 0 ∧
       vars w' = set_mem_count (mem_count (vars w) + 1) (vars w) ∧
       live (libc w') = (p, n) :: live (libc w).
Proof.
  unfold mem_malloc. intros H.
  destruct (decide (n = 0)) as [->|Hn].
  - mem_inv. rewrite decide_True by done. done.
  - apply alloc_loop_Ret in H; [|apply malloc_fail_quiet].
    destruct H as [[-> (A1 & A2 & _)]|(Hp & w0 & w1 & (A1 & A2 & _) & H & _ & ->)].
    + rewrite decide_True by done. done.
    + rewrite decide_False by done.
      apply malloc_Ret in H as (_ & _ & B1 & _ & _ & _ & _ & B2).
      rewrite decide_False in B2 by done. simpl.
      rewrite B1, B2, A1, A2. done.
Qed.

(** X12: when [mem_malloc] returns a block, [mem_count] has gone up by one,
    the block is live with the size that was asked for, which was not 0, and
    no other variable has changed; when it returns [NULL], the variables and
    the live blocks are as they were, however often the allocation was
    tried. *)
Theorem mem_malloc_accounting fuel n w p w' :
  mem_malloc fuel n w = Ret p w' →
  if decide (p = NULL)
  then vars w' = vars w ∧ live (libc w') = live (libc w)
  else n ≠ 0 ∧
       vars w' = set_mem_count (mem_count (vars w) + 1) (vars w) ∧
       live (libc w') = (p, n) :: live (libc w).
Proof. apply mem_malloc_Ret. Qed.

Lemma mem_malloc_accounting_witness :
  if decide (4096 = NULL)
  then vars example_after_malloc = vars example_world ∧
       live (libc example_after_malloc) = live (libc example_world)
  else 24 ≠ 0 ∧
       vars example_after_malloc
       = set_mem_count (mem_count (vars example_world) + 1) (vars example_world) ∧
       live (libc example_after_malloc) = (4096, 24) :: live (libc example_world).
Proof.
  apply (mem_malloc_accounting 2 24 example_world 4096 example_after_malloc).
  reflexivity.
Defined.

Lemma mem_calloc_Ret fuel n w p w' :
  mem_calloc fuel n w = Ret p w' →
  if decide (p = NULL)
  then vars w' = vars w ∧ live (libc w') = live (libc w) ∧
       memory (libc w') = memory (libc w)
  else n ≠ 0 ∧
       vars w' = set_mem_count (mem_count (vars w) + 1) (vars w) ∧
       live (libc w') = (p, n) :: live (libc w) ∧
       (∀ a, 0 ≤ n → p ≤ a < p + n → memory (libc w') !! a = Some 0) ∧
       (∀ a, ¬ (p ≤ a < p + n) → memory (libc w') !! a = memory (libc w) !! a).
Proof.
  unfold mem_calloc. intros H.
  destruct (decide (n = 0)) as [->|Hn].
  - mem_inv. rewrite decide_True by done. done.
  - apply alloc_loop_Ret in H; [|apply calloc_fail_quiet].
    destruct H as [[-> (A1 & A2 & A3 & _)]|(Hp & w0 & w1 & (A1 & A2 & A3 & _) & H & _ & ->)].
    + rewrite decide_True by done. done.
    + rewrite decide_False by done.
      apply calloc_Ret in H as (B1 & _ & _ & B2).
      rewrite decide_False in B2 by done. destruct B2 as [B2 B3]. simpl.
      rewrite B1, B2, A1, A2. split_and!; try done.
      * intros a Hn0 Ha. rewrite B3. rewrite decide_True by lia. done.
      * intros a Ha. rewrite B3, A3. destruct (decide (p ≤ a < p + Z.of_nat (Z.to_nat n))); [|done].
        lia.
Qed.

(** *** Freeing *)

Lemma block_size_remove p n l :
  block_size p ((p, n) :: l) = Some n ∧ remove_block p ((p, n) :: l) = l.
Proof. simpl. by rewrite !decide_True. Qed.

Lemma remove_block_length p l s :
  block_size p l = Some s → S (length (remove_block p l)) = length l.
Proof.
  induction l as [|b rest IH]; simpl; [done|].
  destruct (decide (fst b = p)); [done|]. intros H. simpl. by rewrite IH.
Qed.

Lemma mem_free_Ret ptr w w' :
  mem_free ptr w = Ret tt w' →
  if decide (ptr = NULL) then w' = w
  else mem_count (vars w) ≠ 0 ∧
       vars w' = set_mem_count (mem_count (vars w) - 1) (vars w) ∧
       is_Some (block_size ptr (live (libc w))) ∧
       libc w' = set_live (remove_block ptr (live (libc w))) (libc w).
Proof.
  unfold mem_free. intros H. destruct (decide (ptr ≠ NULL)) as [Hp|Hp].
  - rewrite decide_False by done. unfold decr, free in H.
    apply mem_bind_Ret in H as (c & w1 & H1 & H). apply mem_gets_Ret in H1 as [-> ->].
    apply mem_bind_Ret in H as ([] & w2 & H2 & H). apply mem_assert_Ret in H2 as [H2 ->].
    apply bool_decide_eq_true in H2.
    apply mem_bind_Ret in H as (c' & w3 & H3 & H).
    destruct (decide (mem_count (vars w) = INT_MIN)); [discriminate|].
    apply mem_ret_Ret in H3 as [-> ->].
    apply mem_bind_Ret in H as ([] & w4 & H4 & H). apply mem_modify_Ret in H4. subst w4.
    rewrite decide_False in H by done.
    apply mem_bind_Ret in H as (l & w5 & H5 & H). apply mem_gets_Ret in H5 as [-> ->].
    simpl in H. destruct (block_size ptr (live (libc w))) eqn:E; [|discriminate].
    apply mem_modify_Ret in H. subst w'. done.
  - rewrite decide_True by (by destruct (decide (ptr = NULL)); [|exfalso; apply Hp]).
    by mem_inv.
Qed.

(** X13: [mem_free] of what [mem_malloc] has just returned runs, and puts
    the variables and the live blocks back to what they were before the
    [mem_malloc]; this holds for a returned [NULL] too, which [mem_free]
    ignores. *)
Theorem mem_malloc_free_roundtrip fuel n w p w1 :
  mem_malloc fuel n w = Ret p w1 →
  0 ≤ mem_count (vars w) →
  ∃ w', mem_free p w1 = Ret tt w' ∧
        vars w' = vars w ∧ live (libc w') = live (libc w) ∧
        memory (libc w') = memory (libc w1).
Proof.
  intros H Hc. pose proof (mem_malloc_Ret _ _ _ _ _ H) as Ha.
  destruct (decide (p = NULL)) as [->|Hp].
  - destruct Ha as [A1 A2]. exists w1. split; [|done].
    unfold mem_free. rewrite decide_False by (intros Hx; by apply Hx). done.
  - destruct Ha as (Hn & A1 & A2).
    assert (mem_count (vars w) ≠ INT_MAX) as Hmax.
    { unfold mem_malloc in H. rewrite decide_False in H by done.
      apply alloc_loop_Ret in H; [|apply malloc_fail_quiet].
      destruct H as [[-> _]|(_ & w0 & w2 & (B1 & _) & H & Hm & _)]; [done|].
      apply malloc_Ret in H as (_ & _ & B2 & _). by rewrite B2, B1 in Hm. }
    eexists. split.
    + unfold mem_free. rewrite decide_True by done.
      unfold mbind, M_bind, gets, assert, decr, modify, free, ret, mret, M_ret.
      rewrite A1. simpl.
      rewrite bool_decide_eq_true_2 by lia.
      rewrite decide_False by (unfold INT_MIN; lia).
      rewrite decide_False by done.
      unfold mbind, M_bind, gets, modify. simpl. rewrite A2. simpl.
      rewrite decide_True by done. reflexivity.
    + simpl. rewrite A1, A2. simpl. rewrite decide_True by done.
      split_and!; [|done|done].
      rewrite set_mem_count_twice.
      replace (mem_count (vars w) + 1 - 1) with (mem_count (vars w)) by lia.
      apply set_mem_count_same.
Qed.

Lemma mem_malloc_free_roundtrip_witness :
  ∃ w', mem_free 4096 example_after_malloc = Ret tt w' ∧
        vars w' = vars example_world ∧ live (libc w') = live (libc example_world) ∧
        memory (libc w') = memory (libc example_after_malloc).
Proof.
  apply (mem_malloc_free_roundtrip 2 24 example_world 4096 example_after_malloc).
  - reflexivity.
  - simpl. lia.
Defined.

(** *** The count and the live blocks *)

Lemma same_config_refl w : same_config w w.
Proof. done. Qed.

Lemma same_config_trans w1 w2 w3 : same_config w1 w2 → same_config w2 w3 → same_config w1 w3.
Proof. unfold same_config. congruence. Qed.

Lemma strlen_Ret fuel : ∀ s w n w', strlen fuel s w = Ret n w' → w' = w.
Proof.
  induction fuel as [|fuel IH]; intros s w n w' H; simpl in H; [discriminate|].
  apply mem_bind_Ret in H as (b & w1 & H1 & H). apply mem_gets_Ret in H1 as [-> ->].
  destruct (memory (libc w) !! s) as [[| |]|]; mem_inv; try done.
  - match goal with H : strlen _ _ _ = Ret _ _ |- _ => by apply IH in H end.
  - match goal with H : strlen _ _ _ = Ret _ _ |- _ => by apply IH in H end.
Qed.

Lemma realloc_loop_Ret fuel : ∀ ptr n w p w',
  ptr ≠ NULL → n ≠ 0 →
  realloc_loop fuel ptr n w = Ret p w' →
  vars w' = vars w ∧ length (live (libc w')) = length (live (libc w)).
Proof.
  induction fuel as [|fuel IH]; intros ptr n w p w' Hptr Hn H; simpl in H; [discriminate|].
  apply mem_bind_Ret in H as (q & w1 & H1 & H).
  assert (vars w1 = vars w ∧ length (live (libc w1)) = length (live (libc w))) as [E1 E2].
  { unfold realloc in H1. rewrite !decide_False in H1 by done.
    apply mem_bind_Ret in H1 as (l & w0 & H0 & H1). apply mem_gets_Ret in H0 as [-> ->].
    destruct (block_size ptr (live (libc w))) as [old|] eqn:E; [|discriminate].
    apply mem_bind_Ret in H1 as (r & w2 & H2 & H1). unfold request in H2.
    injection H2 as <- <-.
    destruct (decide (_ = NULL)).
    - mem_inv. done.
    - apply mem_bind_Ret in H1 as ([] & w3 & H3 & H1). apply mem_modify_Ret in H3. subst w3.
      apply mem_bind_Ret in H1 as ([] & w4 & H4 & H1).
      assert (vars w4 = vars w ∧
              live (libc w4) = (allocator (libc w) (requests (libc w)) n, n)
                               :: remove_block ptr (live (libc w))) as [F1 F2].
      { destruct (decide (_ = ptr)); unfold memcpy in H4; mem_inv; done. }
      mem_inv. rewrite F1, F2. split; [done|]. simpl. by apply remove_block_length with old. }
  destruct (decide (q = NULL)).
  - apply mem_bind_Ret in H as (again & w2 & H2 & H).
    apply mem_exception_Ret in H2 as [H2 _]. apply handler_ran_quiet in H2.
    destruct H2 as (B1 & B2 & _).
    destruct (decide (again ≠ 0)).
    + apply IH in H as [C1 C2]; [|done|done]. rewrite C1, C2, B1, B2. done.
    + mem_inv. rewrite B1, B2. done.
  - mem_inv. done.
Qed.

Lemma counted_up w' w p n :
  counted w →
  vars w' = set_mem_count (mem_count (vars w) + 1) (vars w) →
  live (libc w') = (p, n) :: live (libc w) →
  counted w' ∧ same_config w w'.
Proof.
  unfold counted, same_config. intros Hc -> ->. simpl. split; [lia|done].
Qed.

Lemma counted_same w' w :
  counted w → vars w' = vars w → length (live (libc w')) = length (live (libc w)) →
  counted w' ∧ same_config w w'.
Proof. unfold counted, same_config. intros Hc -> ->. done. Qed.

Lemma do_call_counted fuel c w w' :
  do_call fuel c w = Ret tt w' → counted w → counted w' ∧ same_config w w'.
Proof.
  intros H Hc. destruct c as [n|n|ptr n|ptr|s]; simpl in H.
  - apply mem_bind_Ret in H as (p & w1 & H1 & H). apply mem_ret_Ret in H as [_ ->].
    apply mem_malloc_Ret in H1. destruct (decide (p = NULL)).
    + destruct H1 as [A1 A2]. apply counted_same; [done|done|by rewrite A2].
    + destruct H1 as (_ & A1 & A2). by apply (counted_up _ _ p n).
  - apply mem_bind_Ret in H as (p & w1 & H1 & H). apply mem_ret_Ret in H as [_ ->].
    apply mem_calloc_Ret in H1. destruct (decide (p = NULL)).
    + destruct H1 as (A1 & A2 & _). apply counted_same; [done|done|by rewrite A2].
    + destruct H1 as (_ & A1 & A2 & _). by apply (counted_up _ _ p n).
  - apply mem_bind_Ret in H as (p & w1 & H1 & H). apply mem_ret_Ret in H as [_ ->].
    unfold mem_realloc in H1. destruct (decide (ptr = NULL)).
    { apply mem_malloc_Ret in H1. destruct (decide (p = NULL)).
      + destruct H1 as [A1 A2]. apply counted_same; [done|done|by rewrite A2].
      + destruct H1 as (_ & A1 & A2). by apply (counted_up _ _ p n). }
    destruct (decide (n = 0)).
    { apply mem_bind_Ret in H1 as ([] & w2 & H2 & H1). apply mem_ret_Ret in H1 as [_ ->].
      apply mem_free_Ret in H2. rewrite decide_False in H2 by done.
      destruct H2 as (A0 & A1 & [sz A2] & A3).
      unfold counted, same_config in *. rewrite A1, A3. simpl.
      apply remove_block_length in A2. split; [lia|done]. }
    apply realloc_loop_Ret in H1 as [A1 A2]; [|done|done]. by apply counted_same.
  - apply mem_free_Ret in H. destruct (decide (ptr = NULL)); [by subst|].
    destruct H as (A0 & A1 & [sz A2] & A3).
    unfold counted, same_config in *. rewrite A1, A3. simpl.
    apply remove_block_length in A2. split; [lia|done].
  - apply mem_bind_Ret in H as (p & w1 & H1 & H). apply mem_ret_Ret in H as [_ ->].
    unfold mem_strdup in H1. destruct (decide (s ≠ NULL)); [|by mem_inv].
    apply mem_bind_Ret in H1 as (len & w2 & H2 & H1). apply strlen_Ret in H2. subst w2.
    apply mem_bind_Ret in H1 as (q & w3 & H3 & H1).
    apply mem_malloc_Ret in H3. destruct (decide (q ≠ NULL)).
    + rewrite decide_False in H3 by done. destruct H3 as (_ & A1 & A2).
      unfold memcpy in H1. mem_inv. by apply (counted_up _ _ q (size_t (len + 1))).
    + rewrite decide_True in H3 by (by destruct (decide (q = NULL))).
      destruct H3 as [A1 A2]. mem_inv. apply counted_same; [done|done|by rewrite A2].
Qed.

Lemma do_calls_counted fuel cs : ∀ w w',
  mem_count (vars w) = Z.of_nat (length (live (libc w))) →
  do_calls fuel cs w = Ret tt w' →
  mem_count (vars w') = Z.of_nat (length (live (libc w'))) ∧
  set_mem_count 0 (vars w') = set_mem_count 0 (vars w).
Proof.
  induction cs as [|c rest IH]; intros w w' Hc H; simpl in H.
  - mem_inv. done.
  - apply mem_bind_Ret in H as ([] & w1 & H1 & H).
    apply do_call_counted in H1 as [Hc1 Hs1]; [|done].
    apply IH in H as [Hc' Hs']; [|done]. split; [done|]. by eapply same_config_trans.
Qed.

(** X14: over every sequence of calls of [mem_malloc], [mem_calloc],
    [mem_realloc], [mem_free] and [mem_strdup] that returns, [mem_count]
    stays the number of blocks that are live, and no other variable of the
    package changes. *)
Theorem mem_count_tracks_live fuel cs w w' :
  mem_count (vars w) = Z.of_nat (length (live (libc w))) →
  do_calls fuel cs w = Ret tt w' →
  mem_count (vars w') = Z.of_nat (length (live (libc w'))) ∧
  set_mem_count 0 (vars w') = set_mem_count 0 (vars w).
Proof. apply do_calls_counted. Qed.

Lemma mem_count_tracks_live_witness :
  mem_count (vars example_after_calls) = Z.of_nat (length (live (libc example_after_calls))) ∧
  set_mem_count 0 (vars example_after_calls) = set_mem_count 0 (vars example_world).
Proof.
  apply (mem_count_tracks_live 3 example_calls example_world example_after_calls).
  - reflexivity.
  - reflexivity.
Defined.

(** *** Initialisation and the check at termination *)

Lemma mem_init_Ret w w' :
  mem_init w = Ret tt w' →
  libc w' = libc w ∧
  vars w'
  = if decide (mem_inited (vars w) = 0)
    then mkGlobals 1 MEM_ABORTMSG None 0 0 (heap (vars w)) (heapleft (vars w))
    else set_mem_inited (mem_inited (vars w) + 1) (vars w).
Proof.
  unfold mem_init, incr. intros H.
  apply mem_bind_Ret in H as (i & w1 & H1 & H). apply mem_gets_Ret in H1 as [-> ->].
  destruct (decide (mem_inited (vars w) = 0)) as [E|E].
  - mem_inv. simpl in *. rewrite E in *. simpl in *. mem_inv. done.
  - mem_inv. destruct (decide (mem_inited (vars w) = INT_MAX)); [discriminate|].
    mem_inv. done.
Qed.

Lemma mem_term_inited w :
  mem_inited (vars w) ≠ 0 → mem_scount (vars w) = 0 →
  mem_term w
  = if decide (mem_count (vars w) = 0)
    then Ret tt (on_vars (set_mem_inited 0) w)
    else AssertionFailed "mem_count == 0 && mem_scount == 0"
           (on_libc (λ l, set_ferr (ferr l ++ [unfreed_items (mem_count (vars w))]) l) w).
Proof.
  destruct w as [[i b f c sc h hl] l]. simpl. intros Hi ->.
  unfold mem_term, mbind, M_bind, gets, PRINT, modify, assert, skip, ret, mret, M_ret.
  simpl. rewrite (decide_True (P := i ≠ 0)) by done.
  destruct (decide (c = 0)) as [->|Hc].
  - simpl. done.
  - rewrite (decide_True (P := c ≠ 0)) by done. simpl.
    rewrite bool_decide_eq_false_2 by (intros [? _]; done). done.
Qed.

(** X15: after [mem_init] in a program that is not initialised and holds
    no block, and any sequence of calls of the counted allocator,
    [mem_count] is the number of live blocks, and [mem_term] returns, with
    [mem_inited] set to 0, exactly when no block is live; with a block live
    it prints the number of unfreed items and fails its [assert]. *)
Theorem mem_term_leak_check fuel cs w w1 :
  mem_inited (vars w) = 0 → live (libc w) = [] →
  (mem_init;; do_calls fuel cs) w = Ret tt w1 →
  mem_count (vars w1) = Z.of_nat (length (live (libc w1))) ∧
  mem_term w1
  = match live (libc w1) with
    | [] => Ret tt (on_vars (set_mem_inited 0) w1)
    | _ :: _ =>
        AssertionFailed "mem_count == 0 && mem_scount == 0"
          (on_libc (λ l, set_ferr (ferr l ++ [unfreed_items (Z.of_nat (length (live l)))]) l) w1)
    end.
Proof.
  intros Hi Hl H.
  apply mem_bind_Ret in H as ([] & w0 & H0 & H).
  apply mem_init_Ret in H0 as [L0 V0]. rewrite decide_True in V0 by done.
  apply do_calls_counted in H as [Hc Hs].
  2: { rewrite V0, L0, Hl. done. }
  split; [done|].
  assert (mem_inited (vars w1) = 1 ∧ mem_scount (vars w1) = 0) as [I1 S1].
  { rewrite V0 in Hs. simpl in Hs. unfold set_mem_count in Hs. simpl in Hs.
    injection Hs as -> _ _ -> _ _. done. }
  rewrite mem_term_inited by (rewrite ?I1; done). rewrite Hc.
  destruct (live (libc w1)) as [|b rest] eqn:El.
  - done.
  - rewrite decide_False by (simpl; lia). unfold on_libc. rewrite El. done.
Qed.

Lemma mem_term_leak_check_witness :
  mem_count (vars example_run) = Z.of_nat (length (live (libc example_run))) ∧
  mem_term example_run
  = match live (libc example_run) with
    | [] => Ret tt (on_vars (set_mem_inited 0) example_run)
    | _ :: _ =>
        AssertionFailed "mem_count == 0 && mem_scount == 0"
          (on_libc (λ l, set_ferr (ferr l ++ [unfreed_items (Z.of_nat (length (live l)))]) l)
             example_run)
    end.
Proof.
  apply (mem_term_leak_check 3 example_calls example_world example_run).
  - reflexivity.
  - reflexivity.
  - reflexivity.
Defined.

Lemma mem_init_times_inited k : ∀ w w',
  mem_inited (vars w) ≠ 0 → 0 ≤ mem_inited (vars w) →
  mem_init_times k w = Ret tt w' →
  libc w' = libc w ∧ vars w' = set_mem_inited (mem_inited (vars w) + Z.of_nat k) (vars w).
Proof.
  induction k as [|k IH]; intros w w' Hi Hpos H; simpl in H.
  - mem_inv. split; [done|]. rewrite Z.add_0_r. by destruct (vars w).
  - apply mem_bind_Ret in H as ([] & w1 & H1 & H). apply mem_init_Ret in H1 as [L1 V1].
    rewrite decide_False in V1 by done.
    apply IH in H as [L V]; [|rewrite V1; simpl; lia..].
    rewrite L, L1, V, V1. split; [done|]. unfold set_mem_inited. simpl. f_equal. lia.
Qed.

(** X16: [mem_init] counts its calls, [mem_term] does not: after any
    number of calls of [mem_init] in a program that was not initialised, one
    call of [mem_term] that returns leaves [mem_inited] at 0, the counts at
    0 and the out-of-memory behaviour at its default. *)
Theorem mem_term_does_not_nest k w w' :
  mem_inited (vars w) = 0 →
  (mem_init_times (S k);; mem_term) w = Ret tt w' →
  libc w' = libc w ∧
  vars w' = mkGlobals 0 MEM_ABORTMSG None 0 0 (heap (vars w)) (heapleft (vars w)).
Proof.
  intros Hi H. apply mem_bind_Ret in H as ([] & w1 & H1 & H). simpl in H1.
  apply mem_bind_Ret in H1 as ([] & w0 & H0 & H1). apply mem_init_Ret in H0 as [L0 V0].
  rewrite decide_True in V0 by done.
  apply mem_init_times_inited in H1 as [L1 V1]; [|rewrite V0; simpl; lia..].
  rewrite V0 in V1. simpl in V1. unfold set_mem_inited in V1. simpl in V1.
  rewrite mem_term_inited in H by (rewrite V1; simpl; lia).
  rewrite V1 in H. simpl in H. injection H as <-.
  simpl. rewrite V1, L1, L0. done.
Qed.

Lemma mem_term_does_not_nest_witness :
  libc example_world = libc example_world ∧
  vars example_world
  = mkGlobals 0 MEM_ABORTMSG None 0 0 (heap (vars example_world)) (heapleft (vars example_world)).
Proof.
  apply (mem_term_does_not_nest 1 example_world example_world).
  - reflexivity.
  - reflexivity.
Defined.

(** *** When the allocator has nothing to give *)

Lemma malloc_exhausted n w :
  exhausted_from (requests (libc w)) w →
  malloc n w = Ret NULL (after_requests 1 w).
Proof.
  intros He. unfold malloc, request, mbind, M_bind. rewrite He by lia.
  rewrite decide_True by done. unfold ret, mret, M_ret, after_requests.
  f_equal. unfold on_libc. f_equal. unfold set_requests. f_equal. lia.
Qed.

Lemma mem_malloc_retry_forever fuel : ∀ n w,
  n ≠ 0 →
  mem_behavior (vars w) = MEM_RETRY →
  exhausted_from (requests (libc w)) w →
  mem_malloc fuel n w = OutOfFuel.
Proof.
  intros n w Hn. unfold mem_malloc. rewrite decide_False by done. revert w.
  induction fuel as [|fuel IH]; intros w Hb He; simpl; [done|].
  rewrite (mem_bind_eq _ _ _ _ _ (malloc_exhausted n w He)).
  rewrite decide_True by done.
  unfold mem_exception. unfold mbind at 1, M_bind at 1.
  unfold mbind at 1, M_bind at 1, gets at 1. cbn [vars after_requests on_libc]. rewrite Hb.
  destruct fuel as [|fuel]; [done|]. simpl mem_exception_loop.
  unfold ret, mret, M_ret. rewrite decide_True by done.
  apply IH; [done|].
  intros j sz Hj. apply He. simpl in Hj. lia.
Qed.

(** X17: what [mem_malloc] does when the allocator has nothing to give,
    by the behaviour set: with [MEM_RETNULL] it returns [NULL] after one
    request; with [MEM_ABORT] the process exits and nothing is printed; with
    [MEM_ABORTMSG] the message is printed and the process exits; with
    [MEM_RETRY] it asks again without end and never returns. *)
Theorem mem_malloc_out_of_memory fuel n w :
  n ≠ 0 → (2 ≤ fuel)%nat →
  exhausted_from (requests (libc w)) w →
  let w1 := after_requests 1 w in
  (mem_behavior (vars w) = MEM_RETNULL → mem_malloc fuel n w = Ret NULL w1) ∧
  (mem_behavior (vars w) = MEM_ABORT → mem_malloc fuel n w = Exited w1) ∧
  (mem_behavior (vars w) = MEM_ABORTMSG →
   mem_malloc fuel n w
   = Exited (on_libc (λ l, set_ferr (ferr l ++ [out_of_memory]) l) w1)) ∧
  (mem_behavior (vars w) = MEM_RETRY → ∀ fuel', mem_malloc fuel' n w = OutOfFuel).
Proof.
  intros Hn Hf He w1.
  destruct fuel as [|[|fuel]]; [lia|lia|].
  assert (∀ b, mem_behavior (vars w) = b →
            mem_malloc (S (S fuel)) n w
            = (again ← mem_exception_loop (S fuel) b;
               if decide (again ≠ 0) then alloc_loop (malloc n) (S fuel) else ret NULL) w1) as Hgo.
  { intros b Hb. unfold mem_malloc. rewrite decide_False by done.
    simpl alloc_loop. rewrite (mem_bind_eq _ _ _ _ _ (malloc_exhausted n w He)).
    rewrite decide_True by done. unfold mem_exception.
    unfold mbind at 1, M_bind at 1. unfold mbind at 1, M_bind at 1, gets at 1.
    cbn [vars after_requests on_libc]. rewrite Hb. reflexivity. }
  split_and!.
  - intros Hb. rewrite (Hgo _ Hb). reflexivity.
  - intros Hb. rewrite (Hgo _ Hb). reflexivity.
  - intros Hb. rewrite (Hgo _ Hb). reflexivity.
  - intros Hb fuel'. by apply mem_malloc_retry_forever.
Qed.

Lemma mem_malloc_out_of_memory_witness :
  let w := example_exhausted MEM_RETNULL in
  let w1 := after_requests 1 w in
  (mem_behavior (vars w) = MEM_RETNULL → mem_malloc 2 24 w = Ret NULL w1) ∧
  (mem_behavior (vars w) = MEM_ABORT → mem_malloc 2 24 w = Exited w1) ∧
  (mem_behavior (vars w) = MEM_ABORTMSG →
   mem_malloc 2 24 w
   = Exited (on_libc (λ l, set_ferr (ferr l ++ [out_of_memory]) l) w1)) ∧
  (mem_behavior (vars w) = MEM_RETRY → ∀ fuel', mem_malloc fuel' 24 w = OutOfFuel).
Proof.
  apply (mem_malloc_out_of_memory 2 24 (example_exhausted MEM_RETNULL)).
  - lia.
  - lia.
  - intros j sz _. reflexivity.
Defined.

(** The handler is asked again as long as it answers [MEM_CALLFP]. *)
Lemma mem_exception_loop_handler h j : ∀ fuel w,
  oom_fp (vars w) = Some h →
  (∀ i, (i < j)%nat → h (handler_calls (libc w) + i)%nat = MEM_CALLFP) →
  mem_exception_loop (j + fuel) MEM_CALLFP w
  = mem_exception_loop fuel MEM_CALLFP
      (on_libc (λ l, set_handler_calls (handler_calls l + j)%nat l) w).
Proof.
  induction j as [|j IH]; intros fuel w Hfp Hh.
  - simpl. f_equal. destruct w as [g l]. unfold on_libc. simpl. f_equal.
    destruct l. unfold set_handler_calls. simpl. f_equal. lia.
  - simpl. unfold mbind, M_bind, gets, assert, call_handler. rewrite Hfp. simpl.
    specialize (Hh 0%nat ltac:(lia)) as Hh0. rewrite Nat.add_0_r in Hh0. rewrite Hh0.
    rewrite IH.
    + f_equal. unfold on_libc. simpl. f_equal. unfold set_handler_calls. simpl. f_equal. lia.
    + done.
    + intros i Hi. simpl. specialize (Hh (S i) ltac:(lia)). rewrite <- Hh. f_equal. lia.
Qed.

(** X18: with the behaviour [MEM_CALLFP], [mem_exception] calls the
    handler again as long as it answers [MEM_CALLFP], and the first other
    answer decides: [MEM_RETNULL] gives up, [MEM_RETRY] tries again,
    [MEM_ABORT] and [MEM_ABORTMSG] end the process, the latter after the
    message.  The behaviour that is set stays [MEM_CALLFP]. *)
Theorem mem_exception_handler_chain h j fuel w :
  mem_behavior (vars w) = MEM_CALLFP →
  oom_fp (vars w) = Some h →
  (∀ i, (i < j)%nat → h (handler_calls (libc w) + i)%nat = MEM_CALLFP) →
  let answer := h (handler_calls (libc w) + j)%nat in
  let w' := on_libc (λ l, set_handler_calls (handler_calls l + S j)%nat l) w in
  (answer = MEM_RETNULL → mem_exception (j + S (S fuel)) w = Ret 0 w') ∧
  (answer = MEM_RETRY → mem_exception (j + S (S fuel)) w = Ret 1 w') ∧
  (answer = MEM_ABORT → mem_exception (j + S (S fuel)) w = Exited w') ∧
  (answer = MEM_ABORTMSG →
   mem_exception (j + S (S fuel)) w
   = Exited (on_libc (λ l, set_ferr (ferr l ++ [out_of_memory]) l) w')).
Proof.
  intros Hb Hfp Hh answer w'.
  assert (mem_exception (j + S (S fuel)) w = mem_exception_loop (S fuel) answer w') as Hgo.
  { unfold mem_exception, mbind, M_bind, gets. rewrite Hb.
    rewrite (mem_exception_loop_handler h) by done.
    simpl. unfold mbind, M_bind, gets, assert, call_handler. simpl. rewrite Hfp. simpl.
    unfold answer, w'. f_equal.
    unfold on_libc. simpl. f_equal. unfold set_handler_calls. simpl. f_equal. lia. }
  rewrite Hgo. split_and!; intros ->; reflexivity.
Qed.

Lemma mem_exception_handler_chain_witness :
  let answer := example_handler (handler_calls (libc example_callfp) + 2)%nat in
  let w' := on_libc (λ l, set_handler_calls (handler_calls l + 3)%nat l) example_callfp in
  (answer = MEM_RETNULL → mem_exception (2 + 2) example_callfp = Ret 0 w') ∧
  (answer = MEM_RETRY → mem_exception (2 + 2) example_callfp = Ret 1 w') ∧
  (answer = MEM_ABORT → mem_exception (2 + 2) example_callfp = Exited w') ∧
  (answer = MEM_ABORTMSG →
   mem_exception (2 + 2) example_callfp
   = Exited (on_libc (λ l, set_ferr (ferr l ++ [out_of_memory]) l) w')).
Proof.
  apply (mem_exception_handler_chain example_handler 2 0 example_callfp).
  - reflexivity.
  - reflexivity.
  - intros i Hi. destruct i as [|[|i]]; [reflexivity|reflexivity|lia].
Defined.

(** *** The pool allocator *)

Lemma align16_mod16 n : 0 ≤ n < 2 ^ 64 → align16 n mod 16 = 0.
Proof. intros Hn. rewrite align16_eq by done. apply Z.mod_mul. lia. Qed.

Lemma align16_range n : 0 ≤ n < 2 ^ 64 → 0 ≤ align16 n < 2 ^ 64.
Proof.
  intros Hn. rewrite align16_eq by done.
  pose proof (Z.mod_pos_bound (n + 15) (2 ^ 64) ltac:(lia)) as Hb.
  pose proof (Z.div_mod ((n + 15) mod 2 ^ 64) 16 ltac:(lia)) as Hd.
  pose proof (Z.mod_pos_bound ((n + 15) mod 2 ^ 64) 16 ltac:(lia)) as Hm.
  lia.
Qed.

(** X19: [mem_fmalloc] returns [NULL] and leaves everything as it is for a
    request of 0 bytes, and also for a request of more than [SIZE_MAX - 15]
    bytes, whose size rounded up to a multiple of 16 wraps around to 0. *)
Theorem mem_fmalloc_null_requests fuel n w :
  n = 0 ∨ 2 ^ 64 - 16 < n < 2 ^ 64 →
  mem_fmalloc fuel n w = Ret NULL w.
Proof.
  intros Hn. unfold mem_fmalloc.
  assert (align16 n = 0) as -> by (destruct Hn as [->|Hn]; [reflexivity|by apply align16_wraps]).
  reflexivity.
Qed.

Lemma mem_fmalloc_null_requests_witness :
  mem_fmalloc 1 (2 ^ 64 - 1) example_world = Ret NULL example_world.
Proof.
  apply (mem_fmalloc_null_requests 1 (2 ^ 64 - 1) example_world).
  right. lia.
Defined.

Lemma take_from_heap_eq r w :
  take_from_heap r w = Ret (heap (vars w)) (on_vars (cut r) w).
Proof. reflexivity. Qed.

Lemma mem_fmalloc_eq fuel n w :
  mem_fmalloc fuel n w
  = if decide (align16 n = 0) then Ret NULL w
    else if decide (align16 n ≤ heapleft (vars w))
         then Ret (heap (vars w)) (on_vars (cut (align16 n)) w)
         else refill fuel (align16 n) (on_vars (set_heapleft (chunk_size (align16 n))) w).
Proof.
  unfold mem_fmalloc. destruct (decide (align16 n = 0)); [done|].
  unfold mbind, M_bind, gets. destruct (decide (align16 n ≤ heapleft (vars w))); [done|].
  unfold modify, chunk_size. simpl.
  destruct (decide (16372 ≤ size_t (align16 n + 15360))); reflexivity.
Qed.

Lemma refill_Ret fuel r : ∀ w p w',
  refill fuel r w = Ret p w' →
  same_but_pool (vars w) (vars w') ∧
  memory (libc w') = memory (libc w) ∧
  allocator (libc w') = allocator (libc w) ∧
  (requests (libc w) < requests (libc w'))%nat ∧
  if decide (p = NULL)
  then heap (vars w') = NULL ∧ heapleft (vars w') = heapleft (vars w) ∧
       live (libc w') = live (libc w)
  else (∃ k, p = allocator (libc w) k (heapleft (vars w))) ∧
       live (libc w') = (p, heapleft (vars w)) :: live (libc w) ∧
       heap (vars w') = size_t (p + r) ∧
       heapleft (vars w') = size_t (heapleft (vars w) - r).
Proof.
  induction fuel as [|fuel IH]; intros w p w' H; simpl in H; [discriminate|].
  apply mem_bind_Ret in H as (hl & w0 & H0 & H). apply mem_gets_Ret in H0 as [-> ->].
  apply mem_bind_Ret in H as (h & w1 & H1 & H).
  apply malloc_Ret in H1 as (Hh & A0 & A1 & A2 & A3 & A4 & A5 & A6).
  apply mem_bind_Ret in H as ([] & w2 & H2 & H). apply mem_modify_Ret in H2. subst w2.
  destruct (decide (h = NULL)) as [->|Hne].
  - apply mem_bind_Ret in H as (again & w3 & H3 & H).
    apply mem_exception_Ret in H3 as [H3 _].
    pose proof H3 as [V3 [k3 L3]]. apply handler_ran_quiet in H3 as (B1 & B2 & B3 & B4 & B5).
    simpl in *.
    destruct (decide (again ≠ 0)).
    + apply IH in H as (C1 & C2 & C3 & C4 & C5).
      assert (heapleft (vars w3) = heapleft (vars w)) as Ehl by (rewrite B1, A1; done).
      assert (live (libc w3) = live (libc w)) as Elive by (rewrite B2; done).
      split_and!.
      * unfold same_but_pool in *. rewrite C1, B1. simpl. rewrite A1. done.
      * congruence.
      * congruence.
      * rewrite L3 in C4. simpl in C4. lia.
      * destruct (decide (p = NULL)).
        -- rewrite Ehl, Elive in C5. done.
        -- rewrite Ehl, Elive in C5. destruct C5 as ([k Hk] & C5). split; [|done].
           exists k. rewrite Hk. by rewrite B5, A4.
    + mem_inv. rewrite decide_True by done. split_and!.
      * unfold same_but_pool. rewrite B1. simpl. rewrite A1. done.
      * congruence.
      * congruence.
      * rewrite L3. simpl. lia.
      * rewrite B1. done.
      * rewrite B1. simpl. by rewrite A1.
      * rewrite B2. done.
  - rewrite take_from_heap_eq in H. injection H as <- <-. simpl.
    rewrite decide_False by done.
    split_and!; try done.
    + unfold same_but_pool. simpl. rewrite A1. done.
    + lia.
    + by eexists.
    + by rewrite A1.
Qed.

Lemma mod16_size_t z : size_t z mod 16 = z mod 16.
Proof.
  unfold size_t. replace (2 ^ 64) with (16 * 2 ^ 60) by reflexivity.
  rewrite Z.rem_mul_r by lia.
  rewrite (Z.mul_comm 16), Z.mod_add by lia. apply Z.mod_mod. lia.
Qed.

Lemma add_mod16 a r : a mod 16 = 0 → r mod 16 = 0 → (a + r) mod 16 = 0.
Proof. intros Ha Hr. rewrite Z.add_mod, Ha, Hr by lia. reflexivity. Qed.

(** X20: when the allocator hands out addresses that are multiples of 16
    and the pool pointer is one, what [mem_fmalloc] returns is a multiple of
    16 and the pool pointer is one afterwards: every block of the pool is
    aligned to 16 bytes. *)
Theorem mem_fmalloc_aligned fuel n w p w' :
  0 ≤ n < 2 ^ 64 →
  (∀ k sz, allocator (libc w) k sz mod 16 = 0) →
  heap (vars w) mod 16 = 0 →
  mem_fmalloc fuel n w = Ret p w' →
  p mod 16 = 0 ∧ heap (vars w') mod 16 = 0 ∧ allocator (libc w') = allocator (libc w).
Proof.
  intros Hn Ha Hh H. rewrite mem_fmalloc_eq in H.
  pose proof (align16_mod16 n Hn) as Hr.
  destruct (decide (align16 n = 0)); [by injection H as <- <-|].
  destruct (decide (align16 n ≤ heapleft (vars w))).
  - injection H as <- <-. simpl. split_and!; [done| |done].
    rewrite mod16_size_t. by apply add_mod16.
  - apply refill_Ret in H as (_ & _ & A3 & _ & A5). simpl in A3.
    destruct (decide (p = NULL)) as [->|Hp].
    + destruct A5 as (-> & _). done.
    + destruct A5 as ([k ->] & _ & -> & _). simpl.
      split_and!; [apply Ha| |done].
      rewrite mod16_size_t. apply add_mod16; [apply Ha|done].
Qed.

Lemma mem_fmalloc_aligned_witness :
  4096 mod 16 = 0 ∧ heap (vars example_after_fmalloc) mod 16 = 0 ∧
  allocator (libc example_after_fmalloc) = allocator (libc example_world).
Proof.
  apply (mem_fmalloc_aligned 2 24 example_world 4096 example_after_fmalloc).
  - lia.
  - intros k sz. change (allocator (libc example_world)) with example_allocator.
    unfold example_allocator. destruct (sz <? 1048576); [|reflexivity].
    replace (4096 + 1048576 * Z.of_nat (k mod 1000))
      with ((256 + 65536 * Z.of_nat (k mod 1000)) * 16) by lia.
    apply Z.mod_mul. lia.
  - reflexivity.
  - reflexivity.
Defined.

Lemma chunk_size_bounds r :
  0 < r < 2 ^ 63 → r ≤ chunk_size r < 2 ^ 64.
Proof.
  intros Hr. unfold chunk_size, size_t. rewrite Z.mod_small by lia.
  destruct (decide (16372 ≤ r + 15360)); lia.
Qed.

(** X21: for a request below 2^62 bytes, when the pool is empty or the end
    of a live chunk and the allocator's blocks lie inside the address space,
    a block that [mem_fmalloc] returns lies, with its size rounded up to a
    multiple of 16, inside a live chunk; it starts where the pool started or
    at the start of a chunk just obtained; and the pool is afterwards the
    rest of that chunk, right behind the block. *)
Theorem mem_fmalloc_within_chunk fuel n w p w' :
  0 < n < 2 ^ 62 →
  fits w → pool_ok w →
  mem_fmalloc fuel n w = Ret p w' →
  p ≠ NULL →
  pool_ok w' ∧
  heap (vars w') = p + align16 n ∧
  ((p = heap (vars w) ∧ live (libc w') = live (libc w)) ∨
   (∃ c, live (libc w') = (p, c) :: live (libc w))) ∧
  ∃ base size,
    (base, size) ∈ live (libc w') ∧ base ≤ p ∧ p + align16 n ≤ base + size.
Proof.
  intros Hn Hfits Hpool H Hp. rewrite mem_fmalloc_eq in H.
  pose proof (align16_small n ltac:(lia)) as (Hr1 & _ & _).
  set (r := align16 n) in *.
  destruct (decide (r = 0)); [lia|].
  destruct (decide (r ≤ heapleft (vars w))) as [Hfit|Hfit].
  - injection H as <- <-. simpl.
    destruct Hpool as [Hz|(base & size & Hin & Hb0 & Hb & Hl & Hsum & Htop)]; [lia|].
    unfold size_t. rewrite !Z.mod_small by lia.
    split_and!.
    + right. exists base, size. unfold cut. simpl. unfold size_t.
      rewrite !Z.mod_small by lia. split_and!; try done; lia.
    + done.
    + by left.
    + exists base, size. split_and!; [done|done|lia].
  - apply refill_Ret in H as (_ & _ & _ & _ & A5). rewrite decide_False in A5 by done.
    destruct A5 as ([k Hk] & A6 & A7 & A8). simpl in *.
    pose proof (chunk_size_bounds r ltac:(lia)) as Hc.
    set (c := chunk_size r) in *.
    assert (0 < p ∧ p + c < 2 ^ 64) as [Hp0 Hpc].
    { rewrite Hk. apply Hfits. by rewrite <- Hk. }
    unfold size_t in A7, A8. rewrite Z.mod_small in A7, A8 by lia.
    split_and!.
    + right. exists p, c. rewrite A6, A7, A8.
      split_and!; try lia. by left.
    + done.
    + right. by exists c.
    + exists p, c. rewrite A6. split_and!; [by left|lia|lia].
Qed.

Lemma mem_fmalloc_within_chunk_witness :
  pool_ok example_after_fmalloc ∧
  heap (vars example_after_fmalloc) = 4096 + align16 24 ∧
  ((4096 = heap (vars example_world) ∧
    live (libc example_after_fmalloc) = live (libc example_world)) ∨
   (∃ c, live (libc example_after_fmalloc) = (4096, c) :: live (libc example_world))) ∧
  ∃ base size,
    (base, size) ∈ live (libc example_after_fmalloc) ∧ base ≤ 4096 ∧
    4096 + align16 24 ≤ base + size.
Proof.
  apply (mem_fmalloc_within_chunk 2 24 example_world 4096 example_after_fmalloc).
  - lia.
  - intros k sz. change (allocator (libc example_world)) with example_allocator.
    unfold example_allocator. destruct (sz <? 1048576) eqn:E; [|done]. intros _.
    apply Z.ltb_lt in E.
    pose proof (Nat.mod_upper_bound k 1000 ltac:(lia)) as Hk. lia.
  - left. reflexivity.
  - reflexivity.
  - unfold NULL. lia.
Defined.

Lemma malloc_fail n w :
  allocator (libc w) (requests (libc w)) n = NULL →
  malloc n w = Ret NULL (after_requests 1 w).
Proof.
  intros Ha. unfold malloc, request, mbind, M_bind. rewrite Ha.
  rewrite decide_True by done. unfold ret, mret, M_ret, after_requests.
  f_equal. unfold on_libc. f_equal. unfold set_requests. f_equal. lia.
Qed.

Lemma refill_fail fuel r w :
  (1 ≤ fuel)%nat →
  mem_behavior (vars w) = MEM_RETNULL →
  allocator (libc w) (requests (libc w)) (heapleft (vars w)) = NULL →
  refill (S fuel) r w = Ret NULL (on_vars (set_heap NULL) (after_requests 1 w)).
Proof.
  intros Hf Hb Ha. cbn [refill].
  unfold mbind at 1, M_bind at 1, gets at 1.
  rewrite (mem_bind_eq _ _ _ _ _ (malloc_fail _ w Ha)).
  unfold mbind at 1, M_bind at 1, modify at 1.
  rewrite decide_True by done.
  destruct fuel as [|fuel]; [lia|].
  unfold mem_exception, mbind, M_bind, gets.
  cbn [vars on_vars after_requests on_libc mem_behavior set_heap].
  rewrite Hb. reflexivity.
Qed.

(** X22: with the behaviour [MEM_RETNULL], a call of [mem_fmalloc] whose
    request for a new chunk fails returns [NULL] and leaves the pool with
    the pointer [NULL] and the size of the chunk it asked for.  The next
    small request is served from that pool: it returns address 0, and the
    one after it returns an address that is not [NULL], although no block
    has been obtained from the allocator. *)
Theorem mem_fmalloc_after_failed_refill fuel n m w :
  (2 ≤ fuel)%nat →
  mem_behavior (vars w) = MEM_RETNULL →
  0 < n ≤ 1000 → 0 < m ≤ 1000 →
  heapleft (vars w) < align16 n →
  allocator (libc w) (requests (libc w)) (align16 n + 0x3C00) = NULL →
  ∃ w1 w2 w3,
    mem_fmalloc fuel n w = Ret NULL w1 ∧
    heap (vars w1) = NULL ∧ heapleft (vars w1) = align16 n + 0x3C00 ∧
    mem_fmalloc fuel m w1 = Ret NULL w2 ∧
    mem_fmalloc fuel m w2 = Ret (align16 m) w3 ∧
    align16 m ≠ NULL ∧
    live (libc w3) = live (libc w) ∧
    requests (libc w3) = S (requests (libc w)).
Proof.
  intros Hf Hb Hn Hm Hl Ha.
  pose proof (align16_small n ltac:(lia)) as (Hn1 & Hn2 & _).
  pose proof (align16_small m ltac:(lia)) as (Hm1 & Hm2 & _).
  set (rn := align16 n) in *. set (rm := align16 m) in *.
  assert (rn ≤ 1008) as Hrn.
  { pose proof (Z.div_mod rn 16 ltac:(lia)). lia. }
  assert (rm ≤ 1008) as Hrm.
  { pose proof (Z.div_mod rm 16 ltac:(lia)). lia. }
  assert (chunk_size rn = rn + 15360) as Hc.
  { unfold chunk_size, size_t. rewrite Z.mod_small by lia. rewrite decide_False by lia. done. }
  destruct fuel as [|fuel]; [lia|].
  eexists _, _, _. split_and!.
  - rewrite mem_fmalloc_eq. fold rn. rewrite decide_False by lia.
    rewrite decide_False by lia. rewrite Hc.
    apply refill_fail; [lia|done|done].
  - reflexivity.
  - reflexivity.
  - rewrite mem_fmalloc_eq. fold rm. rewrite decide_False by lia.
    rewrite decide_True by (simpl; lia). reflexivity.
  - rewrite mem_fmalloc_eq. fold rm. rewrite decide_False by lia.
    simpl. unfold size_t, NULL. rewrite !Z.mod_small by lia.
    rewrite decide_True by lia. simpl. f_equal.
  - unfold NULL. lia.
  - reflexivity.
  - simpl. lia.
Qed.

Lemma mem_fmalloc_after_failed_refill_witness :
  ∃ w1 w2 w3,
    mem_fmalloc 2 24 (example_exhausted MEM_RETNULL) = Ret NULL w1 ∧
    heap (vars w1) = NULL ∧ heapleft (vars w1) = align16 24 + 0x3C00 ∧
    mem_fmalloc 2 40 w1 = Ret NULL w2 ∧
    mem_fmalloc 2 40 w2 = Ret (align16 40) w3 ∧
    align16 40 ≠ NULL ∧
    live (libc w3) = live (libc (example_exhausted MEM_RETNULL)) ∧
    requests (libc w3) = S (requests (libc (example_exhausted MEM_RETNULL))).
Proof.
  apply (mem_fmalloc_after_failed_refill 2 24 40 (example_exhausted MEM_RETNULL)).
  - lia.
  - reflexivity.
  - lia.
  - lia.
  - reflexivity.
  - reflexivity.
Defined.

Lemma mem_fmalloc_memory fuel n w p w' :
  mem_fmalloc fuel n w = Ret p w' → memory (libc w') = memory (libc w).
Proof.
  intros H. rewrite mem_fmalloc_eq in H.
  destruct (decide (align16 n = 0)); [by injection H as <- <-|].
  destruct (decide (align16 n ≤ heapleft (vars w))); [by injection H as <- <-|].
  by apply refill_Ret in H as (_ & A2 & _).
Qed.

(** X23: the bytes of a block that [mem_fcalloc] returns are 0, as many as
    were asked for, and no other byte of the memory has changed; when it
    returns [NULL] the memory is as it was. *)
Theorem mem_fcalloc_zeroes fuel n w p w' :
  0 ≤ n →
  mem_fcalloc fuel n w = Ret p w' →
  ∀ a, memory (libc w') !! a
       = if decide (p ≠ NULL ∧ p ≤ a < p + n) then Some 0 else memory (libc w) !! a.
Proof.
  intros Hn H a. unfold mem_fcalloc in H.
  apply mem_bind_Ret in H as (q & w1 & H1 & H). apply mem_fmalloc_memory in H1.
  destruct (decide (q ≠ NULL)) as [Hq|Hq].
  - unfold memset in H. mem_inv. simpl. rewrite memset_from_lookup, H1.
    rewrite Z2Nat.id by done.
    destruct (decide (q ≤ a < q + n)), (decide (q ≠ NULL ∧ q ≤ a < q + n)); try done; tauto.
  - mem_inv. rewrite H1. rewrite decide_False by tauto. done.
Qed.

Lemma mem_fcalloc_zeroes_witness :
  memory (libc example_after_fcalloc) !! 4100
  = if decide (4096 ≠ NULL ∧ 4096 ≤ 4100 < 4096 + 24) then Some 0
    else memory (libc example_world) !! 4100.
Proof.
  apply (mem_fcalloc_zeroes 2 24 example_world 4096 example_after_fcalloc).
  - lia.
  - reflexivity.
Defined.

(** *** Copies of strings *)

Lemma strlen_cstring bytes : ∀ fuel s w n w',
  cstring (memory (libc w)) s bytes →
  strlen fuel s w = Ret n w' → n = Z.of_nat (length bytes).
Proof.
  induction bytes as [|b rest IH]; intros fuel s w n w' Hs H;
    (destruct fuel as [|fuel]; [discriminate|]); simpl in H, Hs.
  - unfold mbind, M_bind, gets in H. rewrite Hs in H. by injection H as <- _.
  - destruct Hs as (Hb & Hm & Hs).
    unfold mbind at 1, M_bind at 1, gets at 1 in H. rewrite Hm in H.
    assert ((n' ← strlen fuel (s + 1); ret (n' + 1)) w = Ret n w') as H'.
    { destruct b; [done|exact H|exact H]. }
    apply mem_bind_Ret in H' as (n' & w1 & H1 & H2). apply mem_ret_Ret in H2 as [-> ->].
    apply (IH _ _ _ _ _ Hs) in H1. simpl length. lia.
Qed.

Lemma memcpy_from_lookup src n : ∀ dst_p src_p m a,
  memcpy_from src dst_p src_p n m !! a
  = if decide (dst_p ≤ a < dst_p + Z.of_nat n) then src !! (src_p + (a - dst_p)) else m !! a.
Proof.
  induction n as [|n IH]; intros dst_p src_p m a; simpl memcpy_from.
  - rewrite decide_False by lia. done.
  - destruct (decide (a = dst_p)) as [->|Hne].
    + rewrite decide_True by lia. replace (src_p + (dst_p - dst_p)) with src_p by lia.
      destruct (src !! src_p); [by rewrite lookup_insert_eq|by rewrite lookup_delete_eq].
    + assert (memcpy_from src (dst_p + 1) (src_p + 1) n m !! a
              = if decide (dst_p ≤ a < dst_p + Z.of_nat (S n))
                then src !! (src_p + (a - dst_p)) else m !! a) as Hgo.
      { rewrite IH.
        destruct (decide (dst_p + 1 ≤ a < dst_p + 1 + Z.of_nat n)),
          (decide (dst_p ≤ a < dst_p + Z.of_nat (S n))); try done; try lia.
        f_equal. lia. }
      destruct (src !! src_p); [by rewrite lookup_insert_ne|by rewrite lookup_delete_ne].
Qed.

Lemma cstring_copy bytes : ∀ m m' s p,
  (∀ i, 0 ≤ i ≤ Z.of_nat (length bytes) → m' !! (p + i) = m !! (s + i)) →
  cstring m s bytes → cstring m' p bytes.
Proof.
  induction bytes as [|b rest IH]; intros m m' s p Hcp Hs; simpl in *.
  - specialize (Hcp 0 ltac:(lia)). rewrite !Z.add_0_r in Hcp. by rewrite Hcp.
  - destruct Hs as (Hb & Hm & Hs). split_and!; [done| |].
    + specialize (Hcp 0 ltac:(lia)). rewrite !Z.add_0_r in Hcp. by rewrite Hcp.
    + apply (IH m m' (s + 1) (p + 1)); [|done].
      intros i Hi. specialize (Hcp (1 + i) ltac:(lia)). by rewrite !Z.add_assoc in Hcp.
Qed.

Lemma strlen_total bytes : ∀ fuel s w,
  cstring (memory (libc w)) s bytes →
  (length bytes < fuel)%nat →
  strlen fuel s w = Ret (Z.of_nat (length bytes)) w.
Proof.
  induction bytes as [|b rest IH]; intros fuel s w Hs Hf;
    (destruct fuel as [|fuel]; [simpl in Hf; lia|]); simpl in Hs; cbn [strlen].
  - unfold mbind, M_bind, gets. rewrite Hs. reflexivity.
  - destruct Hs as (Hb & Hm & Hs).
    unfold mbind at 1, M_bind at 1, gets at 1. rewrite Hm.
    assert ((n ← strlen fuel (s + 1); ret (n + 1)) w
            = Ret (Z.of_nat (length (b :: rest))) w) as Hgo.
    { rewrite (mem_bind_eq _ _ _ _ _ (IH fuel (s + 1) w Hs ltac:(simpl in Hf; lia))).
      unfold ret, mret, M_ret. f_equal. simpl length. lia. }
    destruct b; [done|exact Hgo|exact Hgo].
Qed.

Lemma mem_malloc_serves fuel n w :
  (1 ≤ fuel)%nat → n ≠ 0 →
  allocator (libc w) (requests (libc w)) n ≠ NULL →
  mem_count (vars w) ≠ INT_MAX →
  ∃ w', mem_malloc fuel n w = Ret (allocator (libc w) (requests (libc w)) n) w'.
Proof.
  intros Hf Hn Ha Hc. destruct fuel as [|fuel]; [lia|].
  unfold mem_malloc. rewrite decide_False by done. cbn [alloc_loop].
  unfold malloc, request, count_up, incr, mbind, M_bind, modify, gets, ret, mret, M_ret.
  rewrite decide_False by done. simpl. rewrite decide_False by done.
  rewrite decide_False by done. by eexists.
Qed.

Lemma mem_malloc_retnull fuel n w :
  (2 ≤ fuel)%nat → n ≠ 0 →
  allocator (libc w) (requests (libc w)) n = NULL →
  mem_behavior (vars w) = MEM_RETNULL →
  mem_malloc fuel n w = Ret NULL (after_requests 1 w).
Proof.
  intros Hf Hn Ha Hb. destruct fuel as [|[|fuel]]; [lia|lia|].
  unfold mem_malloc. rewrite decide_False by done. cbn [alloc_loop].
  rewrite (mem_bind_eq _ _ _ _ _ (malloc_fail n w Ha)).
  rewrite decide_True by done.
  unfold mem_exception, mbind, M_bind, gets.
  cbn [vars after_requests on_libc mem_exception_loop]. rewrite Hb. reflexivity.
Qed.

Lemma mem_malloc_abortmsg fuel n w :
  (2 ≤ fuel)%nat → n ≠ 0 →
  allocator (libc w) (requests (libc w)) n = NULL →
  mem_behavior (vars w) = MEM_ABORTMSG →
  mem_malloc fuel n w
  = Exited (on_libc (λ l, set_ferr (ferr l ++ [out_of_memory]) l) (after_requests 1 w)).
Proof.
  intros Hf Hn Ha Hb. destruct fuel as [|[|fuel]]; [lia|lia|].
  unfold mem_malloc. rewrite decide_False by done. cbn [alloc_loop].
  rewrite (mem_bind_eq _ _ _ _ _ (malloc_fail n w Ha)).
  rewrite decide_True by done.
  unfold mem_exception, mbind, M_bind, gets.
  cbn [vars after_requests on_libc mem_exception_loop]. rewrite Hb. reflexivity.
Qed.

Lemma mem_strdup_Ret fuel s bytes w p w' :
  s ≠ NULL →
  cstring (memory (libc w)) s bytes →
  Z.of_nat (length bytes) + 1 < 2 ^ 64 →
  mem_strdup fuel s w = Ret p w' →
  let len := Z.of_nat (length bytes) + 1 in
  if decide (p = NULL)
  then vars w' = vars w ∧ live (libc w') = live (libc w) ∧
       memory (libc w') = memory (libc w)
  else cstring (memory (libc w')) p bytes ∧
       live (libc w') = (p, len) :: live (libc w) ∧
       vars w' = set_mem_count (mem_count (vars w) + 1) (vars w) ∧
       ∀ a, ¬ (p ≤ a < p + len) → memory (libc w') !! a = memory (libc w) !! a.
Proof.
  intros Hs Hstr Hlen H len. unfold mem_strdup in H. rewrite decide_True in H by done.
  apply mem_bind_Ret in H as (n & w1 & H1 & H).
  pose proof (strlen_cstring _ _ _ _ _ _ Hstr H1) as ->. apply strlen_Ret in H1. subst w1.
  replace (size_t (Z.of_nat (length bytes) + 1)) with len in H
    by (unfold size_t, len; rewrite Z.mod_small; lia).
  apply mem_bind_Ret in H as (q & w2 & H2 & H).
  pose proof H2 as Hm. unfold mem_malloc in Hm. rewrite decide_False in Hm by (unfold len; lia).
  apply alloc_loop_Ret in Hm; [|apply malloc_fail_quiet].
  apply mem_malloc_Ret in H2.
  destruct (decide (q ≠ NULL)) as [Hq|Hq].
  - rewrite decide_False in H2 by done. destruct H2 as (_ & A1 & A2).
    destruct Hm as [[? _]|(_ & w0 & w3 & (_ & _ & B3 & _) & Hmal & _ & ->)]; [done|].
    apply malloc_Ret in Hmal as (_ & _ & _ & C2 & _).
    unfold memcpy in H. mem_inv. rewrite decide_False by done. simpl in *.
    assert (∀ a, memcpy_from (memory (libc w3)) q s (Z.to_nat len) (memory (libc w3)) !! a
                 = if decide (q ≤ a < q + len) then memory (libc w) !! (s + (a - q))
                   else memory (libc w) !! a) as Hcp.
    { intros a. rewrite memcpy_from_lookup, Z2Nat.id by (unfold len; lia).
      by rewrite C2, B3. }
    split_and!; [|done|done|].
    + apply (cstring_copy bytes (memory (libc w)) _ s q); [|done].
      intros i Hi. rewrite Hcp. rewrite decide_True by (unfold len; lia). f_equal. lia.
    + intros a Ha. rewrite Hcp. by rewrite decide_False.
  - assert (q = NULL) as -> by (by destruct (decide (q = NULL))).
    rewrite decide_True in H2 by done. destruct H2 as [A1 A2].
    destruct Hm as [[_ (_ & _ & B3 & _)]|(? & _)]; [|done].
    mem_inv. rewrite decide_True by done. done.
Qed.

Lemma mem_strdup_eq fuel s bytes w :
  s ≠ NULL →
  cstring (memory (libc w)) s bytes →
  Z.of_nat (length bytes) + 1 < 2 ^ 64 →
  (length bytes < fuel)%nat →
  mem_strdup fuel s w
  = (p ← mem_malloc fuel (Z.of_nat (length bytes) + 1);
     if decide (p ≠ NULL) then memcpy p s (Z.of_nat (length bytes) + 1);; ret p
     else ret NULL) w.
Proof.
  intros Hs Hstr Hlen Hf. unfold mem_strdup. rewrite decide_True by done.
  rewrite (mem_bind_eq _ _ _ _ _ (strlen_total bytes fuel s w Hstr Hf)).
  unfold size_t. rewrite Z.mod_small by lia. reflexivity.
Qed.

Lemma malloc_serves n w :
  allocator (libc w) (requests (libc w)) n ≠ NULL →
  malloc n w
  = Ret (allocator (libc w) (requests (libc w)) n)
      (on_libc (λ l, set_live ((allocator (libc w) (requests (libc w)) n, n) :: live l) l)
         (on_libc (λ l, set_requests (S (requests l)) l) w)).
Proof.
  intros Ha. unfold malloc, request, mbind, M_bind, modify, ret, mret, M_ret.
  rewrite decide_False by done. reflexivity.
Qed.

Lemma refill_serves fuel r w :
  (1 ≤ fuel)%nat →
  allocator (libc w) (requests (libc w)) (heapleft (vars w)) ≠ NULL →
  ∃ w', refill fuel r w = Ret (allocator (libc w) (requests (libc w)) (heapleft (vars w))) w'.
Proof.
  intros Hf Ha. destruct fuel as [|fuel]; [lia|]. cbn [refill].
  unfold mbind at 1, M_bind at 1, gets at 1.
  rewrite (mem_bind_eq _ _ _ _ _ (malloc_serves _ w Ha)).
  unfold mbind at 1, M_bind at 1, modify at 1.
  rewrite decide_False by done. rewrite take_from_heap_eq. by eexists.
Qed.

(** What a block that [mem_fmalloc] returns has to do with the pool. *)
Lemma mem_fmalloc_Ret fuel n w p w' :
  mem_fmalloc fuel n w = Ret p w' →
  p ≠ NULL →
  heap (vars w') = size_t (p + align16 n) ∧
  ((align16 n ≤ heapleft (vars w) ∧ p = heap (vars w) ∧ live (libc w') = live (libc w)) ∨
   (heapleft (vars w) < align16 n ∧
    live (libc w') = (p, chunk_size (align16 n)) :: live (libc w))).
Proof.
  intros H Hp. rewrite mem_fmalloc_eq in H.
  destruct (decide (align16 n = 0)); [injection H as <- <-; done|].
  destruct (decide (align16 n ≤ heapleft (vars w))).
  - injection H as <- <-. simpl. split; [done|]. by left.
  - apply refill_Ret in H as (_ & _ & _ & _ & A5). rewrite decide_False in A5 by done.
    destruct A5 as (_ & A6 & A7 & _). simpl in *. split; [done|]. right. split; [lia|done].
Qed.

Lemma mem_fstrdup_eq fuel s bytes w :
  s ≠ NULL →
  cstring (memory (libc w)) s bytes →
  Z.of_nat (length bytes) + 1 < 2 ^ 64 →
  (length bytes < fuel)%nat →
  mem_fstrdup fuel s w
  = (p ← mem_fmalloc fuel (Z.of_nat (length bytes) + 1);
     if decide (p ≠ NULL) then memcpy p s (Z.of_nat (length bytes) + 1);; ret p
     else ret NULL) w.
Proof.
  intros Hs Hstr Hlen Hf. unfold mem_fstrdup. rewrite decide_True by done.
  rewrite (mem_bind_eq _ _ _ _ _ (strlen_total bytes fuel s w Hstr Hf)).
  unfold size_t. rewrite Z.mod_small by lia. reflexivity.
Qed.

(** X24: [mem_strdup] of a string need not return.  When the allocator
    serves the request for the length of the string and one byte more and
    [mem_count] is not at [INT_MAX], [mem_strdup] returns the block the
    allocator gave; when the allocator refuses the request, [mem_strdup]
    returns [NULL] with the behaviour [MEM_RETNULL], and with [MEM_ABORTMSG]
    it prints the message and the process exits.  Whenever it returns, it has
    returned [NULL] and changed neither the variables nor the live blocks
    nor the memory, or it has returned a block that is live and counted, has
    the length of the string and one byte more, and holds the same bytes
    followed by a 0 byte; the memory outside the block is as it was. *)
Theorem mem_strdup_copies fuel s bytes w :
  s ≠ NULL →
  cstring (memory (libc w)) s bytes →
  Z.of_nat (length bytes) + 1 < 2 ^ 64 →
  (length bytes + 1 < fuel)%nat →
  let len := Z.of_nat (length bytes) + 1 in
  let q := allocator (libc w) (requests (libc w)) len in
  (q ≠ NULL → mem_count (vars w) ≠ INT_MAX → ∃ w', mem_strdup fuel s w = Ret q w') ∧
  (q = NULL → mem_behavior (vars w) = MEM_RETNULL →
   mem_strdup fuel s w = Ret NULL (after_requests 1 w)) ∧
  (q = NULL → mem_behavior (vars w) = MEM_ABORTMSG →
   mem_strdup fuel s w
   = Exited (on_libc (λ l, set_ferr (ferr l ++ [out_of_memory]) l) (after_requests 1 w))) ∧
  ∀ p w', mem_strdup fuel s w = Ret p w' →
    if decide (p = NULL)
    then vars w' = vars w ∧ live (libc w') = live (libc w) ∧
         memory (libc w') = memory (libc w)
    else cstring (memory (libc w')) p bytes ∧
         live (libc w') = (p, len) :: live (libc w) ∧
         vars w' = set_mem_count (mem_count (vars w) + 1) (vars w) ∧
         ∀ a, ¬ (p ≤ a < p + len) → memory (libc w') !! a = memory (libc w) !! a.
Proof.
  intros Hs Hstr Hlen Hf len q.
  pose proof (mem_strdup_eq fuel s bytes w Hs Hstr Hlen ltac:(lia)) as Heq. fold len in Heq.
  split_and!.
  - intros Hq Hc.
    destruct (mem_malloc_serves fuel len w ltac:(lia) ltac:(unfold len; lia) Hq Hc) as [w1 H1].
    rewrite Heq, (mem_bind_eq _ _ _ _ _ H1). fold q. rewrite decide_True by done.
    unfold memcpy, mbind, M_bind, modify. by eexists.
  - intros Hq Hb. rewrite Heq.
    rewrite (mem_bind_eq _ _ _ _ _
               (mem_malloc_retnull fuel len w ltac:(lia) ltac:(unfold len; lia) Hq Hb)).
    rewrite decide_False by (intros H; by apply H). reflexivity.
  - intros Hq Hb. rewrite Heq. unfold mbind, M_bind.
    by rewrite (mem_malloc_abortmsg fuel len w ltac:(lia) ltac:(unfold len; lia) Hq Hb).
  - intros p w' H. by apply (mem_strdup_Ret fuel s bytes w p w').
Qed.

Lemma mem_strdup_copies_witness :
  ∃ w', mem_strdup 4 100 example_string_world = Ret 4096 w' ∧
        cstring (memory (libc w')) 4096 [104; 105] ∧
        live (libc w') = [(4096, 3)] ∧
        mem_count (vars w') = 1.
Proof.
  destruct (mem_strdup_copies 4 100 [104; 105] example_string_world) as (H1 & _ & _ & H4).
  - unfold NULL. lia.
  - simpl. split_and!; (reflexivity || lia).
  - simpl. lia.
  - simpl. lia.
  - destruct H1 as [w' Hw'].
    + intros H. vm_compute in H. discriminate H.
    + simpl. unfold INT_MAX. lia.
    + exists w'. split; [exact Hw'|].
      apply H4 in Hw'. destruct Hw' as (A1 & A2 & A3 & _).
      split_and!; [exact A1|exact A2|by rewrite A3].
Defined.

(** X25: for a string of at most 2^64 - 17 bytes.  When the pool has room
    for the length of the string and one byte more, rounded up to a multiple
    of 16, and its pointer is not [NULL], [mem_fstrdup] returns the pool
    pointer; when the pool has no room and the allocator serves the request
    for a new chunk, it returns the start of that chunk.  Whenever it
    returns, it has returned [NULL] and left the memory as it is, or a block
    cut off the pool: the block starts where the pool started, or at the
    start of a chunk just obtained, the pool pointer is afterwards behind the
    rounded length, and the block holds the same bytes followed by a 0 byte;
    the memory outside the block is as it was. *)
Theorem mem_fstrdup_copies fuel s bytes w :
  s ≠ NULL →
  cstring (memory (libc w)) s bytes →
  Z.of_nat (length bytes) + 1 ≤ 2 ^ 64 - 16 →
  (length bytes < fuel)%nat →
  let len := Z.of_nat (length bytes) + 1 in
  let r := align16 len in
  let c := allocator (libc w) (requests (libc w)) (chunk_size r) in
  (r ≤ heapleft (vars w) → heap (vars w) ≠ NULL →
   ∃ w', mem_fstrdup fuel s w = Ret (heap (vars w)) w') ∧
  (heapleft (vars w) < r → c ≠ NULL → ∃ w', mem_fstrdup fuel s w = Ret c w') ∧
  ∀ p w', mem_fstrdup fuel s w = Ret p w' →
    if decide (p = NULL)
    then memory (libc w') = memory (libc w)
    else cstring (memory (libc w')) p bytes ∧
         (∀ a, ¬ (p ≤ a < p + len) → memory (libc w') !! a = memory (libc w) !! a) ∧
         heap (vars w') = size_t (p + r) ∧
         ((r ≤ heapleft (vars w) ∧ p = heap (vars w) ∧ live (libc w') = live (libc w)) ∨
          (heapleft (vars w) < r ∧ live (libc w') = (p, chunk_size r) :: live (libc w))).
Proof.
  intros Hs Hstr Hlen Hf len r c.
  pose proof (mem_fstrdup_eq fuel s bytes w Hs Hstr ltac:(lia) Hf) as Heq. fold len in Heq.
  pose proof (align16_small len ltac:(unfold len; lia)) as (Hr & _ & _). fold r in Hr.
  split_and!.
  - intros Hroom Hh. rewrite Heq, (mem_bind_eq _ _ _ (heap (vars w)) (on_vars (cut r) w)).
    + rewrite decide_True by done. unfold memcpy, mbind, M_bind, modify. by eexists.
    + rewrite mem_fmalloc_eq. fold r. rewrite decide_False by (unfold len in Hr; lia).
      by rewrite decide_True.
  - intros Hroom Hc.
    destruct (refill_serves fuel r (on_vars (set_heapleft (chunk_size r)) w)
                ltac:(lia) Hc) as [w1 H1].
    rewrite Heq, (mem_bind_eq _ _ _ c w1).
    + rewrite decide_True by done. unfold memcpy, mbind, M_bind, modify. by eexists.
    + rewrite mem_fmalloc_eq. fold r. rewrite decide_False by (unfold len in Hr; lia).
      rewrite decide_False by lia. exact H1.
  - intros p w' H. rewrite Heq in H.
    apply mem_bind_Ret in H as (q & w2 & H2 & H).
    pose proof (mem_fmalloc_memory _ _ _ _ _ H2) as Hmem.
    destruct (decide (q ≠ NULL)) as [Hq|Hq].
    + apply mem_fmalloc_Ret in H2 as [B1 B2]; [|done]. fold r in B1, B2.
      unfold memcpy in H. mem_inv. rewrite decide_False by done. simpl.
      assert (∀ a, memcpy_from (memory (libc w2)) q s (Z.to_nat len) (memory (libc w2)) !! a
                   = if decide (q ≤ a < q + len) then memory (libc w) !! (s + (a - q))
                     else memory (libc w) !! a) as Hcp.
      { intros a. rewrite memcpy_from_lookup, Z2Nat.id by (unfold len; lia). by rewrite Hmem. }
      split_and!; [| |done|done].
      * apply (cstring_copy bytes (memory (libc w)) _ s q); [|done].
        intros i Hi. rewrite Hcp. rewrite decide_True by (unfold len; lia). f_equal. lia.
      * intros a Ha. rewrite Hcp. by rewrite decide_False.
    + mem_inv. rewrite decide_True by done. done.
Qed.

Lemma mem_fstrdup_copies_witness :
  ∃ w', mem_fstrdup 4 100 example_string_world = Ret 4096 w' ∧
        cstring (memory (libc w')) 4096 [104; 105] ∧
        heap (vars w') = 4112 ∧
        live (libc w') = [(4096, 15376)].
Proof.
  destruct (mem_fstrdup_copies 4 100 [104; 105] example_string_world) as (_ & H2 & H3).
  - unfold NULL. lia.
  - simpl. split_and!; (reflexivity || lia).
  - simpl. lia.
  - simpl. lia.
  - destruct H2 as [w' Hw'].
    + vm_compute. reflexivity.
    + intros H. vm_compute in H. discriminate H.
    + exists w'. split; [exact Hw'|].
      apply H3 in Hw'. destruct Hw' as (A1 & _ & A3 & [(A4 & _)|(_ & A5)]).
      * vm_compute in A4. exfalso. by apply A4.
      * split_and!; [exact A1|exact A3|exact A5].
Defined.

(** *** Setting the behaviour *)

(** X26: [mem_setexception] keeps a handler only with [MEM_CALLFP]: with
    any other flag the handler is dropped.  Nothing is checked when the
    behaviour is set; the mistake shows when memory runs out: with
    [MEM_CALLFP] and no handler [mem_exception] fails the [assert] on the
    handler, and with a flag that is none of the five it fails
    [assert(0)]. *)
Theorem mem_setexception_unchecked flag ap fuel w :
  let w1 := on_vars (λ g, set_oom_fp None (set_mem_behavior flag g)) w in
  (flag ≠ MEM_CALLFP → mem_setexception flag ap w = Ret tt w1) ∧
  (mem_setexception MEM_CALLFP (None :: ap);; mem_exception (S fuel)) w
  = AssertionFailed "oom_fp" (on_vars (λ g, set_oom_fp None (set_mem_behavior MEM_CALLFP g)) w) ∧
  (flag < 0 ∨ 4 < flag →
   (mem_setexception flag ap;; mem_exception (S fuel)) w = AssertionFailed "0" w1).
Proof.
  intros w1. split_and!.
  - intros Hf. unfold mem_setexception, mbind, M_bind, modify, gets. simpl.
    rewrite decide_False by done. reflexivity.
  - reflexivity.
  - intros Hf. unfold mem_setexception, mbind, M_bind, modify, gets. simpl.
    rewrite decide_False by (unfold MEM_CALLFP; lia).
    unfold mem_exception, mbind, M_bind, modify, gets. simpl.
    rewrite !decide_False by (unfold MEM_ABORTMSG, MEM_ABORT, MEM_CALLFP, MEM_RETNULL, MEM_RETRY; lia).
    reflexivity.
Qed.

(** X27: the behaviour and the handler set before the first [mem_init] are
    lost: [mem_init] in a program that is not initialised puts
    [MEM_ABORTMSG] back, drops the handler and zeroes the counts.  Set after
    the first [mem_init], the behaviour and the handler (kept with
    [MEM_CALLFP] only) survive a further call of [mem_init]. *)
Theorem mem_init_resets_behaviour flag ap w :
  mem_inited (vars w) = 0 →
  (flag = MEM_CALLFP → ap ≠ []) →
  (mem_setexception flag ap;; mem_init) w
  = Ret tt (mkWorld (mkGlobals 1 MEM_ABORTMSG None 0 0 (heap (vars w)) (heapleft (vars w)))
              (libc w)) ∧
  (mem_init;; mem_setexception flag ap;; mem_init) w
  = Ret tt (mkWorld
              (mkGlobals 2 flag (if decide (flag = MEM_CALLFP) then default None (head ap) else None)
                 0 0 (heap (vars w)) (heapleft (vars w)))
              (libc w)).
Proof.
  intros Hi Hap. destruct w as [[i b fp c sc h hl] l]. simpl in Hi. subst i.
  unfold mem_setexception, mem_init, mbind, M_bind, modify, gets, skip, ret, mret, M_ret, incr.
  simpl.
  destruct (decide (flag = MEM_CALLFP)) as [->|Hf].
  - destruct ap as [|a ap]; [by destruct Hap|]. split; reflexivity.
  - split; reflexivity.
Qed.

Lemma mem_init_resets_behaviour_witness :
  (mem_setexception MEM_CALLFP [Some example_handler];; mem_init) example_world
  = Ret tt (mkWorld (mkGlobals 1 MEM_ABORTMSG None 0 0 NULL 0) (libc example_world)) ∧
  (mem_init;; mem_setexception MEM_CALLFP [Some example_handler];; mem_init) example_world
  = Ret tt (mkWorld (mkGlobals 2 MEM_CALLFP (Some example_handler) 0 0 NULL 0)
              (libc example_world)).
Proof.
  apply (mem_init_resets_behaviour MEM_CALLFP [Some example_handler] example_world).
  - reflexivity.
  - intros _. discriminate.
Defined.
